(** * Acid-Generator-Mini: pattern generator and playback engine

    A shallow embedding of [src/Generator.hpp] and of the playback part of
    [src/AcidSeq.cpp], followed by the properties of the specification.

    Integers of the program ([int], [uint32_t]) are [Z]; unsigned 32-bit
    arithmetic has its wrap-around written out.  Fixed-size C arrays are
    lists read with a checked lookup, so that an out-of-bounds index shows
    up as [None].  Single-precision floats are modelled exactly, see
    [F32]. *)

From Stdlib Require Import ZArith Lia Bool List String Sorted.
From Stdlib Require Import Floats.SpecFloat.
From stdpp Require Import base option list.

Local Open Scope Z_scope.

(* ===================================================================== *)
(** * Definitions *)
(* ===================================================================== *)

(** ** IEEE-754 binary32 arithmetic

    Every finite binary32 number is an integer multiple of 2^-149 (the
    smallest subnormal), so a finite float is represented by that integer:
    [Fin n] stands for n * 2^-149.  An operation computes the exact
    rational result and rounds it to the nearest representable number,
    ties to even, which is what IEEE-754 prescribes for +, -, *, / and for
    the conversions in the default rounding mode.  The sign of a zero is
    not represented: the program never divides by a computed zero nor
    inspects a zero's sign. *)
Module F32.

Inductive t : Type :=
| Fin (n : Z)        (* the finite number n * 2^-149 *)
| Inf (neg : bool)   (* +infinity, or -infinity when [neg] *)
| NaN.

(** 1.0 counted in units of 2^-149. *)
Definition one : Z := 2 ^ 149.

(** Magnitudes from 2^128 on are not finite binary32 numbers. *)
Definition huge : Z := 2 ^ 277.

(** [rhe p q]: the integer nearest to p/q, ties to even ([0 < q]). *)
Definition rhe (p q : Z) : Z :=
  let d := p / q in
  let r := p mod q in
  match 2 * r ?= q with
  | Lt => d
  | Gt => d + 1
  | Eq => if Z.even d then d else d + 1
  end.

(** Binary exponent of the unit in the last place of a magnitude whose
    integer part (in units of 2^-149) is [x]: subnormals and the first
    normal binade are spaced by one unit, above that a number keeps 24
    significant bits. *)
Definition ulp_exp (x : Z) : Z :=
  if x <? 2 ^ 24 then 0 else Z.log2 x - 23.

(** [RN num den]: the rational num/den (in units of 2^-149, [0 < den])
    rounded to the nearest binary32 number of unbounded exponent. *)
Definition RN (num den : Z) : Z :=
  let a := Z.abs num in
  let k := ulp_exp (a / den) in
  Z.sgn num * (rhe a (den * 2 ^ k) * 2 ^ k).

(** Overflow to infinity. *)
Definition pack (n : Z) : t :=
  if huge <=? Z.abs n then Inf (n <? 0) else Fin n.

Definition round_ratio (num den : Z) : t := pack (RN num den).

(** Conversion of an integer ([static_cast<float>], or the usual
    arithmetic conversion of an [int] operand). *)
Definition of_Z (z : Z) : t := round_ratio (z * one) 1.

(** The float denoted by the decimal literal num/den. *)
Definition lit (num den : Z) : t := round_ratio (num * one) den.

Definition opp (x : t) : t :=
  match x with
  | Fin a => Fin (- a)
  | Inf s => Inf (negb s)
  | NaN => NaN
  end.

Definition add (x y : t) : t :=
  match x, y with
  | NaN, _ | _, NaN => NaN
  | Inf s1, Inf s2 => if Bool.eqb s1 s2 then x else NaN
  | Inf _, Fin _ => x
  | Fin _, Inf _ => y
  | Fin a, Fin b => round_ratio (a + b) 1
  end.

Definition sub (x y : t) : t := add x (opp y).

Definition mul (x y : t) : t :=
  match x, y with
  | NaN, _ | _, NaN => NaN
  | Inf s1, Inf s2 => Inf (xorb s1 s2)
  | Inf s, Fin b | Fin b, Inf s =>
      if b =? 0 then NaN else Inf (xorb s (b <? 0))
  | Fin a, Fin b => round_ratio (a * b) one
  end.

Definition div (x y : t) : t :=
  match x, y with
  | NaN, _ | _, NaN => NaN
  | Inf _, Inf _ => NaN
  | Inf s, Fin b => Inf (xorb s (b <? 0))
  | Fin _, Inf _ => Fin 0
  | Fin a, Fin b =>
      if b =? 0 then (if a =? 0 then NaN else Inf (a <? 0))
      else round_ratio (Z.sgn b * a * one) (Z.abs b)
  end.

(** Comparisons; every comparison with a NaN is false. *)
Definition ltb (x y : t) : bool :=
  match x, y with
  | NaN, _ | _, NaN => false
  | Inf s1, Inf s2 => s1 && negb s2
  | Inf s, Fin _ => s
  | Fin _, Inf s => negb s
  | Fin a, Fin b => a <? b
  end.

Definition leb (x y : t) : bool :=
  match x, y with
  | NaN, _ | _, NaN => false
  | Inf s1, Inf s2 => s1 || negb s2
  | Inf s, Fin _ => s
  | Fin _, Inf s => negb s
  | Fin a, Fin b => a <=? b
  end.

Definition gtb (x y : t) : bool := ltb y x.
Definition geb (x y : t) : bool := leb y x.

Definition eqb (x y : t) : bool :=
  match x, y with
  | Fin a, Fin b => a =? b
  | Inf s1, Inf s2 => Bool.eqb s1 s2
  | _, _ => false
  end.

(** [!=] is the negation of [==]: true when an operand is a NaN. *)
Definition neb (x y : t) : bool := negb (eqb x y).

(** [std::floor]. *)
Definition floor (x : t) : t :=
  match x with
  | Fin n => Fin (n / one * one)
  | _ => x
  end.

(** [std::round]: nearest integer, halfway cases away from zero. *)
Definition round (x : t) : t :=
  match x with
  | Fin n => Fin (Z.sgn n * ((Z.abs n + one / 2) / one) * one)
  | _ => x
  end.

(** [static_cast<int>]: truncation toward zero; the behaviour is
    undefined when the truncated value is not an [int]. *)
Definition to_int (x : t) : option Z :=
  match x with
  | Fin n =>
      let z := Z.quot n one in
      if (- 2 ^ 31 <=? z) && (z <? 2 ^ 31) then Some z else None
  | _ => None
  end.

(** The same number in the representation of the Standard Library's
    specification of IEEE arithmetic (sign, mantissa, exponent). *)
Definition to_SF (x : t) : spec_float :=
  match x with
  | NaN => S754_nan
  | Inf s => S754_infinity s
  | Fin 0 => S754_zero false
  | Fin n =>
      let a := Z.abs n in
      let k := ulp_exp a in
      S754_finite (n <? 0) (Z.to_pos (a / 2 ^ k)) (k - 149)
  end.

End F32.

Abbreviation float := F32.t.

(** ** Constants (Generator.hpp) *)

Definition MAX_STEPS : Z := 64.
Definition BAR_LEN : Z := 16.
Definition SCALE_SIZE : Z := 7.

(** ** SFC32, the 32-bit PRNG *)

Definition u32 (x : Z) : Z := x mod 2 ^ 32.

Record SFC32 : Type := mkSFC32 { sfc_a : Z; sfc_b : Z; sfc_c : Z; sfc_d : Z }.

(** [SFC32(uint32_t seed)] *)
Definition SFC32_seed (seed : Z) : SFC32 :=
  {| sfc_a := seed; sfc_b := seed; sfc_c := seed; sfc_d := seed |}.

(** The integer [t] that [next] converts, and the advanced state. *)
Definition next_bits (r : SFC32) : Z * SFC32 :=
  let t := u32 (sfc_a r + sfc_b r) in
  let a := Z.lxor (sfc_b r) (Z.shiftr (sfc_b r) 9) in
  let b := u32 (sfc_c r + u32 (Z.shiftl (sfc_c r) 3)) in
  let c := Z.lor (u32 (Z.shiftl (sfc_c r) 21)) (Z.shiftr (sfc_c r) 11) in
  let d := u32 (sfc_d r + 1) in
  let t := u32 (t + d) in
  let c := u32 (c + t) in
  (t, {| sfc_a := a; sfc_b := b; sfc_c := c; sfc_d := d |}).

(** [4294967296.0f] *)
Definition f_2p32 : float := F32.of_Z (2 ^ 32).

(** [float next()]: [static_cast<float>(t) / 4294967296.0f]. *)
Definition next (r : SFC32) : float * SFC32 :=
  let '(t, r') := next_bits r in
  (F32.div (F32.of_Z t) f_2p32, r').

(** [int randomInt(int min, int max)]:
    [static_cast<int>(std::floor(next() * (max - min + 1))) + min]. *)
Definition randomInt (min max : Z) (r : SFC32) : option (Z * SFC32) :=
  let '(x, r') := next r in
  n ← F32.to_int (F32.floor (F32.mul x (F32.of_Z (max - min + 1))));
  Some (n + min, r').

(** ** Checked array access

    [aget a i] is the C expression [a[i]]: defined when the index is
    inside the array, undefined ([None]) otherwise. *)
Definition aget {A : Type} (a : list A) (i : Z) : option A :=
  if i <? 0 then None else a !! Z.to_nat i.

(** ** Scale definitions *)

Inductive Scale : Type :=
| MAJOR | MINOR | DORIAN | MIXOLYDIAN | LYDIAN | PHRYGIAN | LOCRIAN
| HARMONIC_MINOR | HARMONIC_MAJOR | DORIAN_NR_4 | PHRYGIAN_DOMINANT
| MELODIC_MINOR | LYDIAN_AUGMENTED | LYDIAN_DOMINANT | HUNGARIAN_MINOR
| SUPER_LOCRIAN | SPANISH | BHAIRAV | PENTATONIC_MINOR | PENTATONIC_MAJOR
| BLUES_MINOR | WHOLE_TONE | CHROMATIC | JAPANESE_IN_SEN
| NUM_SCALES.

(** [static_cast<int>(scale)] *)
Definition scale_index (s : Scale) : Z :=
  match s with
  | MAJOR => 0 | MINOR => 1 | DORIAN => 2 | MIXOLYDIAN => 3 | LYDIAN => 4
  | PHRYGIAN => 5 | LOCRIAN => 6 | HARMONIC_MINOR => 7
  | HARMONIC_MAJOR => 8 | DORIAN_NR_4 => 9 | PHRYGIAN_DOMINANT => 10
  | MELODIC_MINOR => 11 | LYDIAN_AUGMENTED => 12 | LYDIAN_DOMINANT => 13
  | HUNGARIAN_MINOR => 14 | SUPER_LOCRIAN => 15 | SPANISH => 16
  | BHAIRAV => 17 | PENTATONIC_MINOR => 18 | PENTATONIC_MAJOR => 19
  | BLUES_MINOR => 20 | WHOLE_TONE => 21 | CHROMATIC => 22
  | JAPANESE_IN_SEN => 23 | NUM_SCALES => 24
  end.

Record ScaleData : Type := mkScale { intervals : list Z; scale_length : Z }.

Definition SCALES : list ScaleData :=
  [ mkScale [0; 2; 4; 5; 7; 9; 11; -1; -1; -1; -1; -1] 7    (* MAJOR *)
  ; mkScale [0; 2; 3; 5; 7; 8; 10; -1; -1; -1; -1; -1] 7    (* MINOR *)
  ; mkScale [0; 2; 3; 5; 7; 9; 10; -1; -1; -1; -1; -1] 7    (* DORIAN *)
  ; mkScale [0; 2; 4; 5; 7; 9; 10; -1; -1; -1; -1; -1] 7    (* MIXOLYDIAN *)
  ; mkScale [0; 2; 4; 6; 7; 9; 11; -1; -1; -1; -1; -1] 7    (* LYDIAN *)
  ; mkScale [0; 1; 3; 5; 7; 8; 10; -1; -1; -1; -1; -1] 7    (* PHRYGIAN *)
  ; mkScale [0; 1; 3; 5; 6; 8; 10; -1; -1; -1; -1; -1] 7    (* LOCRIAN *)
  ; mkScale [0; 2; 3; 5; 7; 8; 11; -1; -1; -1; -1; -1] 7    (* HARMONIC_MINOR *)
  ; mkScale [0; 2; 4; 5; 7; 8; 11; -1; -1; -1; -1; -1] 7    (* HARMONIC_MAJOR *)
  ; mkScale [0; 2; 3; 6; 7; 9; 10; -1; -1; -1; -1; -1] 7    (* DORIAN_NR_4 *)
  ; mkScale [0; 1; 4; 5; 7; 8; 10; -1; -1; -1; -1; -1] 7    (* PHRYGIAN_DOMINANT *)
  ; mkScale [0; 2; 3; 5; 7; 9; 11; -1; -1; -1; -1; -1] 7    (* MELODIC_MINOR *)
  ; mkScale [0; 2; 4; 6; 8; 9; 11; -1; -1; -1; -1; -1] 7    (* LYDIAN_AUGMENTED *)
  ; mkScale [0; 2; 4; 6; 7; 9; 10; -1; -1; -1; -1; -1] 7    (* LYDIAN_DOMINANT *)
  ; mkScale [0; 2; 3; 6; 7; 8; 11; -1; -1; -1; -1; -1] 7    (* HUNGARIAN_MINOR *)
  ; mkScale [0; 1; 3; 4; 6; 8; 10; -1; -1; -1; -1; -1] 7    (* SUPER_LOCRIAN *)
  ; mkScale [0; 1; 4; 5; 7; 9; 10; -1; -1; -1; -1; -1] 7    (* SPANISH *)
  ; mkScale [0; 1; 4; 5; 7; 8; 11; -1; -1; -1; -1; -1] 7    (* BHAIRAV *)
  ; mkScale [0; 3; 5; 7; 10; -1; -1; -1; -1; -1; -1; -1] 5  (* PENTATONIC_MINOR *)
  ; mkScale [0; 2; 4; 7; 9; -1; -1; -1; -1; -1; -1; -1] 5   (* PENTATONIC_MAJOR *)
  ; mkScale [0; 3; 5; 6; 7; 10; -1; -1; -1; -1; -1; -1] 6   (* BLUES_MINOR *)
  ; mkScale [0; 2; 4; 6; 8; 10; -1; -1; -1; -1; -1; -1] 6   (* WHOLE_TONE *)
  ; mkScale [0; 1; 2; 3; 4; 5; 6; 7; 8; 9; 10; 11] 12       (* CHROMATIC *)
  ; mkScale [0; 1; 5; 7; 10; -1; -1; -1; -1; -1; -1; -1] 5  (* JAPANESE_IN_SEN *)
  ].

(** ** SequenceStep *)

Record SequenceStep : Type := mkStep
  { note : Z;        (* scale degree, or -1 for a rest *)
    octave : Z;
    accent : bool;
    slide : bool }.

Definition isRest (s : SequenceStep) : bool := note s <? 0.

(** The value [{-1, 0, false, false}]. *)
Definition rest_step : SequenceStep := mkStep (-1) 0 false false.

(** ** getNoteInScale

    [%] and [/] of C++ truncate toward zero: [Z.rem] and [Z.quot]. *)
Definition getNoteInScale (note : Z) (scale : Scale) (root octave : Z)
  : option Z :=
  if note <? 0 then Some (-1)
  else
    scaleData ← aget SCALES (scale_index scale);
    let len := scale_length scaleData in
    let wrappedIndex := Z.rem note len in
    let octaveOffset := Z.quot note len in
    iv ← aget (intervals scaleData) wrappedIndex;
    Some (iv + root + 12 * (octave + octaveOffset)).

(** ** MasterPattern *)

Record MasterStep : Type := mkMasterStep
  { notePoolIndex : Z;
    ms_octave : Z;
    accentProb : float;
    slideProb : float }.

Record MasterPattern : Type := mkMasterPattern
  { barActivationOrder : list Z;      (* int [BAR_LEN] *)
    scalePriorityOrder : list Z;      (* int [SCALE_SIZE] *)
    steps : list MasterStep;          (* MasterStep [MAX_STEPS] *)
    muted : list bool }.              (* bool [MAX_STEPS] *)

Definition f_0_5 : float := F32.lit 5 10.
Definition f_100 : float := F32.of_Z 100.

(** The constructor [MasterPattern()]. *)
Definition MasterPattern_init : MasterPattern :=
  {| barActivationOrder := map Z.of_nat (seq 0 (Z.to_nat BAR_LEN));
     scalePriorityOrder := map Z.of_nat (seq 0 (Z.to_nat SCALE_SIZE));
     steps := repeat (mkMasterStep 0 0 f_0_5 f_0_5) (Z.to_nat MAX_STEPS);
     muted := repeat false (Z.to_nat MAX_STEPS) |}.

(** The scan of [isStepActive]:
    [for (i = 0; i < activeCount && i < BAR_LEN; i++)
       if (barActivationOrder[i] == barPos) return true;
     return false;]
    [fuel] bounds the number of iterations; [BAR_LEN] of them suffice. *)
Fixpoint activeScan (order : list Z) (barPos activeCount : Z)
    (fuel : nat) (i : Z) : option bool :=
  match fuel with
  | O => Some false
  | S fuel' =>
      if (i <? activeCount) && (i <? BAR_LEN) then
        x ← aget order i;
        if x =? barPos then Some true
        else activeScan order barPos activeCount fuel' (i + 1)
      else Some false
  end.

(** [std::max(0, static_cast<int>(std::round(BAR_LEN * density / 100.0f)))] *)
Definition activeCountOf (density : float) : option Z :=
  n ← F32.to_int
        (F32.round (F32.div (F32.mul (F32.of_Z BAR_LEN) density) f_100));
  Some (Z.max 0 n).

Definition isStepActive (m : MasterPattern) (step : Z) (density : float)
  : option bool :=
  let barPos := Z.rem step BAR_LEN in
  activeCount ← activeCountOf density;
  activeScan (barActivationOrder m) barPos activeCount (Z.to_nat BAR_LEN) 0.

(** [std::max(1, static_cast<int>(std::round(SCALE_SIZE * spread / 100.0f)))] *)
Definition spreadCountOf (spread : float) : option Z :=
  n ← F32.to_int
        (F32.round (F32.div (F32.mul (F32.of_Z SCALE_SIZE) spread) f_100));
  Some (Z.max 1 n).

Definition getScaleDegree (m : MasterPattern) (step : Z) (spread : float)
    (quantizeToPool : bool) : option Z :=
  ms ← aget (steps m) step;
  spreadCount ← spreadCountOf spread;
  if notePoolIndex ms <? spreadCount then
    aget (scalePriorityOrder m) (notePoolIndex ms)
  else if quantizeToPool then
    aget (scalePriorityOrder m) 0
  else
    Some (-1).

Definition findNotePoolIndex (m : MasterPattern) (scaleDegree : Z) : Z :=
  match list_find (fun x => x = scaleDegree)
          (take (Z.to_nat SCALE_SIZE) (scalePriorityOrder m)) with
  | Some (i, _) => Z.of_nat i
  | None => 0
  end.

Definition clearMutes (m : MasterPattern) : MasterPattern :=
  {| barActivationOrder := barActivationOrder m;
     scalePriorityOrder := scalePriorityOrder m;
     steps := steps m;
     muted := repeat false (Z.to_nat MAX_STEPS) |}.

Definition getStep (m : MasterPattern) (step : Z)
    (density spread accentsDensity slidesDensity : float)
    (quantizeToPool : bool) : option SequenceStep :=
  isMuted ← aget (muted m) step;
  if (isMuted : bool) then Some rest_step
  else
    active ← isStepActive m step density;
    if negb (active : bool) then Some rest_step
    else
      scaleDegree ← getScaleDegree m step spread quantizeToPool;
      if scaleDegree <? 0 then Some rest_step
      else
        ms ← aget (steps m) step;
        Some {| note := scaleDegree;
                octave := ms_octave ms;
                accent :=
                  F32.ltb (accentProb ms) (F32.div accentsDensity f_100);
                slide :=
                  F32.ltb (slideProb ms) (F32.div slidesDensity f_100) |}.

(** ** generateMaster *)

Record WeightedNote : Type := mkWeightedNote
  { wn_index : Z; wn_weight : float }.

Record WeightedStep : Type := mkWeightedStep
  { ws_step : Z; ws_weight : float }.

Definition f_999 : float := F32.of_Z 999.
Definition f_0_3 : float := F32.lit 3 10.

(** One compare-and-swap of the bubble sort:
    [if (a[j].weight < a[j+1].weight) swap(a[j], a[j+1])]. *)
Definition bubbleSwap {A : Type} (weight : A -> float) (a : list A)
    (j : nat) : list A :=
  match a !! j, a !! S j with
  | Some x, Some y =>
      if F32.ltb (weight x) (weight y) then <[S j := x]> (<[j := y]> a)
      else a
  | _, _ => a
  end.

(** [for (j = j0; j < j0 + count; j++) compare-and-swap at j]. *)
Fixpoint bubbleInner {A : Type} (weight : A -> float) (count j : nat)
    (a : list A) : list A :=
  match count with
  | O => a
  | S count' => bubbleInner weight count' (S j) (bubbleSwap weight a j)
  end.

(** [for (i = i0; i < i0 + count; i++)
      for (j = 0; j < size - i - 1; j++) compare-and-swap at j]. *)
Fixpoint bubbleOuter {A : Type} (weight : A -> float) (size count i : nat)
    (a : list A) : list A :=
  match count with
  | O => a
  | S count' =>
      bubbleOuter weight size count' (S i)
        (bubbleInner weight (size - i - 1) 0 a)
  end.

(** The "sort by weight descending" loops, for an array of [size]. *)
Definition bubbleSort {A : Type} (weight : A -> float) (size : nat)
    (a : list A) : list A :=
  bubbleOuter weight size (size - 1) 0 a.

(** [for (i = i0; i < i0 + n; i++) { weight = rng.next(); ... }]
    of section 1, filling [weightedScale] in index order. *)
Fixpoint weighScale (n : nat) (i : Z) (rng : SFC32)
  : list WeightedNote * SFC32 :=
  match n with
  | O => ([], rng)
  | S n' =>
      let '(weight, rng) := next rng in
      let weight := if i =? 0 then F32.add weight f_999 else weight in
      let weight := if i =? 4 then F32.add weight f_0_5 else weight in
      let '(rest, rng) := weighScale n' (i + 1) rng in
      (mkWeightedNote i weight :: rest, rng)
  end.

(** The same loop of section 2, filling [weightedBarSteps]. *)
Fixpoint weighBar (n : nat) (i : Z) (rng : SFC32)
  : list WeightedStep * SFC32 :=
  match n with
  | O => ([], rng)
  | S n' =>
      let '(weight, rng) := next rng in
      let weight := if Z.rem i 4 =? 0 then F32.add weight f_0_5 else weight in
      let weight := if i =? 0 then F32.add weight f_0_5 else weight in
      let '(rest, rng) := weighBar n' (i + 1) rng in
      (mkWeightedStep i weight :: rest, rng)
  end.

(** The loop of section 3: the content of steps i0, i0+1, ... *)
Fixpoint genSteps (n : nat) (i : Z) (rng : SFC32)
  : option (list MasterStep) :=
  match n with
  | O => Some []
  | S n' =>
      let isDownbeat := Z.rem i 4 =? 0 in
      '(notePoolIndex, rng) ←
        (if isDownbeat then
           let '(x, rng) := next rng in
           if F32.gtb x f_0_3 then Some (0, rng)
           else randomInt 0 (SCALE_SIZE - 1) rng
         else randomInt 0 (SCALE_SIZE - 1) rng);
      '(oct, rng) ← randomInt (-1) 1 rng;
      let '(accentProb, rng) := next rng in
      let '(slideProb, rng) := next rng in
      rest ← genSteps n' (i + 1) rng;
      Some (mkMasterStep notePoolIndex oct accentProb slideProb :: rest)
  end.

(** [generateMaster(seed, output)]: the orders and the steps of [output]
    are overwritten, its mute mask is left as it is. *)
Definition generateMaster (seed : Z) (output : MasterPattern)
  : option MasterPattern :=
  let rng := SFC32_seed seed in
  let '(weightedScale, rng) := weighScale (Z.to_nat SCALE_SIZE) 0 rng in
  let weightedScale :=
    bubbleSort wn_weight (Z.to_nat SCALE_SIZE) weightedScale in
  let '(weightedBarSteps, rng) := weighBar (Z.to_nat BAR_LEN) 0 rng in
  let weightedBarSteps :=
    bubbleSort ws_weight (Z.to_nat BAR_LEN) weightedBarSteps in
  newSteps ← genSteps (Z.to_nat MAX_STEPS) 0 rng;
  Some {| barActivationOrder := map ws_step weightedBarSteps;
          scalePriorityOrder := map wn_index weightedScale;
          steps := newSteps;
          muted := muted output |}.

(** ** The playback engine (AcidSeq.cpp)

    The host's pulse generator, [rack::dsp::PulseGenerator], as the host
    SDK defines it: [trigger] arms the countdown unless a longer pulse is
    already running, [process] reports whether the pulse is still high and
    advances the countdown. *)
Record PulseGenerator : Type := mkPulse { remaining : float }.

Definition f_0 : float := F32.Fin 0.

Definition pulse_trigger (duration : float) (g : PulseGenerator)
  : PulseGenerator :=
  if F32.gtb duration (remaining g) then mkPulse duration else g.

Definition pulse_process (deltaTime : float) (g : PulseGenerator)
  : bool * PulseGenerator :=
  if F32.gtb (remaining g) f_0
  then (true, mkPulse (F32.sub (remaining g) deltaTime))
  else (false, g).

(** The fields of [struct AcidSeq] that playback and persistence use (the
    display cache and the lights are left out). *)
Record AcidSeq : Type := mkAcidSeq
  { gatePulse : PulseGenerator;
    accentPulse : PulseGenerator;
    masterPattern : MasterPattern;
    currentStep : Z;
    currentSlideActive : bool;
    slideTargetPitch : float;
    currentPitch : float;
    slideRate : float;
    timeSinceLastClock : float;
    measuredClockPeriod : float;
    retriggerGapRemaining : float;
    currentSeed : Z }.

(** What one call of [process] reads: the parameters, already converted
    as in the first lines of [process], the outcome of the host's edge
    detectors, the wall clock and the sample timing. *)
Record ProcessIn : Type := mkProcessIn
  { patternLength : Z;
    scale : Scale;
    rootNote : Z;
    octaveOffset : Z;
    density : float;
    spread : float;
    accentDensity : float;
    slideDensity : float;
    generateTriggered : bool;
    resetTriggered : bool;
    clockRising : bool;
    timeNow : Z;
    sampleTime : float;
    sampleRate : float }.

Record Outputs : Type := mkOutputs
  { OUTPUT_PITCH : float;
    OUTPUT_GATE : float;
    OUTPUT_ACCENT : float;
    OUTPUT_SLIDE : option float }.  (* [None]: the output is not written *)

Definition f_0_125 : float := F32.lit 125 1000.
Definition f_0_01 : float := F32.lit 1 100.
Definition f_2 : float := F32.of_Z 2.
Definition f_12 : float := F32.of_Z 12.
Definition f_0_05 : float := F32.lit 5 100.
Definition f_1_1 : float := F32.lit 11 10.
Definition f_0_02 : float := F32.lit 2 100.
Definition f_10 : float := F32.of_Z 10.
Definition RETRIGGER_GAP_TIME : float := F32.lit 1 1000.

(** The member initialisers of [AcidSeq], around a given pattern. *)
Definition AcidSeq_fields (m : MasterPattern) (seed : Z) : AcidSeq :=
  {| gatePulse := mkPulse f_0;
     accentPulse := mkPulse f_0;
     masterPattern := m;
     currentStep := -1;
     currentSlideActive := false;
     slideTargetPitch := f_0;
     currentPitch := f_0;
     slideRate := f_0;
     timeSinceLastClock := f_0;
     measuredClockPeriod := f_0_125;
     retriggerGapRemaining := f_0;
     currentSeed := seed |}.

(** [generateNewPattern()], reading the wall clock [now]. *)
Definition generateNewPattern (now : Z) (s : AcidSeq) : option AcidSeq :=
  let seed :=
    Z.lxor (u32 now) (u32 (currentSeed s * 1664525 + 1013904223)) in
  m ← generateMaster seed (masterPattern s);
  Some {| gatePulse := gatePulse s;
          accentPulse := accentPulse s;
          masterPattern := clearMutes m;
          currentStep := currentStep s;
          currentSlideActive := currentSlideActive s;
          slideTargetPitch := slideTargetPitch s;
          currentPitch := currentPitch s;
          slideRate := slideRate s;
          timeSinceLastClock := timeSinceLastClock s;
          measuredClockPeriod := measuredClockPeriod s;
          retriggerGapRemaining := retriggerGapRemaining s;
          currentSeed := seed |}.

(** The constructor [AcidSeq()]. *)
Definition AcidSeq_new (now : Z) : option AcidSeq :=
  generateNewPattern now (AcidSeq_fields MasterPattern_init 12345).

(** The reset branch of [process]. *)
Definition resetEdge (s : AcidSeq) : AcidSeq :=
  {| gatePulse := gatePulse s;
     accentPulse := accentPulse s;
     masterPattern := masterPattern s;
     currentStep := -1;
     currentSlideActive := false;
     slideTargetPitch := slideTargetPitch s;
     currentPitch := currentPitch s;
     slideRate := slideRate s;
     timeSinceLastClock := timeSinceLastClock s;
     measuredClockPeriod := measuredClockPeriod s;
     retriggerGapRemaining := f_0;
     currentSeed := currentSeed s |}.

(** [timeSinceLastClock += args.sampleTime] *)
Definition accumulateTime (dt : float) (s : AcidSeq) : AcidSeq :=
  {| gatePulse := gatePulse s;
     accentPulse := accentPulse s;
     masterPattern := masterPattern s;
     currentStep := currentStep s;
     currentSlideActive := currentSlideActive s;
     slideTargetPitch := slideTargetPitch s;
     currentPitch := currentPitch s;
     slideRate := slideRate s;
     timeSinceLastClock := F32.add (timeSinceLastClock s) dt;
     measuredClockPeriod := measuredClockPeriod s;
     retriggerGapRemaining := retriggerGapRemaining s;
     currentSeed := currentSeed s |}.

(** The body of [if (clockRising) { ... }]. *)
Definition clockEdge (p : ProcessIn) (s : AcidSeq) : option AcidSeq :=
  (* Measure clock period (with sanity bounds) *)
  let period :=
    if F32.gtb (timeSinceLastClock s) f_0_01
       && F32.ltb (timeSinceLastClock s) f_2
    then timeSinceLastClock s
    else measuredClockPeriod s in
  (* Advance step *)
  let step1 := currentStep s + 1 in
  let cur := if step1 >=? patternLength p then 0 else step1 in
  step ← getStep (masterPattern s) cur (density p) (spread p)
           (accentDensity p) (slideDensity p) true;
  if negb (isRest step) then
    midiNote ← getNoteInScale (note step) (scale p) (rootNote p)
                 (octave step + octaveOffset p);
    let pitchVoltage := F32.div (F32.of_Z midiNote) f_12 in
    (* the remainder by a zero length is undefined *)
    if patternLength p =? 0 then None
    else
      let prevStep := Z.rem (cur - 1 + patternLength p) (patternLength p) in
      prevStepData ← getStep (masterPattern s) prevStep (density p)
                       (spread p) (accentDensity p) (slideDensity p) true;
      let slideFromPrev := negb (isRest prevStepData) && slide prevStepData in
      if slideFromPrev then
        (* Sliding into this note - set up portamento, no retrigger *)
        Some {| gatePulse :=
                  if slide step
                  then pulse_trigger (F32.mul period f_1_1) (gatePulse s)
                  else gatePulse s;
                accentPulse := accentPulse s;
                masterPattern := masterPattern s;
                currentStep := cur;
                currentSlideActive := slide step;
                slideTargetPitch := pitchVoltage;
                currentPitch := currentPitch s;
                slideRate :=
                  F32.div (F32.sub pitchVoltage (currentPitch s))
                          (F32.mul f_0_05 (sampleRate p));
                timeSinceLastClock := f_0;
                measuredClockPeriod := period;
                retriggerGapRemaining := retriggerGapRemaining s;
                currentSeed := currentSeed s |}
      else
        (* Normal attack - set pitch immediately and retrigger gate *)
        let gateTime :=
          if slide step then F32.mul period f_1_1 else f_0_02 in
        Some {| gatePulse := pulse_trigger gateTime (gatePulse s);
                accentPulse :=
                  if accent step
                  then pulse_trigger gateTime (accentPulse s)
                  else accentPulse s;
                masterPattern := masterPattern s;
                currentStep := cur;
                currentSlideActive := slide step;
                slideTargetPitch := pitchVoltage;
                currentPitch := pitchVoltage;
                slideRate := f_0;
                timeSinceLastClock := f_0;
                measuredClockPeriod := period;
                retriggerGapRemaining :=
                  if F32.gtb (remaining (gatePulse s)) f_0
                  then RETRIGGER_GAP_TIME
                  else retriggerGapRemaining s;
                currentSeed := currentSeed s |}
  else
    (* Rest - no gate, reset slide *)
    Some {| gatePulse := gatePulse s;
            accentPulse := accentPulse s;
            masterPattern := masterPattern s;
            currentStep := cur;
            currentSlideActive := false;
            slideTargetPitch := slideTargetPitch s;
            currentPitch := currentPitch s;
            slideRate := slideRate s;
            timeSinceLastClock := f_0;
            measuredClockPeriod := period;
            retriggerGapRemaining := retriggerGapRemaining s;
            currentSeed := currentSeed s |}.

(** "Process slide (portamento)": one sample of the ramp. *)
Definition slideTick (s : AcidSeq) : AcidSeq :=
  if F32.neb (slideRate s) f_0 then
    let pitch := F32.add (currentPitch s) (slideRate s) in
    let reached :=
      (F32.gtb (slideRate s) f_0 && F32.geb pitch (slideTargetPitch s))
      || (F32.ltb (slideRate s) f_0 && F32.leb pitch (slideTargetPitch s)) in
    {| gatePulse := gatePulse s;
       accentPulse := accentPulse s;
       masterPattern := masterPattern s;
       currentStep := currentStep s;
       currentSlideActive := currentSlideActive s;
       slideTargetPitch := slideTargetPitch s;
       currentPitch := if reached then slideTargetPitch s else pitch;
       slideRate := if reached then f_0 else slideRate s;
       timeSinceLastClock := timeSinceLastClock s;
       measuredClockPeriod := measuredClockPeriod s;
       retriggerGapRemaining := retriggerGapRemaining s;
       currentSeed := currentSeed s |}
  else s.

(** One call of [process]: generate trigger, reset, clock, portamento,
    outputs. *)
Definition process (p : ProcessIn) (s : AcidSeq)
  : option (AcidSeq * Outputs) :=
  s ← (if generateTriggered p then generateNewPattern (timeNow p) s
       else Some s);
  let s := if resetTriggered p then resetEdge s else s in
  let s := accumulateTime (sampleTime p) s in
  s ← (if clockRising p then clockEdge p s else Some s);
  let s := slideTick s in
  let '(gateHigh, gate) := pulse_process (sampleTime p) (gatePulse s) in
  let gapActive := F32.gtb (retriggerGapRemaining s) f_0 in
  let '(accentHigh, acc) := pulse_process (sampleTime p) (accentPulse s) in
  slideOut ←
    (if (0 <=? currentStep s) && (currentStep s <? patternLength p) then
       currentStepData ← getStep (masterPattern s) (currentStep s)
                           (density p) (spread p) (accentDensity p)
                           (slideDensity p) true;
       Some (Some (if slide currentStepData then f_10 else f_0))
     else Some None);
  Some ({| gatePulse := gate;
           accentPulse := acc;
           masterPattern := masterPattern s;
           currentStep := currentStep s;
           currentSlideActive := currentSlideActive s;
           slideTargetPitch := slideTargetPitch s;
           currentPitch := currentPitch s;
           slideRate := slideRate s;
           timeSinceLastClock := timeSinceLastClock s;
           measuredClockPeriod := measuredClockPeriod s;
           retriggerGapRemaining :=
             if gapActive
             then F32.sub (retriggerGapRemaining s) (sampleTime p)
             else retriggerGapRemaining s;
           currentSeed := currentSeed s |},
        {| OUTPUT_PITCH := currentPitch s;
           OUTPUT_GATE :=
             if gapActive then f_0 else if gateHigh then f_10 else f_0;
           OUTPUT_ACCENT := if accentHigh then f_10 else f_0;
           OUTPUT_SLIDE := slideOut |}).

(** ** Persistence: the JSON values of the jansson library

    jansson is the host's JSON library; its functions are modelled from
    its API: a constructor returns a null pointer ([None]) when it cannot
    build the value, which [json_real] does for a NaN or an infinity;
    [json_object_set_new] and [json_array_append_new] ignore a null value;
    the getters return a null pointer for a missing key or index, and the
    [_value] functions return 0 (or false) on a value of another type.
    A JSON real holds a C [double]; every binary32 number converts to a
    [double] and back unchanged, so the model keeps the binary32 number. *)
#[warnings="-register-all"]
Inductive json : Type :=
| JInteger (n : Z)
| JReal (x : float)
| JBool (b : bool)
| JArray (items : list json)
| JObject (fields : list (string * json)).

Definition json_integer (n : Z) : option json := Some (JInteger n).

Definition json_real (x : float) : option json :=
  match x with
  | F32.Fin _ => Some (JReal x)
  | _ => None
  end.

Definition json_boolean (b : bool) : option json := Some (JBool b).

Fixpoint fields_set (key : string) (v : json) (l : list (string * json))
  : list (string * json) :=
  match l with
  | [] => [(key, v)]
  | (k, w) :: l' =>
      if String.eqb k key then (k, v) :: l' else (k, w) :: fields_set key v l'
  end.

Definition json_object_set_new (obj : json) (key : string)
    (value : option json) : json :=
  match obj, value with
  | JObject l, Some v => JObject (fields_set key v l)
  | _, _ => obj
  end.

Definition json_array_append_new (arr : json) (value : option json) : json :=
  match arr, value with
  | JArray l, Some v => JArray (l ++ [v])
  | _, _ => arr
  end.

Definition json_object_get (obj : option json) (key : string) : option json :=
  match obj with
  | Some (JObject l) =>
      snd <$> List.find (fun kv => String.eqb (fst kv) key) l
  | _ => None
  end.

Definition json_array_size (arr : option json) : Z :=
  match arr with
  | Some (JArray l) => Z.of_nat (length l)
  | _ => 0
  end.

Definition json_array_get (arr : option json) (i : nat) : option json :=
  match arr with
  | Some (JArray l) => l !! i
  | _ => None
  end.

Definition json_integer_value (j : option json) : Z :=
  match j with
  | Some (JInteger n) => n
  | _ => 0
  end.

Definition json_real_value (j : option json) : float :=
  match j with
  | Some (JReal x) => x
  | _ => f_0
  end.

Definition json_boolean_value (j : option json) : bool :=
  match j with
  | Some (JBool b) => b
  | _ => false
  end.

(** Conversion of a [json_int_t] to [int]. *)
Definition to_int32 (z : Z) : Z := (z + 2 ^ 31) mod 2 ^ 32 - 2 ^ 31.

Definition JSON_VERSION : Z := 3.

(** ** dataToJson *)

(** [for (i = i0; i < i0 + n; i++)
      json_array_append_new(arrJ, json_integer(a[i]));] *)
Fixpoint orderToJson (n i : nat) (a : list Z) (arrJ : json) : option json :=
  match n with
  | O => Some arrJ
  | S n' =>
      x ← a !! i;
      orderToJson n' (S i) a (json_array_append_new arrJ (json_integer x))
  end.

(** The body of the loop over the steps. *)
Definition stepToJson (ms : MasterStep) (isMuted : bool) : json :=
  let stepJ := JObject [] in
  let stepJ := json_object_set_new stepJ "p" (json_integer (notePoolIndex ms)) in
  let stepJ := json_object_set_new stepJ "o" (json_integer (ms_octave ms)) in
  let stepJ := json_object_set_new stepJ "a" (json_real (accentProb ms)) in
  let stepJ := json_object_set_new stepJ "s" (json_real (slideProb ms)) in
  let stepJ := json_object_set_new stepJ "m" (json_boolean isMuted) in
  stepJ.

Fixpoint stepsToJson (n i : nat) (m : MasterPattern) (stepsJ : json)
  : option json :=
  match n with
  | O => Some stepsJ
  | S n' =>
      ms ← steps m !! i;
      isMuted ← muted m !! i;
      stepsToJson n' (S i) m
        (json_array_append_new stepsJ (Some (stepToJson ms isMuted)))
  end.

Definition dataToJson (s : AcidSeq) : option json :=
  let rootJ := JObject [] in
  let rootJ := json_object_set_new rootJ "version" (json_integer JSON_VERSION) in
  let rootJ := json_object_set_new rootJ "seed" (json_integer (currentSeed s)) in
  let rootJ :=
    json_object_set_new rootJ "currentStep" (json_integer (currentStep s)) in
  let masterJ := JObject [] in
  barOrderJ ← orderToJson (Z.to_nat BAR_LEN) 0
                (barActivationOrder (masterPattern s)) (JArray []);
  let masterJ :=
    json_object_set_new masterJ "barActivationOrder" (Some barOrderJ) in
  scaleOrderJ ← orderToJson (Z.to_nat SCALE_SIZE) 0
                  (scalePriorityOrder (masterPattern s)) (JArray []);
  let masterJ :=
    json_object_set_new masterJ "scalePriorityOrder" (Some scaleOrderJ) in
  stepsJ ← stepsToJson (Z.to_nat MAX_STEPS) 0 (masterPattern s) (JArray []);
  let masterJ := json_object_set_new masterJ "steps" (Some stepsJ) in
  let rootJ := json_object_set_new rootJ "masterPattern" (Some masterJ) in
  let rootJ :=
    json_object_set_new rootJ "currentSlideActive"
      (json_boolean (currentSlideActive s)) in
  let rootJ :=
    json_object_set_new rootJ "currentPitch" (json_real (currentPitch s)) in
  let rootJ :=
    json_object_set_new rootJ "slideTargetPitch"
      (json_real (slideTargetPitch s)) in
  let rootJ :=
    json_object_set_new rootJ "slideRate" (json_real (slideRate s)) in
  Some rootJ.

(** ** dataFromJson *)

(** [for (i = i0; i < i0 + n && i < json_array_size(arrJ); i++)
      a[i] = json_integer_value(json_array_get(arrJ, i));] *)
Fixpoint loadOrder (n i : nat) (arrJ : option json) (a : list Z) : list Z :=
  match n with
  | O => a
  | S n' =>
      if Z.of_nat i <? json_array_size arrJ then
        loadOrder n' (S i) arrJ
          (<[i := to_int32 (json_integer_value (json_array_get arrJ i))]> a)
      else a
  end.

(** The assignments to [masterPattern.steps[i]] guarded by the presence
    of the keys "p", "o", "a" and "s". *)
Definition loadStep (stepDataJ : option json) (ms : MasterStep) : MasterStep :=
  let pJ := json_object_get stepDataJ "p" in
  let oJ := json_object_get stepDataJ "o" in
  let aJ := json_object_get stepDataJ "a" in
  let sJ := json_object_get stepDataJ "s" in
  {| notePoolIndex :=
       if pJ is Some _ then to_int32 (json_integer_value pJ) else notePoolIndex ms;
     ms_octave :=
       if oJ is Some _ then to_int32 (json_integer_value oJ) else ms_octave ms;
     accentProb := if aJ is Some _ then json_real_value aJ else accentProb ms;
     slideProb := if sJ is Some _ then json_real_value sJ else slideProb ms |}.

(** [for (i = i0; i < i0 + n && i < json_array_size(stepsJ); i++) ...],
    on the arrays [steps] and [muted]. *)
Fixpoint loadSteps (n i : nat) (stepsJ : option json)
    (st : list MasterStep) (mu : list bool) : list MasterStep * list bool :=
  match n with
  | O => (st, mu)
  | S n' =>
      if Z.of_nat i <? json_array_size stepsJ then
        let stepDataJ := json_array_get stepsJ i in
        match stepDataJ with
        | Some _ =>
            let mJ := json_object_get stepDataJ "m" in
            loadSteps n' (S i) stepsJ
              (match st !! i with
               | Some ms => <[i := loadStep stepDataJ ms]> st
               | None => st
               end)
              (if mJ is Some _ then <[i := json_boolean_value mJ]> mu else mu)
        | None => loadSteps n' (S i) stepsJ st mu
        end
      else (st, mu)
  end.

(** The branch [if (masterJ && version >= 2)]. *)
Definition loadMaster (masterJ : option json) (m : MasterPattern)
  : MasterPattern :=
  let barOrderJ := json_object_get masterJ "barActivationOrder" in
  let bar :=
    if barOrderJ is Some _
    then loadOrder (Z.to_nat BAR_LEN) 0 barOrderJ (barActivationOrder m)
    else barActivationOrder m in
  let scaleOrderJ := json_object_get masterJ "scalePriorityOrder" in
  let sc :=
    if scaleOrderJ is Some _
    then loadOrder (Z.to_nat SCALE_SIZE) 0 scaleOrderJ (scalePriorityOrder m)
    else scalePriorityOrder m in
  let stepsJ := json_object_get masterJ "steps" in
  let '(st, mu) :=
    if stepsJ is Some _
    then loadSteps (Z.to_nat MAX_STEPS) 0 stepsJ (steps m) (muted m)
    else (steps m, muted m) in
  {| barActivationOrder := bar;
     scalePriorityOrder := sc;
     steps := st;
     muted := mu |}.

Definition dataFromJson (rootJ : json) (s : AcidSeq) : option AcidSeq :=
  let root := Some rootJ in
  let versionJ := json_object_get root "version" in
  let version :=
    if versionJ is Some _ then to_int32 (json_integer_value versionJ) else 0 in
  let seedJ := json_object_get root "seed" in
  let seed :=
    if seedJ is Some _ then u32 (json_integer_value seedJ) else currentSeed s in
  let stepJ := json_object_get root "currentStep" in
  let cur :=
    if stepJ is Some _ then to_int32 (json_integer_value stepJ) else currentStep s in
  let masterJ := json_object_get root "masterPattern" in
  m ← (if bool_decide (is_Some masterJ) && (version >=? 2)
       then Some (loadMaster masterJ (masterPattern s))
       else generateMaster seed (masterPattern s));
  let slideActiveJ := json_object_get root "currentSlideActive" in
  let currentPitchJ := json_object_get root "currentPitch" in
  let slideTargetJ := json_object_get root "slideTargetPitch" in
  let slideRateJ := json_object_get root "slideRate" in
  Some {| gatePulse := gatePulse s;
          accentPulse := accentPulse s;
          masterPattern := m;
          currentStep := cur;
          currentSlideActive :=
            if slideActiveJ is Some _ then json_boolean_value slideActiveJ
            else currentSlideActive s;
          slideTargetPitch :=
            if slideTargetJ is Some _ then json_real_value slideTargetJ
            else slideTargetPitch s;
          currentPitch :=
            if currentPitchJ is Some _ then json_real_value currentPitchJ
            else currentPitch s;
          slideRate :=
            if slideRateJ is Some _ then json_real_value slideRateJ else slideRate s;
          timeSinceLastClock := timeSinceLastClock s;
          measuredClockPeriod := measuredClockPeriod s;
          retriggerGapRemaining := retriggerGapRemaining s;
          currentSeed := seed |}.

(** ** Predicates used in the statements *)

(** A percentage parameter inside its configured range [0, 100]. *)
Definition percent_ok (x : float) : Prop :=
  exists n, x = F32.Fin n /\ 0 <= n <= 100 * F32.one.

(** The value of a C [int]. *)
Definition in_int32 (z : Z) : Prop := - 2 ^ 31 <= z < 2 ^ 31.

(** [Fin n] is a binary32 number: n has at most 24 significant bits (or
    is below 2^24 units, the subnormal spacing). *)
Definition representable (n : Z) : Prop :=
  n mod 2 ^ F32.ulp_exp (Z.abs n) = 0.

(** The sign of a float: -1, 0 or 1 (0 for a zero and for a NaN). *)
Definition sign (x : float) : Z :=
  match x with
  | F32.Fin n => Z.sgn n
  | F32.Inf s => if s then -1 else 1
  | F32.NaN => 0
  end.

(** The arrays of a [MasterPattern] have their declared sizes and no pool
    index is negative. *)
Definition wf_pattern (m : MasterPattern) : Prop :=
  length (barActivationOrder m) = Z.to_nat BAR_LEN
  /\ length (scalePriorityOrder m) = Z.to_nat SCALE_SIZE
  /\ length (steps m) = Z.to_nat MAX_STEPS
  /\ length (muted m) = Z.to_nat MAX_STEPS
  /\ Forall (fun ms => 0 <= notePoolIndex ms) (steps m).

(** What the types of the fields guarantee for a pattern held by a module,
    with thresholds that are numbers: the arrays have their declared
    sizes, every [int] is an [int], every threshold is finite. *)
Definition storable_step (ms : MasterStep) : Prop :=
  in_int32 (notePoolIndex ms) /\ in_int32 (ms_octave ms)
  /\ (exists a, accentProb ms = F32.Fin a)
  /\ (exists b, slideProb ms = F32.Fin b).

Definition storable_pattern (m : MasterPattern) : Prop :=
  length (barActivationOrder m) = Z.to_nat BAR_LEN
  /\ length (scalePriorityOrder m) = Z.to_nat SCALE_SIZE
  /\ length (steps m) = Z.to_nat MAX_STEPS
  /\ length (muted m) = Z.to_nat MAX_STEPS
  /\ Forall in_int32 (barActivationOrder m)
  /\ Forall in_int32 (scalePriorityOrder m)
  /\ Forall storable_step (steps m).

(** The arrays of the pattern that [dataFromJson] overwrites have their
    declared sizes. *)
Definition sized_pattern (m : MasterPattern) : Prop :=
  length (barActivationOrder m) = Z.to_nat BAR_LEN
  /\ length (scalePriorityOrder m) = Z.to_nat SCALE_SIZE
  /\ length (steps m) = Z.to_nat MAX_STEPS
  /\ length (muted m) = Z.to_nat MAX_STEPS.

(** ** Auxiliary definitions used in the proofs *)

(** [std::round] of the finite number y * 2^-149, as an integer. *)
Definition roundZ (y : Z) : Z :=
  Z.sgn y * ((Z.abs y + F32.one / 2) / F32.one).

(** The count that [isStepActive] and [getScaleDegree] derive from a
    percentage: [static_cast<int>(std::round(K * percent / 100.0f))]. *)
Definition percentCount (K : Z) (percent : float) : option Z :=
  F32.to_int (F32.round (F32.div (F32.mul (F32.of_Z K) percent) f_100)).

(** No element of the list [tl] outweighs the element [h]. *)
Definition dominated {A : Type} (weight : A -> float) (h : A) (tl : list A)
  : Prop :=
  Forall (fun y => F32.ltb (weight h) (weight y) = false) tl.

(** ** Further functions of Generator.hpp *)

(** [stepToVoltage]: 0 V for a rest, else (midiNote - 60) / 12.0f. *)
Definition stepToVoltage (step : SequenceStep) (scale : Scale)
    (root baseOctave : Z) : option float :=
  if isRest step then Some f_0
  else
    midiNote ← getNoteInScale (note step) scale root
                 (octave step + baseOctave);
    Some (F32.div (F32.of_Z (midiNote - 60)) f_12).

(** ** Names for the parts of a clock edge, used in the statements *)

(** The step index that a clock edge moves to. *)
Definition nextStep (cur len : Z) : Z :=
  if cur + 1 >=? len then 0 else cur + 1.

(** The clock period that a clock edge retains. *)
Definition measuredPeriod (s : AcidSeq) : float :=
  if F32.gtb (timeSinceLastClock s) f_0_01
     && F32.ltb (timeSinceLastClock s) f_2
  then timeSinceLastClock s else measuredClockPeriod s.

(** [getStep] as [process] calls it. *)
Definition resolve (p : ProcessIn) (m : MasterPattern) (i : Z)
  : option SequenceStep :=
  getStep m i (density p) (spread p) (accentDensity p) (slideDensity p) true.

(** The state that [clockEdge] leaves on a rest. *)
Definition afterRest (s : AcidSeq) (cur : Z) (period : float) : AcidSeq :=
  mkAcidSeq (gatePulse s) (accentPulse s) (masterPattern s) cur false
    (slideTargetPitch s) (currentPitch s) (slideRate s) f_0 period
    (retriggerGapRemaining s) (currentSeed s).

(** The state that [clockEdge] leaves on a note slid into. *)
Definition afterSlideIn (p : ProcessIn) (s : AcidSeq) (cur : Z)
    (period : float) (step : SequenceStep) (pitch : float) : AcidSeq :=
  mkAcidSeq
    (if slide step then pulse_trigger (F32.mul period f_1_1) (gatePulse s)
     else gatePulse s)
    (accentPulse s) (masterPattern s) cur (slide step) pitch (currentPitch s)
    (F32.div (F32.sub pitch (currentPitch s)) (F32.mul f_0_05 (sampleRate p)))
    f_0 period (retriggerGapRemaining s) (currentSeed s).

(** The state that [clockEdge] leaves on a note attacked. *)
Definition afterAttack (s : AcidSeq) (cur : Z) (period : float)
    (step : SequenceStep) (pitch : float) : AcidSeq :=
  let gateTime := if slide step then F32.mul period f_1_1 else f_0_02 in
  mkAcidSeq
    (pulse_trigger gateTime (gatePulse s))
    (if accent step then pulse_trigger gateTime (accentPulse s)
     else accentPulse s)
    (masterPattern s) cur (slide step) pitch pitch f_0 f_0 period
    (if F32.gtb (remaining (gatePulse s)) f_0 then RETRIGGER_GAP_TIME
     else retriggerGapRemaining s)
    (currentSeed s).

(** What a generated step descriptor can hold: the documented ranges,
    widened by the value that a draw of exactly 1.0 produces. *)
Definition generated_step (ms : MasterStep) : Prop :=
  0 <= notePoolIndex ms <= 7
  /\ -1 <= ms_octave ms <= 2
  /\ (exists a, accentProb ms = F32.Fin a /\ 0 <= a <= F32.one)
  /\ (exists b, slideProb ms = F32.Fin b /\ 0 <= b <= F32.one).

(** Inputs of a sample with a rising clock at 48 kHz, on a 16-step
    pattern in C minor at full density, for the examples. *)
Definition demo_in (oo : Z) (sl : float) : ProcessIn :=
  {| patternLength := 16; scale := MINOR; rootNote := 0; octaveOffset := oo;
     density := F32.of_Z 100; spread := F32.of_Z 50;
     accentDensity := F32.of_Z 25; slideDensity := sl;
     generateTriggered := false; resetTriggered := false; clockRising := true;
     timeNow := 0;
     sampleTime := F32.lit 1 48000; sampleRate := F32.of_Z 48000 |}.

(** A module around the default pattern, at step [cur], with a gate pulse
    of [gate] seconds left and the pitch [pitch]. *)
Definition demo_at (cur : Z) (gate pitch : float) : AcidSeq :=
  mkAcidSeq (mkPulse gate) (mkPulse f_0) MasterPattern_init cur false
    f_0 pitch f_0 f_0 f_0_125 f_0 12345.

(** A module as its constructor leaves it, around the default pattern. *)
Definition demo_module : AcidSeq := AcidSeq_fields MasterPattern_init 12345.

(** A module in the middle of a glide from 0 V up to 1 V. *)
Definition demo_ramp : AcidSeq :=
  mkAcidSeq (mkPulse f_0) (mkPulse f_0) MasterPattern_init 0 true
    (F32.Fin F32.one) (F32.Fin 0) (F32.Fin (2 ^ 140)) f_0 f_0_125 f_0 12345.

(** [n] samples of the portamento ramp, without a clock edge. *)
Definition ticks (n : nat) (s : AcidSeq) : AcidSeq := Nat.iter n slideTick s.

(** The state of a ramp toward [v] at rate [r]: the pitch [c] is a
    binary32 number, and the rate is cleared only on the target. *)
Definition ramp (v r : Z) (s : AcidSeq) (c : Z) : Prop :=
  currentPitch s = F32.Fin c /\ representable c /\ Z.abs c < F32.huge
  /\ slideTargetPitch s = F32.Fin v
  /\ (slideRate s = F32.Fin r \/ (slideRate s = f_0 /\ c = v)).

(** The last part of [process]: pulses, retrigger gap and outputs. *)
Definition outputStage (p : ProcessIn) (s : AcidSeq)
  : option (AcidSeq * Outputs) :=
  let '(gateHigh, gate) := pulse_process (sampleTime p) (gatePulse s) in
  let gapActive := F32.gtb (retriggerGapRemaining s) f_0 in
  let '(accentHigh, acc) := pulse_process (sampleTime p) (accentPulse s) in
  slideOut ←
    (if (0 <=? currentStep s) && (currentStep s <? patternLength p) then
       currentStepData ← getStep (masterPattern s) (currentStep s)
                           (density p) (spread p) (accentDensity p)
                           (slideDensity p) true;
       Some (Some (if slide currentStepData then f_10 else f_0))
     else Some None);
  Some ({| gatePulse := gate;
           accentPulse := acc;
           masterPattern := masterPattern s;
           currentStep := currentStep s;
           currentSlideActive := currentSlideActive s;
           slideTargetPitch := slideTargetPitch s;
           currentPitch := currentPitch s;
           slideRate := slideRate s;
           timeSinceLastClock := timeSinceLastClock s;
           measuredClockPeriod := measuredClockPeriod s;
           retriggerGapRemaining :=
             if gapActive
             then F32.sub (retriggerGapRemaining s) (sampleTime p)
             else retriggerGapRemaining s;
           currentSeed := currentSeed s |},
        {| OUTPUT_PITCH := currentPitch s;
           OUTPUT_GATE :=
             if gapActive then f_0 else if gateHigh then f_10 else f_0;
           OUTPUT_ACCENT := if accentHigh then f_10 else f_0;
           OUTPUT_SLIDE := slideOut |}).

(** The state that the clock and reset inputs of a sample leave for the
    clock branch. *)
Definition beforeClock (p : ProcessIn) (s : AcidSeq) : AcidSeq :=
  accumulateTime (sampleTime p) (if resetTriggered p then resetEdge s else s).

(** What the engine relies on between two samples: a pattern with arrays
    of the declared sizes and a step index that is -1 or inside the
    array. *)
Definition engine_ok (s : AcidSeq) : Prop :=
  wf_pattern (masterPattern s) /\ -1 <= currentStep s < MAX_STEPS.

(** Parameters inside their configured ranges. *)
Definition params_ok (p : ProcessIn) : Prop :=
  1 <= patternLength p <= MAX_STEPS
  /\ percent_ok (density p) /\ percent_ok (spread p)
  /\ scale p <> NUM_SCALES.

(** A run of [process] over the samples [ps], outputs collected. *)
Fixpoint run (ps : list ProcessIn) (s : AcidSeq)
  : option (AcidSeq * list Outputs) :=
  match ps with
  | [] => Some (s, [])
  | p :: ps' =>
      '(s1, out) ← process p s;
      '(s2, outs) ← run ps' s1;
      Some (s2, out :: outs)
  end.

(** The version that [dataFromJson] reads from a document. *)
Definition storedVersion (rootJ : json) : Z :=
  let versionJ := json_object_get (Some rootJ) "version" in
  if versionJ is Some _ then to_int32 (json_integer_value versionJ) else 0.

(** The seed that [dataFromJson] leaves in the module. *)
Definition storedSeed (rootJ : json) (s : AcidSeq) : Z :=
  let seedJ := json_object_get (Some rootJ) "seed" in
  if seedJ is Some _ then u32 (json_integer_value seedJ) else currentSeed s.

(** A JSON value is an object. *)
Definition is_obj (j : json) : Prop :=
  match j with JObject _ => True | _ => False end.

(** The documents that [dataToJson] builds. *)
Definition masterDoc (m : MasterPattern) : json :=
  json_object_set_new
    (json_object_set_new
       (json_object_set_new (JObject []) "barActivationOrder"
          (Some (JArray (map JInteger (barActivationOrder m)))))
       "scalePriorityOrder"
       (Some (JArray (map JInteger (scalePriorityOrder m)))))
    "steps" (Some (JArray (zip_with stepToJson (steps m) (muted m)))).

Definition rootDoc (s : AcidSeq) : json :=
  json_object_set_new
    (json_object_set_new
       (json_object_set_new
          (json_object_set_new
             (json_object_set_new
                (json_object_set_new
                   (json_object_set_new
                      (json_object_set_new (JObject []) "version"
                         (Some (JInteger JSON_VERSION)))
                      "seed" (Some (JInteger (currentSeed s))))
                   "currentStep" (Some (JInteger (currentStep s))))
                "masterPattern" (Some (masterDoc (masterPattern s))))
             "currentSlideActive" (Some (JBool (currentSlideActive s))))
          "currentPitch" (json_real (currentPitch s)))
       "slideTargetPitch" (json_real (slideTargetPitch s)))
    "slideRate" (json_real (slideRate s)).

(** A document of version 1: a seed and no pattern. *)
Definition doc_v1 : json :=
  json_object_set_new
    (json_object_set_new (JObject []) "version" (json_integer 1))
    "seed" (json_integer 42).

(** A document edited by hand: a step index of -5 and no pattern. *)
Definition doc_step_m5 : json :=
  json_object_set_new
    (json_object_set_new (JObject []) "version" (json_integer 3))
    "currentStep" (json_integer (-5)).

(** The steps of bar [k] (steps 16 k .. 16 k + 15) that are active at a
    density. *)
Definition activeInBar (m : MasterPattern) (d : float) (k : nat) : list nat :=
  filter (fun i => isStepActive m (Z.of_nat i) d = Some true)
         (seq (16 * k) 16).

(** ** The legacy generator (Generator.hpp, [generate])

    [generate] applies density and spread while it generates.  It draws
    in the order of [generateMaster]: the scale weights, the bar weights,
    then four values per step. *)

Record GeneratorParams : Type := mkGeneratorParams
  { gp_patternLength : Z;
    gp_density : float;
    gp_spread : float;
    gp_accentsDensity : float;
    gp_slidesDensity : float;
    gp_seed : Z }.

(** [struct Pattern] *)
Record Pattern : Type := mkPattern
  { pat_steps : list SequenceStep;   (* SequenceStep [MAX_STEPS] *)
    pat_length : Z }.

(** The local [struct StepData] of [generate]. *)
Record StepData : Type := mkStepData
  { sd_noteIndex : Z;
    sd_octave : Z;
    sd_accentProb : float;
    sd_slideProb : float }.

(** [std::max(1, static_cast<int>(std::round(SCALE_SIZE * (spread / 100.0f))))] *)
Definition legacySpreadCount (spread : float) : option Z :=
  n ← F32.to_int
        (F32.round (F32.mul (F32.of_Z SCALE_SIZE) (F32.div spread f_100)));
  Some (Z.max 1 n).

(** [int selectedNotes[SCALE_SIZE];
     for (i = 0; i < spreadCount; i++) selectedNotes[i] = sortedScale[i];]
    An entry that the loop does not write holds no value ([None]); a
    count above [SCALE_SIZE] writes outside the array. *)
Definition selectNotes (spreadCount : Z) (sortedScale : list Z)
  : option (list (option Z)) :=
  if spreadCount <=? SCALE_SIZE then
    Some (map Some (take (Z.to_nat spreadCount) sortedScale)
          ++ repeat None (Z.to_nat (SCALE_SIZE - spreadCount)))
  else None.

(** The loop that fills [stepData]. *)
Fixpoint genStepData (spreadCount : Z) (n : nat) (i : Z) (rng : SFC32)
  : option (list StepData) :=
  match n with
  | O => Some []
  | S n' =>
      let isDownbeat := Z.rem i 4 =? 0 in
      '(noteIndex, rng) ←
        (if isDownbeat then
           let '(x, rng) := next rng in
           if F32.gtb x f_0_3 then Some (0, rng)
           else randomInt 0 (spreadCount - 1) rng
         else randomInt 0 (spreadCount - 1) rng);
      '(oct, rng) ← randomInt (-1) 1 rng;
      let '(accentProb, rng) := next rng in
      let '(slideProb, rng) := next rng in
      rest ← genStepData spreadCount n' (i + 1) rng;
      Some (mkStepData noteIndex oct accentProb slideProb :: rest)
  end.

(** [static_cast<int>(std::round(BAR_LEN * (density / 100.0f)))] *)
Definition stepsPerBar (density : float) : option Z :=
  F32.to_int (F32.round (F32.mul (F32.of_Z BAR_LEN) (F32.div density f_100))).

(** [for (i = i0; i < numSteps && i < BAR_LEN; i++)
      activeBarSteps[barActivationOrder[i]] = true;] *)
Fixpoint markActive (fuel : nat) (i numSteps : Z) (order : list Z)
    (active : list bool) : option (list bool) :=
  match fuel with
  | O => Some active
  | S fuel' =>
      if (i <? numSteps) && (i <? BAR_LEN) then
        b ← aget order i;
        if (0 <=? b) && (b <? Z.of_nat (length active)) then
          markActive fuel' (i + 1) numSteps order (<[Z.to_nat b := true]> active)
        else None
      else Some active
  end.

(** The loop that writes [output.steps]. *)
Fixpoint fillSteps (n : nat) (i : Z) (active : list bool)
    (stepData : list StepData) (selectedNotes : list (option Z))
    (params : GeneratorParams) : option (list SequenceStep) :=
  match n with
  | O => Some []
  | S n' =>
      let barPosition := Z.rem i BAR_LEN in
      isActive ← aget active barPosition;
      st ← (if negb (isActive : bool) then Some rest_step
            else
              data ← aget stepData i;
              entry ← aget selectedNotes (sd_noteIndex data);
              noteValue ← (entry : option Z);
              Some {| note := noteValue;
                      octave := sd_octave data;
                      accent :=
                        F32.ltb (sd_accentProb data)
                          (F32.div (gp_accentsDensity params) f_100);
                      slide :=
                        F32.ltb (sd_slideProb data)
                          (F32.div (gp_slidesDensity params) f_100) |});
      rest ← fillSteps n' (i + 1) active stepData selectedNotes params;
      Some (st :: rest)
  end.

(** [generate(params, output)]: every field of [output] is overwritten. *)
Definition generate (params : GeneratorParams) : option Pattern :=
  let rng := SFC32_seed (gp_seed params) in
  let '(weightedScale, rng) := weighScale (Z.to_nat SCALE_SIZE) 0 rng in
  let weightedScale :=
    bubbleSort wn_weight (Z.to_nat SCALE_SIZE) weightedScale in
  let sortedScale := map wn_index weightedScale in
  spreadCount ← legacySpreadCount (gp_spread params);
  selectedNotes ← selectNotes spreadCount sortedScale;
  let '(weightedBarSteps, rng) := weighBar (Z.to_nat BAR_LEN) 0 rng in
  let weightedBarSteps :=
    bubbleSort ws_weight (Z.to_nat BAR_LEN) weightedBarSteps in
  let barActivationOrder := map ws_step weightedBarSteps in
  stepData ← genStepData spreadCount (Z.to_nat MAX_STEPS) 0 rng;
  numStepsToGeneratePerBar ← stepsPerBar (gp_density params);
  activeBarSteps ← markActive (Z.to_nat BAR_LEN) 0 numStepsToGeneratePerBar
                     barActivationOrder (repeat false (Z.to_nat BAR_LEN));
  newSteps ← fillSteps (Z.to_nat MAX_STEPS) 0 activeBarSteps stepData
               selectedNotes params;
  Some {| pat_steps := newSteps; pat_length := MAX_STEPS |}.

(** Octave and thresholds of a step are the same draws in both loops. *)
Definition same_draws (ms : MasterStep) (sd : StepData) : Prop :=
  ms_octave ms = sd_octave sd /\ accentProb ms = sd_accentProb sd
  /\ slideProb ms = sd_slideProb sd.

(** ** The display cache (AcidSeq.cpp, [updateDisplayPattern])

    The fields of [struct AcidSeq] that the display uses: the resolved
    pattern and the parameters it was resolved with. *)
Record Display : Type := mkDisplay
  { displaySteps : list SequenceStep;     (* displayPattern.steps *)
    cachedDensity : float;
    cachedSpread : float;
    cachedAccentDensity : float;
    cachedSlideDensity : float;
    forceDisplayRefresh : bool }.

(** [for (i = i0; i < i0 + n; i++)
      displayPattern.steps[i] = masterPattern.getStep(i, ...);] *)
Fixpoint refreshSteps (n : nat) (i : Z) (m : MasterPattern)
    (density spread accentDensity slideDensity : float)
    (disp : list SequenceStep) : option (list SequenceStep) :=
  match n with
  | O => Some disp
  | S n' =>
      st ← getStep m i density spread accentDensity slideDensity true;
      if (0 <=? i) && (i <? Z.of_nat (length disp)) then
        refreshSteps n' (i + 1) m density spread accentDensity slideDensity
          (<[Z.to_nat i := st]> disp)
      else None
  end.

Definition updateDisplayPattern (m : MasterPattern)
    (density spread accentDensity slideDensity : float) (c : Display)
  : option Display :=
  if negb (forceDisplayRefresh c)
     && F32.eqb density (cachedDensity c)
     && F32.eqb spread (cachedSpread c)
     && F32.eqb accentDensity (cachedAccentDensity c)
     && F32.eqb slideDensity (cachedSlideDensity c)
  then Some c
  else
    newSteps ← refreshSteps (Z.to_nat MAX_STEPS) 0 m density spread
                 accentDensity slideDensity (displaySteps c);
    Some {| displaySteps := newSteps;
            cachedDensity := density;
            cachedSpread := spread;
            cachedAccentDensity := accentDensity;
            cachedSlideDensity := slideDensity;
            forceDisplayRefresh := false |}.

(** [cachedDensity = -1.f], as [generateNewPattern] and [dataFromJson]
    do after they change the pattern. *)
Definition invalidateDisplay (c : Display) : Display :=
  {| displaySteps := displaySteps c;
     cachedDensity := F32.of_Z (-1);
     cachedSpread := cachedSpread c;
     cachedAccentDensity := cachedAccentDensity c;
     cachedSlideDensity := cachedSlideDensity c;
     forceDisplayRefresh := forceDisplayRefresh c |}.

(** The display holds what [getStep] gives for the pattern [m] and the
    cached parameters. *)
Definition display_shows (m : MasterPattern) (c : Display) : Prop :=
  forall i, 0 <= i < MAX_STEPS ->
    exists st,
      aget (displaySteps c) i = Some st
      /\ getStep m i (cachedDensity c) (cachedSpread c)
           (cachedAccentDensity c) (cachedSlideDensity c) true = Some st.

(** The display as the constructor leaves it. *)
Definition Display_init : Display :=
  {| displaySteps := repeat rest_step (Z.to_nat MAX_STEPS);
     cachedDensity := F32.of_Z (-1);
     cachedSpread := F32.of_Z (-1);
     cachedAccentDensity := F32.of_Z (-1);
     cachedSlideDensity := F32.of_Z (-1);
     forceDisplayRefresh := false |}.

(** Parameters of the legacy generator for the examples. *)
Definition demo_params (seed d sp : Z) : GeneratorParams :=
  mkGeneratorParams 16 (F32.of_Z d) (F32.of_Z sp) (F32.of_Z 25)
    (F32.of_Z 25) seed.

(** ** The panel (the larger variant of AcidSeq.cpp)

    [InfoDisplay::NOTE_NAMES] *)
Definition NOTE_NAMES : list string :=
  ["C"; "C#"; "D"; "D#"; "E"; "F"; "F#"; "G"; "G#"; "A"; "A#"; "B"]%string.

(** "Get current playing note" of [InfoDisplay::draw]: the name and the
    octave number that are printed, [Some None] when the text stays "---". *)
Definition currentNoteName (displaySteps : list SequenceStep) (scale : Scale)
    (rootNote currentStep patternLength : Z) : option (option (string * Z)) :=
  if (0 <=? currentStep) && (currentStep <? patternLength) then
    step ← aget displaySteps currentStep;
    if negb (isRest step) then
      let octaveNumber := octave step + 4 in
      midiNote ← getNoteInScale (note step) scale rootNote (octave step);
      noteName ← aget NOTE_NAMES (Z.rem midiNote 12);
      Some (Some (noteName, octaveNumber))
    else Some None
  else Some None.

(** "Handle Octave Buttons" of [process]: the new value of the octave
    parameter. *)
Definition octaveButtons (upPressed downPressed : bool) (currentOctave : float)
  : float :=
  let currentOctave :=
    if upPressed && F32.ltb currentOctave f_2
    then F32.add currentOctave (F32.of_Z 1) else currentOctave in
  if downPressed && F32.gtb currentOctave (F32.of_Z (-2))
  then F32.sub currentOctave (F32.of_Z 1) else currentOctave.

(** [int octaveIndex = octaveOffset + 2], with
    [octaveOffset = static_cast<int>(params[PARAM_OCTAVE].getValue())]. *)
Definition octaveIndex (octaveParam : float) : option Z :=
  octaveOffset ← F32.to_int octaveParam;
  Some (octaveOffset + 2).

(* ===================================================================== *)
(** * Properties *)
(* ===================================================================== *)

(** ** Facts on binary32 rounding *)

Module F32Facts.
Import F32.

Lemma rhe_bounds p q : 0 < q -> p / q <= rhe p q <= p / q + 1.
Proof.
  intros Hq. unfold rhe.
  destruct (2 * (p mod q) ?= q); [destruct (Z.even (p / q))|..]; lia.
Qed.

Lemma rhe_exact m q : 0 < q -> rhe (m * q) q = m.
Proof.
  intros Hq. unfold rhe. cbv zeta.
  rewrite Z.div_mul by lia. rewrite Z.mod_mul by lia.
  destruct (Z.compare_spec (2 * 0) q); [lia|reflexivity|lia].
Qed.

Lemma rhe_mono p1 p2 q : 0 < q -> p1 <= p2 -> rhe p1 q <= rhe p2 q.
Proof.
  intros Hq Hp.
  assert (Hd : p1 / q <= p2 / q) by (apply Z.div_le_mono; lia).
  destruct (Z.eq_dec (p1 / q) (p2 / q)) as [He|Hne].
  - assert (Hr : p1 mod q <= p2 mod q).
    { rewrite (Z.mod_eq p1 q), (Z.mod_eq p2 q) by lia. rewrite He. lia. }
    unfold rhe. rewrite He.
    destruct (Z.compare_spec (2 * (p1 mod q)) q);
      destruct (Z.compare_spec (2 * (p2 mod q)) q);
      destruct (Z.even (p2 / q)); lia.
  - pose proof (rhe_bounds p1 q Hq). pose proof (rhe_bounds p2 q Hq). lia.
Qed.

Lemma ulp_exp_nonneg x : 0 <= ulp_exp x.
Proof.
  unfold ulp_exp. destruct (Z.ltb_spec x (2 ^ 24)); [lia|].
  assert (Z.log2 (2 ^ 24) <= Z.log2 x) by (apply Z.log2_le_mono; lia).
  rewrite Z.log2_pow2 in H0 by lia. lia.
Qed.

Lemma ulp_exp_mono x y : x <= y -> ulp_exp x <= ulp_exp y.
Proof.
  intros Hxy. unfold ulp_exp.
  destruct (Z.ltb_spec x (2 ^ 24)); destruct (Z.ltb_spec y (2 ^ 24)); try lia.
  - assert (Z.log2 (2 ^ 24) <= Z.log2 y) by (apply Z.log2_le_mono; lia).
    rewrite Z.log2_pow2 in H1 by lia. lia.
  - pose proof (Z.log2_le_mono x y Hxy). lia.
Qed.

(** A magnitude lies below the end of its binade. *)
Lemma ulp_exp_upper x : 0 <= x -> x < 2 ^ (24 + ulp_exp x).
Proof.
  intros Hx. unfold ulp_exp.
  destruct (Z.ltb_spec x (2 ^ 24)); [rewrite Z.add_0_r; lia|].
  replace (24 + (Z.log2 x - 23)) with (Z.succ (Z.log2 x)) by lia.
  apply Z.log2_spec. lia.
Qed.

(** Above the first binades, it lies above the start of its binade. *)
Lemma ulp_exp_lower x : 0 < ulp_exp x -> 2 ^ (23 + ulp_exp x) <= x.
Proof.
  unfold ulp_exp.
  destruct (Z.ltb_spec x (2 ^ 24)); [lia|]. intros _.
  replace (23 + (Z.log2 x - 23)) with (Z.log2 x) by lia.
  apply Z.log2_spec. lia.
Qed.

Lemma RN_nonneg_eq a den :
  0 < den -> 0 <= a ->
  RN a den = rhe a (den * 2 ^ ulp_exp (a / den)) * 2 ^ ulp_exp (a / den).
Proof.
  intros Hden Ha. unfold RN. rewrite Z.abs_eq by lia.
  destruct (Z.eq_dec a 0) as [->|Hne].
  - assert (Hq : 0 < den * 2 ^ ulp_exp (0 / den)).
    { pose proof (ulp_exp_nonneg (0 / den)).
      apply Z.mul_pos_pos; [lia | apply Z.pow_pos_nonneg; lia]. }
    pose proof (rhe_exact 0 _ Hq) as H. rewrite Z.mul_0_l in H.
    rewrite H. reflexivity.
  - rewrite Z.sgn_pos by lia. lia.
Qed.

Lemma RN_opp n den : RN (- n) den = - RN n den.
Proof. unfold RN. rewrite Z.abs_opp, Z.sgn_opp. lia. Qed.

Lemma RN_0 den : RN 0 den = 0.
Proof. reflexivity. Qed.

Lemma RN_mono_nonneg a1 a2 den :
  0 < den -> 0 <= a1 <= a2 -> RN a1 den <= RN a2 den.
Proof.
  intros Hden [H1 H12].
  rewrite !RN_nonneg_eq by lia.
  set (k1 := ulp_exp (a1 / den)). set (k2 := ulp_exp (a2 / den)).
  assert (Hq1 : 0 <= a1 / den) by (apply Z.div_pos; lia).
  assert (Hq12 : a1 / den <= a2 / den) by (apply Z.div_le_mono; lia).
  assert (Hk1 : 0 <= k1) by apply ulp_exp_nonneg.
  assert (Hk12 : k1 <= k2) by (apply ulp_exp_mono; assumption).
  assert (Hp1 : 0 < 2 ^ k1) by (apply Z.pow_pos_nonneg; lia).
  assert (Hp2 : 0 < 2 ^ k2) by (apply Z.pow_pos_nonneg; lia).
  destruct (Z.eq_dec k1 k2) as [He|Hne].
  - rewrite <- He. apply Z.mul_le_mono_nonneg_r; [lia|].
    apply rhe_mono; nia.
  - (* a1 rounds to at most the end of its binade, a2 to at least the
       start of its own, which is higher *)
    assert (Hup : rhe a1 (den * 2 ^ k1) <= 2 ^ 24).
    { rewrite <- (rhe_exact (2 ^ 24) (den * 2 ^ k1)) by nia.
      apply rhe_mono; [nia|].
      pose proof (ulp_exp_upper (a1 / den) Hq1) as Hu. fold k1 in Hu.
      rewrite Z.pow_add_r in Hu by lia.
      pose proof (Z.mul_div_le a1 den Hden).
      pose proof (Z.mod_pos_bound a1 den Hden).
      pose proof (Z.div_mod a1 den ltac:(lia)).
      nia. }
    assert (Hlo : 2 ^ 23 <= rhe a2 (den * 2 ^ k2)).
    { rewrite <- (rhe_exact (2 ^ 23) (den * 2 ^ k2)) by nia.
      apply rhe_mono; [nia|].
      pose proof (ulp_exp_lower (a2 / den) ltac:(fold k2; lia)) as Hl.
      fold k2 in Hl. rewrite Z.pow_add_r in Hl by lia.
      pose proof (Z.mul_div_le a2 den Hden).
      nia. }
    assert (Hk : 2 ^ (k1 + 1) <= 2 ^ k2) by (apply Z.pow_le_mono_r; lia).
    rewrite Z.pow_add_r in Hk by lia.
    change (2 ^ 24) with (2 * 2 ^ 23) in Hup.
    assert (0 < 2 ^ 23) by reflexivity.
    nia.
Qed.

Lemma RN_nonneg a den : 0 < den -> 0 <= a -> 0 <= RN a den.
Proof.
  intros Hden Ha. rewrite <- (RN_0 den). apply RN_mono_nonneg; lia.
Qed.

Lemma RN_mono n1 n2 den : 0 < den -> n1 <= n2 -> RN n1 den <= RN n2 den.
Proof.
  intros Hden H12.
  destruct (Z.le_gt_cases 0 n1) as [H1|H1].
  - apply RN_mono_nonneg; lia.
  - destruct (Z.le_gt_cases 0 n2) as [H2|H2].
    + pose proof (RN_nonneg n2 den Hden H2).
      pose proof (RN_nonneg (- n1) den Hden ltac:(lia)) as Hn.
      rewrite RN_opp in Hn. lia.
    + pose proof (RN_mono_nonneg (- n2) (- n1) den Hden ltac:(lia)) as Hn.
      rewrite !RN_opp in Hn. lia.
Qed.

(** [pack] keeps a number of finite magnitude. *)
Lemma pack_Fin n m : pack n = Fin m <-> n = m /\ Z.abs n < huge.
Proof.
  unfold pack. destruct (Z.leb_spec huge (Z.abs n)); split.
  - discriminate.
  - lia.
  - intros [= ->]. lia.
  - intros [-> _]. reflexivity.
Qed.

(** Rounding is monotone: a ratio between two ratios that round to finite
    numbers rounds to a finite number between them. *)
Lemma round_ratio_between den n1 n2 n3 m1 m3 :
  0 < den -> n1 <= n2 <= n3 ->
  round_ratio n1 den = Fin m1 -> round_ratio n3 den = Fin m3 ->
  exists m2, round_ratio n2 den = Fin m2 /\ m1 <= m2 <= m3.
Proof.
  unfold round_ratio. intros Hden [H12 H23] H1 H3.
  apply pack_Fin in H1 as [<- Hb1]. apply pack_Fin in H3 as [<- Hb3].
  pose proof (RN_mono n1 n2 den Hden H12).
  pose proof (RN_mono n2 n3 den Hden H23).
  exists (RN n2 den). split; [|lia].
  apply pack_Fin. split; [reflexivity|lia].
Qed.

End F32Facts.

Import F32 F32Facts.

Ltac fnum :=
  let v := eval vm_compute in one in change one with v in *.

Lemma next_bits_range r : 0 <= fst (next_bits r) < 2 ^ 32.
Proof. unfold next_bits, u32. simpl fst. apply Z.mod_pos_bound. reflexivity. Qed.

Lemma of_Z_u32 t :
  0 <= t < 2 ^ 32 -> exists n, of_Z t = Fin n /\ 0 <= n <= 2 ^ 32 * one.
Proof.
  intros Ht. unfold of_Z.
  destruct (round_ratio_between 1 (0 * one) (t * one) (2 ^ 32 * one) 0 (2 ^ 32 * one))
    as (n & Hn & Hb); [lia | fnum; lia | reflexivity | vm_compute; reflexivity |].
  eauto.
Qed.

Lemma next_range r : exists n, fst (next r) = Fin n /\ 0 <= n <= one.
Proof.
  unfold next. destruct (next_bits r) as [t r'] eqn:E. simpl fst.
  pose proof (next_bits_range r) as Ht. rewrite E in Ht. simpl in Ht.
  destruct (of_Z_u32 t Ht) as (x & -> & Hx).
  replace f_2p32 with (Fin (2 ^ 32 * one)) by (vm_compute; reflexivity).
  unfold div.
  replace (2 ^ 32 * one =? 0) with false by (vm_compute; reflexivity).
  replace (Z.sgn (2 ^ 32 * one)) with 1 by (vm_compute; reflexivity).
  replace (Z.abs (2 ^ 32 * one)) with (2 ^ 32 * one) by (vm_compute; reflexivity).
  destruct (round_ratio_between (2 ^ 32 * one) (0 * one) (1 * x * one)
              (2 ^ 32 * one * one) 0 one)
    as (n & Hn & Hb); [reflexivity | fnum; nia | reflexivity | vm_compute; reflexivity |].
  eauto.
Qed.

Arguments next : simpl never.
Arguments randomInt : simpl never.
Arguments F32.of_Z : simpl never.
Arguments F32.div : simpl never.
Arguments F32.mul : simpl never.
Arguments F32.add : simpl never.

Lemma one_pos : 0 < one.
Proof. reflexivity. Qed.

Lemma to_int_floor y w :
  0 <= y <= w * one -> w < 2 ^ 31 ->
  exists k, to_int (floor (Fin y)) = Some k /\ 0 <= k <= w /\ k = y / one.
Proof.
  intros Hy Hw. pose proof one_pos as H1.
  unfold floor, to_int.
  assert (Hq : 0 <= y / one <= w).
  { split; [apply Z.div_pos; lia|].
    apply Z.div_le_upper_bound; lia. }
  rewrite Z.quot_div_nonneg by nia.
  rewrite Z.div_mul by lia.
  replace (- 2 ^ 31 <=? y / one) with true by (symmetry; apply Z.leb_le; lia).
  replace (y / one <? 2 ^ 31) with true by (symmetry; apply Z.ltb_lt; lia).
  simpl. eauto.
Qed.

Lemma randomInt_range lo hi w r :
  of_Z (hi - lo + 1) = Fin (w * one) ->
  round_ratio (one * (w * one)) one = Fin (w * one) ->
  0 <= w < 2 ^ 31 -> w = hi - lo + 1 ->
  exists k r', randomInt lo hi r = Some (k, r') /\ lo <= k <= hi + 1.
Proof.
  intros Hof Htop Hw Hweq. unfold randomInt.
  destruct (next r) as [x r'] eqn:E.
  pose proof (next_range r) as (n & Hx & Hn). rewrite E in Hx. simpl in Hx. subst x.
  rewrite Hof. unfold mul.
  pose proof one_pos as H1.
  destruct (round_ratio_between one (0 * (w * one)) (n * (w * one))
              (one * (w * one)) 0 (w * one))
    as (y & Hy & Hb); [lia | nia | reflexivity | assumption |].
  rewrite Hy.
  destruct (to_int_floor y w Hb ltac:(lia)) as (k & Hk & Hkb & _).
  rewrite Hk. simpl. exists (k + lo), r'. split; [reflexivity|lia].
Qed.

Lemma randomInt_pool r :
  exists k r', randomInt 0 (SCALE_SIZE - 1) r = Some (k, r') /\ 0 <= k <= 7.
Proof.
  destruct (randomInt_range 0 (SCALE_SIZE - 1) 7 r) as (k & r' & H & Hb);
    [vm_compute; reflexivity | vm_compute; reflexivity | lia | reflexivity |].
  exists k, r'. split; [assumption|]. unfold SCALE_SIZE in Hb. lia.
Qed.

Lemma randomInt_octave r :
  exists k r', randomInt (-1) 1 r = Some (k, r') /\ -1 <= k <= 2.
Proof.
  destruct (randomInt_range (-1) 1 3 r) as (k & r' & H & Hb);
    [vm_compute; reflexivity | vm_compute; reflexivity | lia | reflexivity |].
  eauto.
Qed.

Lemma genSteps_S n i rng :
  genSteps (S n) i rng =
    '(notePoolIndex, rng) ←
      (if Z.rem i 4 =? 0 then
         let '(x, rng) := next rng in
         if gtb x f_0_3 then Some (0, rng)
         else randomInt 0 (SCALE_SIZE - 1) rng
       else randomInt 0 (SCALE_SIZE - 1) rng);
    '(oct, rng) ← randomInt (-1) 1 rng;
    let '(accentProb, rng) := next rng in
    let '(slideProb, rng) := next rng in
    rest ← genSteps n (i + 1) rng;
    Some (mkMasterStep notePoolIndex oct accentProb slideProb :: rest).
Proof. reflexivity. Qed.

Lemma genSteps_total n i r : exists l, genSteps n i r = Some l /\ length l = n.
Proof.
  revert i r. induction n as [|n IH]; intros i r; [exists []; auto|].
  rewrite genSteps_S.
  assert (Hpool : exists k r', (if Z.rem i 4 =? 0
             then let '(x, rng) := next r in
                  if gtb x f_0_3 then Some (0, rng)
                  else randomInt 0 (SCALE_SIZE - 1) rng
             else randomInt 0 (SCALE_SIZE - 1) r) = Some (k, r')).
  { destruct (Z.rem i 4 =? 0).
    - destruct (next r) as [x r1]. destruct (gtb x f_0_3); [eauto|].
      destruct (randomInt_pool r1) as (k & r' & H & _). eauto.
    - destruct (randomInt_pool r) as (k & r' & H & _). eauto. }
  destruct Hpool as (k & r1 & ->). cbn.
  destruct (randomInt_octave r1) as (o & r2 & -> & _). cbn.
  destruct (next r2) as [ap r3]. destruct (next r3) as [sp r4].
  destruct (IH (i + 1) r4) as (l & -> & Hl). cbn.
  eexists. split; [reflexivity|]. cbn. lia.
Qed.

Section BubbleHead.
Context {A : Type} (weight : A -> float) (h : A).

Lemma dominated_lookup tl i y :
  dominated weight h tl -> tl !! i = Some y -> ltb (weight h) (weight y) = false.
Proof. intros Hd E. exact (Forall_lookup_1 _ _ _ _ Hd E). Qed.

Lemma bubbleSwap_head tl j :
  dominated weight h tl ->
  exists tl', bubbleSwap weight (h :: tl) j = h :: tl' /\ dominated weight h tl'
              /\ length tl' = length tl.
Proof.
  intros Hd. unfold bubbleSwap. destruct j as [|j]; cbn.
  - destruct (tl !! 0%nat) as [y|] eqn:Ey; [|eauto].
    rewrite (dominated_lookup tl 0%nat y Hd Ey). eauto.
  - destruct (tl !! j) as [x|] eqn:Ex; [|eauto].
    destruct (tl !! S j) as [y|] eqn:Ey; [|eauto].
    destruct (ltb (weight x) (weight y)); [|eauto].
    exists (<[S j := x]> (<[j := y]> tl)). split; [reflexivity|]. split.
    + apply Forall_insert; [apply Forall_insert|]; [assumption| |].
      * exact (dominated_lookup tl _ y Hd Ey).
      * exact (dominated_lookup tl _ x Hd Ex).
    + rewrite !length_insert. reflexivity.
Qed.

Lemma bubbleInner_head count : forall j tl,
  dominated weight h tl ->
  exists tl', bubbleInner weight count j (h :: tl) = h :: tl'
              /\ dominated weight h tl' /\ length tl' = length tl.
Proof.
  induction count as [|count IH]; intros j tl Hd; cbn; [eauto|].
  destruct (bubbleSwap_head tl j Hd) as (tl1 & -> & Hd1 & Hl1).
  destruct (IH (S j) tl1 Hd1) as (tl2 & -> & Hd2 & Hl2).
  exists tl2. split; [reflexivity|]. split; [assumption|congruence].
Qed.

Lemma bubbleOuter_head size count : forall i tl,
  dominated weight h tl ->
  exists tl', bubbleOuter weight size count i (h :: tl) = h :: tl'
              /\ dominated weight h tl' /\ length tl' = length tl.
Proof.
  induction count as [|count IH]; intros i tl Hd; cbn; [eauto|].
  destruct (bubbleInner_head (size - i - 1) 0 tl Hd) as (tl1 & -> & Hd1 & Hl1).
  destruct (IH (S i) tl1 Hd1) as (tl2 & -> & Hd2 & Hl2).
  exists tl2. split; [reflexivity|]. split; [assumption|congruence].
Qed.

Lemma bubbleSort_head size tl :
  dominated weight h tl ->
  exists tl', bubbleSort weight size (h :: tl) = h :: tl'.
Proof.
  intros Hd. unfold bubbleSort.
  destruct (bubbleOuter_head size (size - 1) 0 tl Hd) as (tl' & -> & _).
  eauto.
Qed.
End BubbleHead.

(** From the second degree on, a weight is a draw or a draw plus 0.5: at
    most 1.5. *)
Lemma weighScale_tail n : forall i rng,
  1 <= i ->
  Forall (fun w => exists x, wn_weight w = Fin x /\ 0 <= x <= 2 * one)
         (fst (weighScale n i rng)).
Proof.
  induction n as [|n IH]; intros i rng Hi; cbn; [constructor|].
  pose proof (next_range rng) as (x & Hx & Hb).
  destruct (next rng) as [w r1]. cbn in Hx. subst w.
  specialize (IH (i + 1) r1 ltac:(lia)).
  destruct (weighScale n (i + 1) r1) as [rest r2]. cbn in *.
  constructor; [|assumption]. cbn.
  replace (i =? 0) with false by (symmetry; apply Z.eqb_neq; lia).
  destruct (i =? 4).
  - replace f_0_5 with (Fin (2 ^ 148)) by (vm_compute; reflexivity).
    unfold add.
    destruct (round_ratio_between 1 (0 + 2 ^ 148) (x + 2 ^ 148) (one + 2 ^ 148)
                (2 ^ 148) (one + 2 ^ 148))
      as (y & Hy & Hyb);
      [lia | lia | vm_compute; reflexivity | vm_compute; reflexivity |].
    exists y. split; [assumption|]. unfold one in *. lia.
  - exists x. split; [reflexivity|]. pose proof one_pos. lia.
Qed.

(** The root's weight is a draw plus 999. *)
Lemma weighScale_root n rng :
  exists w0 rest rng',
    weighScale (S n) 0 rng = (mkWeightedNote 0 (Fin w0) :: rest, rng')
    /\ 999 * one <= w0
    /\ Forall (fun w => exists x, wn_weight w = Fin x /\ 0 <= x <= 2 * one) rest.
Proof.
  cbn.
  pose proof (next_range rng) as (x & Hx & Hb).
  destruct (next rng) as [w r1]. cbn in Hx. subst w.
  pose proof (weighScale_tail n (0 + 1) r1 ltac:(lia)) as Ht.
  destruct (weighScale n (0 + 1) r1) as [rest r2]. cbn in Ht.
  replace f_999 with (Fin (999 * one)) by (vm_compute; reflexivity).
  unfold add.
  destruct (round_ratio_between 1 (0 + 999 * one) (x + 999 * one) (one + 999 * one)
              (999 * one) (1000 * one))
    as (y & Hy & Hyb);
    [lia | lia | vm_compute; reflexivity | vm_compute; reflexivity |].
  rewrite Hy. exists y, rest, r2. split; [reflexivity|]. split; [lia|assumption].
Qed.

(** X3: for every seed the root degree ranks first,
    [scalePriorityOrder[0] == 0]: its weight is at least 999, no other
    weight exceeds 1.5, and the bubble sort never moves an element that
    nothing outweighs away from index 0. *)
Theorem root_first seed output :
  0 <= seed < 2 ^ 32 ->
  exists m, generateMaster seed output = Some m
            /\ aget (scalePriorityOrder m) 0 = Some 0.
Proof.
  intros _. unfold generateMaster.
  change (Z.to_nat SCALE_SIZE) with 7%nat.
  destruct (weighScale_root 6 (SFC32_seed seed)) as (w0 & rest & r1 & -> & Hw0 & Hrest).
  destruct (bubbleSort_head wn_weight (mkWeightedNote 0 (Fin w0)) 7 rest)
    as (tl' & ->).
  { unfold dominated. eapply Forall_impl; [exact Hrest|].
    intros w (x & -> & Hx). cbn. apply Z.ltb_ge. pose proof one_pos. lia. }
  destruct (weighBar (Z.to_nat BAR_LEN) 0 r1) as [bars r2].
  destruct (genSteps_total (Z.to_nat MAX_STEPS) 0 r2) as (l & -> & _).
  cbn. eexists. split; reflexivity.
Qed.

Lemma round_Fin y : round (Fin y) = Fin (roundZ y * one).
Proof. reflexivity. Qed.

Lemma roundZ_nonneg y : 0 <= y -> 0 <= roundZ y.
Proof.
  intros Hy. unfold roundZ.
  assert (0 <= (Z.abs y + one / 2) / one).
  { apply Z.div_pos; [|reflexivity].
    assert (0 <= one / 2) by (vm_compute; discriminate). lia. }
  destruct (Z.eq_dec y 0) as [->|]; [reflexivity|].
  rewrite Z.sgn_pos by lia. lia.
Qed.

Lemma roundZ_opp y : roundZ (- y) = - roundZ y.
Proof. unfold roundZ. rewrite Z.sgn_opp, Z.abs_opp. lia. Qed.

Lemma roundZ_mono y1 y2 : y1 <= y2 -> roundZ y1 <= roundZ y2.
Proof.
  assert (Hpos : forall a b, 0 <= a <= b -> roundZ a <= roundZ b).
  { intros a b [Ha Hab]. unfold roundZ.
    assert (Hh : 0 <= one / 2) by (vm_compute; discriminate).
    assert (Hd : (Z.abs a + one / 2) / one <= (Z.abs b + one / 2) / one)
      by (apply Z.div_le_mono; [reflexivity|lia]).
    assert (0 <= (Z.abs a + one / 2) / one)
      by (apply Z.div_pos; [lia|reflexivity]).
    assert (0 <= (Z.abs b + one / 2) / one)
      by (apply Z.div_pos; [lia|reflexivity]).
    destruct (Z.eq_dec a 0) as [->|]; [|rewrite (Z.sgn_pos a) by lia].
    - change (Z.sgn 0) with 0. rewrite Z.mul_0_l.
      destruct (Z.eq_dec b 0) as [->|]; [reflexivity|].
      rewrite Z.sgn_pos by lia. lia.
    - rewrite Z.sgn_pos by lia. lia. }
  intros H12.
  destruct (Z.le_gt_cases 0 y1).
  - apply Hpos; lia.
  - destruct (Z.le_gt_cases 0 y2).
    + pose proof (roundZ_nonneg y2 ltac:(lia)).
      pose proof (roundZ_nonneg (- y1) ltac:(lia)) as Hn.
      rewrite roundZ_opp in Hn. lia.
    + pose proof (Hpos (- y2) (- y1) ltac:(lia)) as Hn.
      rewrite !roundZ_opp in Hn. lia.
Qed.

Lemma to_int_Fin_mul r c :
  to_int (Fin (r * one)) = Some c <-> c = r /\ - 2 ^ 31 <= r < 2 ^ 31.
Proof.
  unfold to_int. rewrite Z.quot_mul by (vm_compute; discriminate).
  destruct (Z.leb_spec (- 2 ^ 31) r); destruct (Z.ltb_spec r (2 ^ 31)); cbn;
    split; try discriminate; try lia.
  - intros [= <-]. lia.
  - intros [-> _]. reflexivity.
Qed.

Lemma round_ratio_cases num den :
  (exists m, round_ratio num den = Fin m) \/ (exists s, round_ratio num den = Inf s).
Proof.
  unfold round_ratio, pack. destruct (huge <=? Z.abs (RN num den)); eauto.
Qed.

Section PercentCount.
Variable K : Z.
Hypothesis K_pos : 0 < K < 2 ^ 20.
Hypothesis K_float : of_Z K = Fin (K * one).
Hypothesis K_mul : round_ratio (K * one * (100 * one)) one = Fin (100 * K * one).
Hypothesis K_div : round_ratio (1 * (100 * K * one) * one) (100 * one) = Fin (K * one).
Hypothesis K_round : roundZ (K * one) = K.

Lemma percentCount_mono n1 n2 c1 :
  percentCount K (Fin n1) = Some c1 -> n1 <= n2 <= 100 * one ->
  exists c2, percentCount K (Fin n2) = Some c2 /\ c1 <= c2 <= K.
Proof.
  unfold percentCount. rewrite K_float.
  replace f_100 with (Fin (100 * one)) by (vm_compute; reflexivity).
  intros H1 Hn. unfold mul in *.
  pose proof one_pos as Hone.
  destruct (round_ratio_cases (K * one * n1) one) as [[x1 Hx1]|[s Hs]];
    [|rewrite Hs in H1; discriminate].
  destruct (round_ratio_between one (K * one * n1) (K * one * n2)
              (K * one * (100 * one)) x1 (100 * K * one))
    as (x2 & Hx2 & Hxb); [lia | | assumption | exact K_mul |].
  { assert (0 <= K * one) by nia.
    split; apply Z.mul_le_mono_nonneg_l; lia. }
  rewrite Hx1 in H1. rewrite Hx2. unfold div in *.
  replace (100 * one =? 0) with false in * by (vm_compute; reflexivity).
  replace (Z.sgn (100 * one)) with 1 in * by (vm_compute; reflexivity).
  replace (Z.abs (100 * one)) with (100 * one) in * by (vm_compute; reflexivity).
  destruct (round_ratio_cases (1 * x1 * one) (100 * one)) as [[y1 Hy1]|[s Hs]];
    [|rewrite Hs in H1; discriminate].
  destruct (round_ratio_between (100 * one) (1 * x1 * one) (1 * x2 * one)
              (1 * (100 * K * one) * one) y1 (K * one))
    as (y2 & Hy2 & Hyb); [lia | | assumption | exact K_div |].
  { split; apply Z.mul_le_mono_nonneg_r; lia. }
  rewrite Hy1 in H1. rewrite Hy2. rewrite round_Fin in *.
  apply to_int_Fin_mul in H1 as [-> Hr1].
  pose proof (roundZ_mono y1 y2 ltac:(lia)).
  pose proof (roundZ_mono y2 (K * one) ltac:(lia)) as Hr2.
  rewrite K_round in Hr2.
  exists (roundZ y2). split; [|lia].
  apply to_int_Fin_mul. split; [reflexivity|lia].
Qed.

Hypothesis K_zero : percentCount K (Fin 0) = Some 0.

Lemma percentCount_range n :
  0 <= n <= 100 * one ->
  exists c, percentCount K (Fin n) = Some c /\ 0 <= c <= K.
Proof.
  intros Hn. destruct (percentCount_mono 0 n 0 K_zero ltac:(lia)) as (c & Hc & Hb).
  eauto.
Qed.
End PercentCount.

Lemma activeCountOf_eq d :
  activeCountOf d = (n ← percentCount BAR_LEN d; Some (Z.max 0 n)).
Proof. reflexivity. Qed.

Lemma spreadCountOf_eq d :
  spreadCountOf d = (n ← percentCount SCALE_SIZE d; Some (Z.max 1 n)).
Proof. reflexivity. Qed.

Lemma activeCountOf_mono n1 n2 c1 :
  activeCountOf (Fin n1) = Some c1 -> n1 <= n2 <= 100 * one ->
  exists c2, activeCountOf (Fin n2) = Some c2 /\ c1 <= c2 <= 16.
Proof.
  rewrite !activeCountOf_eq. intros H1 Hn.
  destruct (percentCount BAR_LEN (Fin n1)) as [r1|] eqn:E1; [|discriminate].
  cbn in H1. injection H1 as <-.
  destruct (percentCount_mono BAR_LEN ltac:(unfold BAR_LEN; lia)
              ltac:(vm_compute; reflexivity) ltac:(vm_compute; reflexivity)
              ltac:(vm_compute; reflexivity) ltac:(vm_compute; reflexivity)
              n1 n2 r1 E1 Hn) as (r2 & -> & Hb).
  cbn. eexists. split; [reflexivity|]. unfold BAR_LEN in Hb. lia.
Qed.

Lemma activeCountOf_range n :
  0 <= n <= 100 * one ->
  exists c, activeCountOf (Fin n) = Some c /\ 0 <= c <= 16.
Proof.
  intros Hn. apply (activeCountOf_mono 0 n 0); [vm_compute; reflexivity|lia].
Qed.

Lemma spreadCountOf_range n :
  0 <= n <= 100 * one ->
  exists c, spreadCountOf (Fin n) = Some c /\ 1 <= c <= 7.
Proof.
  intros Hn. rewrite spreadCountOf_eq.
  destruct (percentCount_range SCALE_SIZE ltac:(unfold SCALE_SIZE; lia)
              ltac:(vm_compute; reflexivity) ltac:(vm_compute; reflexivity)
              ltac:(vm_compute; reflexivity) ltac:(vm_compute; reflexivity)
              ltac:(vm_compute; reflexivity) n Hn) as (r & -> & Hb).
  cbn. eexists. split; [reflexivity|]. unfold SCALE_SIZE in Hb. lia.
Qed.

Lemma activeScan_mono order barPos c1 c2 fuel : forall i,
  c1 <= c2 ->
  activeScan order barPos c1 fuel i = Some true ->
  activeScan order barPos c2 fuel i = Some true.
Proof.
  induction fuel as [|fuel IH]; intros i Hc; cbn; [discriminate|].
  destruct (Z.ltb_spec i c1); cbn; [|discriminate].
  replace (i <? c2) with true by (symmetry; apply Z.ltb_lt; lia). cbn.
  destruct (i <? BAR_LEN); [|discriminate].
  destruct (aget order i) as [x|]; cbn; [|discriminate].
  destruct (x =? barPos); [reflexivity|]. apply IH. assumption.
Qed.

Lemma f_100_eq : f_100 = Fin (100 * one).
Proof. vm_compute. reflexivity. Qed.

Lemma activeCountOf_Inf s : activeCountOf (Inf s) = None.
Proof. destruct s; vm_compute; reflexivity. Qed.

Lemma activeCountOf_NaN : activeCountOf NaN = None.
Proof. vm_compute. reflexivity. Qed.

(** X4: a step that is active at a density stays active at every
    higher density up to 100: the active set only grows. *)
Theorem density_monotone m step d1 d2 :
  isStepActive m step d1 = Some true ->
  leb d1 d2 = true -> leb d2 f_100 = true ->
  isStepActive m step d2 = Some true.
Proof.
  unfold isStepActive. intros H1 H12 H2. rewrite f_100_eq in H2.
  destruct d1 as [n1|s1|];
    [| rewrite activeCountOf_Inf in H1; cbn in H1; discriminate
     | rewrite activeCountOf_NaN in H1; cbn in H1; discriminate ].
  destruct d2 as [n2|s2|];
    [| destruct s2; cbn in H12, H2; discriminate | cbn in H12; discriminate ].
  cbn in H12, H2. apply Z.leb_le in H12, H2.
  destruct (activeCountOf (Fin n1)) as [c1|] eqn:E1; [|cbn in H1; discriminate].
  destruct (activeCountOf_mono n1 n2 c1 E1 ltac:(lia)) as (c2 & -> & Hc).
  cbn in *. eapply activeScan_mono; [|exact H1]. lia.
Qed.

(** ** The PRNG and the generated steps *)

(** C1 (the code departs from the contract): from the seed 0x55555554 the
    first draw converts t = 2^32 - 3, which rounds to 2^32 in single
    precision, so [next()] returns exactly 1.0, outside [0,1), and
    [randomInt(0, 6)] returns 7, outside [0, 6]. *)
Theorem next_can_return_one :
  fst (next_bits (SFC32_seed 1431655764)) = 2 ^ 32 - 3
  /\ fst (next (SFC32_seed 1431655764)) = F32.Fin F32.one
  /\ fst <$> randomInt 0 6 (SFC32_seed 1431655764) = Some 7.
Proof. vm_compute. repeat split; reflexivity. Qed.

(** C2 (the code departs from the contract): a draw that rounds to 1.0
    yields a step descriptor outside the documented ranges:
    [notePoolIndex = 7] (seed 1576659, step 9), [octave = 2] (seed 225197,
    step 8), [accentProb = 1.0] (seed 24711, step 59) and
    [slideProb = 1.0] (seed 195868, step 2). *)
Theorem generateMaster_step_out_of_range :
  (m ← generateMaster 1576659 MasterPattern_init;
   notePoolIndex <$> steps m !! 9%nat) = Some 7
  /\ (m ← generateMaster 225197 MasterPattern_init;
      ms_octave <$> steps m !! 8%nat) = Some 2
  /\ (m ← generateMaster 24711 MasterPattern_init;
      accentProb <$> steps m !! 59%nat) = Some (F32.Fin F32.one)
  /\ (m ← generateMaster 195868 MasterPattern_init;
      slideProb <$> steps m !! 2%nat) = Some (F32.Fin F32.one).
Proof. vm_compute. repeat split; reflexivity. Qed.

(** ** The master pattern query *)

(** C3: a muted step resolves to a rest, whatever the density, spread,
    accent density and slide density are. *)
Theorem mute_precedence m step density spread accentsDensity slidesDensity q :
  aget (muted m) step = Some true ->
  getStep m step density spread accentsDensity slidesDensity q
  = Some (mkStep (-1) 0 false false).
Proof. intros H. unfold getStep. rewrite H. reflexivity. Qed.

Lemma mute_precedence_witness :
  getStep (mkMasterPattern (barActivationOrder MasterPattern_init)
             (scalePriorityOrder MasterPattern_init)
             (steps MasterPattern_init)
             (<[3%nat := true]> (muted MasterPattern_init)))
          3 (F32.of_Z 100) (F32.of_Z 100) (F32.of_Z 50) (F32.of_Z 50) true
  = Some (mkStep (-1) 0 false false).
Proof. apply mute_precedence. vm_compute. reflexivity. Defined.

(** ** getNoteInScale *)

Lemma SCALES_named scale :
  scale <> NUM_SCALES ->
  exists sd, aget SCALES (scale_index scale) = Some sd
             /\ (scale_length sd = 5 \/ scale_length sd = 6
                 \/ scale_length sd = 7 \/ scale_length sd = 12)
             /\ forall i, 0 <= i < scale_length sd ->
                  exists iv, aget (intervals sd) i = Some iv /\ 0 <= iv <= 11.
Proof.
  intros Hs.
  assert (Hcase : forall len l,
    Forall (fun iv => 0 <= iv <= 11) (take (Z.to_nat len) l) ->
    (Z.to_nat len <= length l)%nat -> 0 <= len ->
    forall i, 0 <= i < len -> exists iv, aget l i = Some iv /\ 0 <= iv <= 11).
  { intros len l Hall Hlen Hlen0 i Hi. unfold aget.
    replace (i <? 0) with false by (symmetry; apply Z.ltb_ge; lia).
    destruct (lookup_lt_is_Some_2 l (Z.to_nat i) ltac:(lia)) as [iv Hiv].
    exists iv. split; [assumption|].
    eapply (Forall_lookup_1 _ _ (Z.to_nat i) iv Hall).
    rewrite lookup_take_lt by lia. assumption. }
  destruct scale; try congruence;
    (eexists; split; [reflexivity|]; split; [cbn; lia|];
     apply Hcase; [repeat constructor; lia | cbn; lia | cbn; lia]).
Qed.



(** On a five-note scale the degrees 5 and 6 are the first two degrees one
    octave up. *)
Example getNoteInScale_pentatonic_wrap :
  getNoteInScale 5 PENTATONIC_MINOR 0 0 = Some 12
  /\ getNoteInScale 6 PENTATONIC_MINOR 0 0 = Some 15
  /\ getNoteInScale 4 PENTATONIC_MINOR 0 0 = Some 10.
Proof. vm_compute. repeat split; reflexivity. Qed.

Arguments aget : simpl never.

(** ** The generated pattern *)

Lemma genSteps_range n : forall i r,
  exists l, genSteps n i r = Some l /\ length l = n /\ Forall generated_step l.
Proof.
  induction n as [|n IH]; intros i r; [exists []; auto|].
  rewrite genSteps_S.
  assert (Hpool : exists k r', (if Z.rem i 4 =? 0
             then let '(x, rng) := next r in
                  if gtb x f_0_3 then Some (0, rng)
                  else randomInt 0 (SCALE_SIZE - 1) rng
             else randomInt 0 (SCALE_SIZE - 1) r) = Some (k, r')
             /\ 0 <= k <= 7).
  { destruct (Z.rem i 4 =? 0).
    - destruct (next r) as [x r1]. destruct (gtb x f_0_3).
      + exists 0, r1. split; [reflexivity|lia].
      + destruct (randomInt_pool r1) as (k & r' & H & Hk). eauto.
    - destruct (randomInt_pool r) as (k & r' & H & Hk). eauto. }
  destruct Hpool as (k & r1 & -> & Hk). cbn.
  destruct (randomInt_octave r1) as (o & r2 & -> & Ho). cbn.
  pose proof (next_range r2) as (a & Ha & Hab).
  destruct (next r2) as [ap r3]. cbn in Ha. subst ap.
  pose proof (next_range r3) as (b & Hb & Hbb).
  destruct (next r3) as [sp r4]. cbn in Hb. subst sp.
  destruct (IH (i + 1) r4) as (l & -> & Hl & Hall). cbn.
  eexists. split; [reflexivity|]. split; [cbn; lia|].
  constructor; [|assumption]. repeat split; cbn; try lia; eauto.
Qed.

(** A compare-and-swap permutes the array. *)
Lemma swap_Permutation {A : Type} (a : list A) : forall j x y,
  a !! j = Some x -> a !! S j = Some y ->
  <[S j := x]> (<[j := y]> a) ≡ₚ a.
Proof.
  induction a as [|h t IH]; intros j x y Hx Hy; [discriminate Hx|].
  destruct j as [|j].
  - destruct t as [|h' t']; [discriminate Hy|].
    cbn in Hx, Hy. injection Hx as ->. injection Hy as ->. cbn.
    apply perm_swap.
  - cbn in Hx, Hy. cbn. apply perm_skip. apply IH; assumption.
Qed.

Lemma bubbleSwap_Permutation {A : Type} (w : A -> float) (a : list A) j :
  bubbleSwap w a j ≡ₚ a.
Proof.
  unfold bubbleSwap.
  destruct (a !! j) as [x|] eqn:Ex; [|reflexivity].
  destruct (a !! S j) as [y|] eqn:Ey; [|reflexivity].
  destruct (ltb (w x) (w y)); [|reflexivity].
  apply swap_Permutation; assumption.
Qed.

Lemma bubbleInner_Permutation {A : Type} (w : A -> float) count :
  forall j (a : list A), bubbleInner w count j a ≡ₚ a.
Proof.
  induction count as [|count IH]; intros j a; cbn; [reflexivity|].
  rewrite IH. apply bubbleSwap_Permutation.
Qed.

Lemma bubbleOuter_Permutation {A : Type} (w : A -> float) size count :
  forall i (a : list A), bubbleOuter w size count i a ≡ₚ a.
Proof.
  induction count as [|count IH]; intros i a; cbn; [reflexivity|].
  rewrite IH. apply bubbleInner_Permutation.
Qed.

Lemma bubbleSort_Permutation {A : Type} (w : A -> float) size (a : list A) :
  bubbleSort w size a ≡ₚ a.
Proof. apply bubbleOuter_Permutation. Qed.

(** The weighting loops list the indices in order. *)
Lemma weighScale_indices n : forall i rng,
  map wn_index (fst (weighScale n i rng))
  = map (fun k => i + Z.of_nat k) (seq 0 n).
Proof.
  induction n as [|n IH]; intros i rng; [reflexivity|].
  cbn [weighScale]. destruct (next rng) as [w r1].
  specialize (IH (i + 1) r1). destruct (weighScale n (i + 1) r1) as [rest r2].
  cbn [fst] in *. cbn [map seq]. rewrite IH, Z.add_0_r. f_equal.
  rewrite <- seq_shift, map_map. apply map_ext. intros k. lia.
Qed.

Lemma weighBar_indices n : forall i rng,
  map ws_step (fst (weighBar n i rng))
  = map (fun k => i + Z.of_nat k) (seq 0 n).
Proof.
  induction n as [|n IH]; intros i rng; [reflexivity|].
  cbn [weighBar]. destruct (next rng) as [w r1].
  specialize (IH (i + 1) r1). destruct (weighBar n (i + 1) r1) as [rest r2].
  cbn [fst] in *. cbn [map seq]. rewrite IH, Z.add_0_r. f_equal.
  rewrite <- seq_shift, map_map. apply map_ext. intros k. lia.
Qed.

(** What [generateMaster] returns, phase by phase. *)
Lemma generateMaster_inv seed output :
  exists m,
    generateMaster seed output = Some m
    /\ scalePriorityOrder m ≡ₚ [0; 1; 2; 3; 4; 5; 6]
    /\ barActivationOrder m
       ≡ₚ [0; 1; 2; 3; 4; 5; 6; 7; 8; 9; 10; 11; 12; 13; 14; 15]
    /\ length (steps m) = 64%nat
    /\ Forall generated_step (steps m)
    /\ muted m = muted output.
Proof.
  unfold generateMaster.
  pose proof (weighScale_indices (Z.to_nat SCALE_SIZE) 0 (SFC32_seed seed)) as Hs.
  destruct (weighScale (Z.to_nat SCALE_SIZE) 0 (SFC32_seed seed)) as [ws r1].
  pose proof (weighBar_indices (Z.to_nat BAR_LEN) 0 r1) as Hb.
  destruct (weighBar (Z.to_nat BAR_LEN) 0 r1) as [wb r2].
  destruct (genSteps_range (Z.to_nat MAX_STEPS) 0 r2) as (l & -> & Hl & Hall).
  cbn [fst] in *. cbn [mbind option_bind].
  eexists. split; [reflexivity|]. cbn [scalePriorityOrder barActivationOrder steps muted].
  split; [|split; [|split; [|split]]].
  - eapply Permutation_trans;
      [apply Permutation_map, bubbleSort_Permutation|].
    unfold wn_index in Hs |- *. rewrite Hs. vm_compute. apply Permutation_refl.
  - eapply Permutation_trans;
      [apply Permutation_map, bubbleSort_Permutation|].
    unfold ws_step in Hb |- *. rewrite Hb. vm_compute. apply Permutation_refl.
  - exact Hl.
  - exact Hall.
  - reflexivity.
Qed.

Lemma aget_Some {A} (a : list A) i :
  0 <= i < Z.of_nat (length a) -> exists x, aget a i = Some x.
Proof.
  intros Hi. unfold aget.
  replace (i <? 0) with false by (symmetry; apply Z.ltb_ge; lia).
  destruct (lookup_lt_is_Some_2 a (Z.to_nat i) ltac:(lia)) as [x Hx]. eauto.
Qed.

Lemma aget_in_bounds {A} (a : list A) i x :
  aget a i = Some x -> 0 <= i < Z.of_nat (length a).
Proof.
  unfold aget. destruct (Z.ltb_spec i 0) as [Hneg|Hpos]; [discriminate|].
  intros Hl. apply lookup_lt_Some in Hl. lia.
Qed.

Lemma aget_Forall {A} (P : A -> Prop) (a : list A) i x :
  Forall P a -> aget a i = Some x -> P x.
Proof.
  unfold aget. destruct (i <? 0); [discriminate|].
  intros Ha H. exact (Forall_lookup_1 _ _ _ _ Ha H).
Qed.

Lemma aget_nat {A} (a : list A) (k : nat) : aget a (Z.of_nat k) = a !! k.
Proof.
  unfold aget. replace (Z.of_nat k <? 0) with false
    by (symmetry; apply Z.ltb_ge; lia).
  rewrite Nat2Z.id. reflexivity.
Qed.

(** *** Density *)

Lemma activeScan_zero order barPos c fuel i :
  c <= i -> activeScan order barPos c fuel i = Some false.
Proof.
  intros Hc. destruct fuel; cbn; [reflexivity|].
  replace (i <? c) with false by (symmetry; apply Z.ltb_ge; lia). reflexivity.
Qed.

Lemma percentCount_Inf K s :
  0 < K -> of_Z K = Fin (K * one) -> percentCount K (Inf s) = None.
Proof.
  intros HK Hof. unfold percentCount. rewrite Hof, f_100_eq. unfold mul.
  replace (K * one =? 0) with false
    by (symmetry; apply Z.eqb_neq; pose proof one_pos; nia).
  reflexivity.
Qed.

Lemma activeCountOf_nonpos n c :
  n <= 0 -> activeCountOf (Fin n) = Some c -> c = 0.
Proof.
  intros Hn H.
  destruct (activeCountOf_mono n 0 c H) as (c0 & H0 & Hc).
  { pose proof one_pos. lia. }
  replace (activeCountOf (Fin 0)) with (Some 0) in H0 by (vm_compute; reflexivity).
  injection H0 as <-.
  rewrite activeCountOf_eq in H.
  destruct (percentCount BAR_LEN (Fin n)) as [r|]; [|discriminate H].
  cbn in H. injection H as <-. lia.
Qed.

(** X5: at a density of zero or less every step that [getStep]
    resolves is a rest, whatever the pattern and the other parameters. *)
Theorem zero_density_all_rests m step n sp a sl q st :
  n <= 0 ->
  getStep m step (Fin n) sp a sl q = Some st ->
  st = mkStep (-1) 0 false false.
Proof.
  intros Hn. unfold getStep.
  destruct (aget (muted m) step) as [mu|]; [|intros [=]].
  cbn [mbind option_bind]. destruct mu; [intros [= <-]; reflexivity|].
  unfold isStepActive.
  destruct (activeCountOf (Fin n)) as [c|] eqn:Ec; [|intros [=]].
  apply (activeCountOf_nonpos n c Hn) in Ec. subst c.
  cbn [mbind option_bind]. rewrite activeScan_zero by lia.
  cbn. intros [= <-]. reflexivity.
Qed.

(** When the first [c] entries of the activation order are read, an entry
    equal to the bar position is found. *)
Lemma activeScan_found order barPos c : forall fuel i k,
  (i <= k)%nat -> (k < i + fuel)%nat ->
  Z.of_nat k < c -> Z.of_nat k < BAR_LEN ->
  (forall j, (i <= j <= k)%nat -> is_Some (order !! j)) ->
  order !! k = Some barPos ->
  activeScan order barPos c fuel (Z.of_nat i) = Some true.
Proof.
  induction fuel as [|fuel IH]; intros i k Hik Hk Hc Hb Hdef Hfound; [lia|].
  cbn [activeScan].
  replace (Z.of_nat i <? c) with true by (symmetry; apply Z.ltb_lt; lia).
  replace (Z.of_nat i <? BAR_LEN) with true by (symmetry; apply Z.ltb_lt; lia).
  cbn [andb]. rewrite aget_nat.
  destruct (Hdef i ltac:(lia)) as [x Hx]. rewrite Hx. cbn [mbind option_bind].
  destruct (Z.eqb_spec x barPos) as [|Hne]; [reflexivity|].
  assert (i <> k) by (intros ->; congruence).
  replace (Z.of_nat i + 1) with (Z.of_nat (S i)) by lia.
  apply (IH (S i) k); try lia; [|assumption].
  intros j Hj. apply Hdef. lia.
Qed.

Lemma bar_position_listed order step :
  order ≡ₚ [0; 1; 2; 3; 4; 5; 6; 7; 8; 9; 10; 11; 12; 13; 14; 15] ->
  0 <= step ->
  exists k, (k < 16)%nat /\ order !! k = Some (Z.rem step BAR_LEN).
Proof.
  intros Hp Hs.
  assert (Hin : Z.rem step BAR_LEN ∈ order).
  { rewrite Hp. rewrite Z.rem_mod_nonneg by (unfold BAR_LEN; lia).
    pose proof (Z.mod_pos_bound step BAR_LEN ltac:(reflexivity)) as Hb.
    unfold BAR_LEN in *. apply list_elem_of_In. cbn. lia. }
  apply list_elem_of_lookup in Hin as [k Hk]. exists k. split; [|assumption].
  apply lookup_lt_Some in Hk. apply Permutation_length in Hp. cbn in Hp. lia.
Qed.

Lemma full_density_active order m step :
  barActivationOrder m = order ->
  order ≡ₚ [0; 1; 2; 3; 4; 5; 6; 7; 8; 9; 10; 11; 12; 13; 14; 15] ->
  0 <= step ->
  isStepActive m step (of_Z 100) = Some true.
Proof.
  intros Hm Hp Hs. unfold isStepActive.
  replace (activeCountOf (of_Z 100)) with (Some 16) by (vm_compute; reflexivity).
  cbn [mbind option_bind]. rewrite Hm.
  destruct (bar_position_listed order step Hp Hs) as (k & Hk & Hfound).
  change 0 with (Z.of_nat 0).
  apply (activeScan_found order _ 16 _ 0%nat k); try lia.
  - change (Z.to_nat BAR_LEN) with 16%nat. lia.
  - unfold BAR_LEN. lia.
  - intros j Hj. apply lookup_lt_is_Some_2.
    apply Permutation_length in Hp. cbn in Hp. lia.
  - assumption.
Qed.

Lemma f_100_of_Z : of_Z 100 = Fin (100 * one).
Proof. vm_compute. reflexivity. Qed.

Lemma scale_degree_listed order i d :
  order ≡ₚ [0; 1; 2; 3; 4; 5; 6] -> aget order i = Some d -> 0 <= d <= 6.
Proof.
  intros Hp Hd. unfold aget in Hd. destruct (i <? 0); [discriminate Hd|].
  apply list_elem_of_lookup_2 in Hd. rewrite Hp in Hd.
  apply list_elem_of_In in Hd. cbn in Hd. lia.
Qed.

Lemma full_density_note m step sp a sl :
  scalePriorityOrder m ≡ₚ [0; 1; 2; 3; 4; 5; 6] ->
  barActivationOrder m
    ≡ₚ [0; 1; 2; 3; 4; 5; 6; 7; 8; 9; 10; 11; 12; 13; 14; 15] ->
  length (steps m) = 64%nat ->
  Forall generated_step (steps m) ->
  0 <= step < MAX_STEPS ->
  aget (muted m) step = Some false ->
  percent_ok sp ->
  exists st, getStep m step (of_Z 100) sp a sl true = Some st
             /\ 0 <= note st <= 6.
Proof.
  intros Hsc Hbar Hlen Hgen Hstep Hmu (n & -> & Hn). unfold getStep.
  rewrite Hmu. cbn [mbind option_bind].
  rewrite (full_density_active _ m step eq_refl Hbar) by lia.
  cbn [mbind option_bind negb]. unfold getScaleDegree.
  destruct (aget_Some (steps m) step) as [ms Hms];
    [unfold MAX_STEPS in *; lia|].
  rewrite Hms. cbn [mbind option_bind].
  destruct (spreadCountOf_range n Hn) as (c & -> & Hc). cbn [mbind option_bind].
  pose proof (aget_Forall _ _ _ _ Hgen Hms) as (Hp & _).
  assert (Hl7 : length (scalePriorityOrder m) = 7%nat).
  { apply Permutation_length in Hsc. exact Hsc. }
  assert (Hfin : forall i d, aget (scalePriorityOrder m) i = Some d ->
    exists st,
      (if d <? 0 then Some rest_step
       else Some {| note := d; octave := ms_octave ms;
                    accent := ltb (accentProb ms) (div a f_100);
                    slide := ltb (slideProb ms) (div sl f_100) |}) = Some st
      /\ 0 <= note st <= 6).
  { intros i d Hd. pose proof (scale_degree_listed _ _ _ Hsc Hd) as Hr.
    replace (d <? 0) with false by (symmetry; apply Z.ltb_ge; lia).
    eexists. split; [reflexivity|]. cbn [note]. assumption. }
  destruct (Z.ltb_spec (notePoolIndex ms) c).
  - destruct (aget_Some (scalePriorityOrder m) (notePoolIndex ms)) as [d Hd];
      [lia|]. rewrite Hd. cbn [mbind option_bind]. eapply Hfin; eassumption.
  - destruct (aget_Some (scalePriorityOrder m) 0) as [d Hd]; [lia|].
    rewrite Hd. cbn [mbind option_bind]. eapply Hfin; eassumption.
Qed.

(** *** Spread *)

Lemma spreadCountOf_mono n1 n2 c1 :
  spreadCountOf (Fin n1) = Some c1 -> n1 <= n2 <= 100 * one ->
  exists c2, spreadCountOf (Fin n2) = Some c2 /\ c1 <= c2.
Proof.
  rewrite !spreadCountOf_eq. intros H1 Hn.
  destruct (percentCount SCALE_SIZE (Fin n1)) as [r1|] eqn:E1; [|discriminate].
  cbn in H1. injection H1 as <-.
  destruct (percentCount_mono SCALE_SIZE ltac:(unfold SCALE_SIZE; lia)
              ltac:(vm_compute; reflexivity) ltac:(vm_compute; reflexivity)
              ltac:(vm_compute; reflexivity) ltac:(vm_compute; reflexivity)
              n1 n2 r1 E1 Hn) as (r2 & -> & Hb).
  cbn. eexists. split; [reflexivity|]. lia.
Qed.

Lemma spreadCountOf_Inf s : spreadCountOf (Inf s) = None.
Proof. destruct s; vm_compute; reflexivity. Qed.

Lemma spreadCountOf_NaN : spreadCountOf NaN = None.
Proof. vm_compute. reflexivity. Qed.

(** X7: a step whose pool index is inside the pool at a spread keeps
    its scale degree at every higher spread up to 100: raising the spread
    never changes the note of a step that was already unquantised. *)
Theorem spread_monotone m step sp1 sp2 q ms c1 :
  aget (steps m) step = Some ms ->
  spreadCountOf sp1 = Some c1 -> notePoolIndex ms < c1 ->
  leb sp1 sp2 = true -> leb sp2 f_100 = true ->
  getScaleDegree m step sp2 q = aget (scalePriorityOrder m) (notePoolIndex ms)
  /\ getScaleDegree m step sp1 q = aget (scalePriorityOrder m) (notePoolIndex ms).
Proof.
  intros Hms H1 Hin H12 H2. rewrite f_100_eq in H2.
  destruct sp1 as [n1|s1|];
    [| rewrite spreadCountOf_Inf in H1; discriminate H1
     | rewrite spreadCountOf_NaN in H1; discriminate H1 ].
  destruct sp2 as [n2|s2|];
    [| destruct s2; cbn in H12, H2; discriminate | cbn in H12; discriminate ].
  cbn in H12, H2. apply Z.leb_le in H12, H2.
  destruct (spreadCountOf_mono n1 n2 c1 H1 ltac:(lia)) as (c2 & H2' & Hc).
  unfold getScaleDegree. rewrite Hms, H1, H2'. cbn [mbind option_bind].
  replace (notePoolIndex ms <? c2) with true by (symmetry; apply Z.ltb_lt; lia).
  replace (notePoolIndex ms <? c1) with true by (symmetry; apply Z.ltb_lt; lia).
  split; reflexivity.
Qed.

(** *** Accent and slide thresholds *)

Lemma ltb_pack_mono x r1 r2 :
  r1 <= r2 -> ltb x (pack r1) = true -> ltb x (pack r2) = true.
Proof.
  intros Hr. unfold pack. assert (0 < huge) by reflexivity.
  destruct (Z.leb_spec huge (Z.abs r1)); destruct (Z.leb_spec huge (Z.abs r2));
    destruct x as [n|s|]; cbn; try discriminate; try reflexivity;
    repeat match goal with
           | |- context [?a <? ?b] => destruct (Z.ltb_spec a b)
           end; cbn; try discriminate; try reflexivity; try lia;
    destruct s; cbn; try discriminate; try reflexivity.
Qed.

Lemma threshold_mono x a1 a2 :
  a1 <= a2 ->
  ltb x (div (Fin a1) f_100) = true -> ltb x (div (Fin a2) f_100) = true.
Proof.
  intros Ha. rewrite f_100_eq. unfold div.
  replace (100 * one =? 0) with false by (vm_compute; reflexivity).
  replace (Z.sgn (100 * one)) with 1 by (vm_compute; reflexivity).
  replace (Z.abs (100 * one)) with (100 * one) by (vm_compute; reflexivity).
  unfold round_ratio. apply ltb_pack_mono. apply RN_mono; [reflexivity|].
  pose proof one_pos. nia.
Qed.

(** X8: raising the accent density and the slide density
    leaves note and octave of a resolved step as they are and never
    clears an accent or a slide. *)
Theorem accent_slide_monotone m step d sp a1 a2 s1 s2 q st1 :
  getStep m step d sp (Fin a1) (Fin s1) q = Some st1 ->
  a1 <= a2 -> s1 <= s2 ->
  exists st2,
    getStep m step d sp (Fin a2) (Fin s2) q = Some st2
    /\ note st2 = note st1 /\ octave st2 = octave st1
    /\ (accent st1 = true -> accent st2 = true)
    /\ (slide st1 = true -> slide st2 = true).
Proof.
  unfold getStep. intros H Ha Hs.
  destruct (aget (muted m) step) as [mu|]; [|discriminate H].
  cbn [mbind option_bind] in *. destruct mu; [eauto 10|].
  destruct (isStepActive m step d) as [act|]; [|discriminate H].
  cbn [mbind option_bind] in *. destruct (negb act); [eauto 10|].
  destruct (getScaleDegree m step sp q) as [deg|]; [|discriminate H].
  cbn [mbind option_bind] in *. destruct (deg <? 0); [eauto 10|].
  destruct (aget (steps m) step) as [ms|]; [|discriminate H].
  cbn [mbind option_bind] in *. apply Some_inj in H. subst st1.
  eexists. split; [reflexivity|]. cbn [note octave accent slide].
  split; [reflexivity|]. split; [reflexivity|].
  split; apply threshold_mono; assumption.
Qed.

(** X9: the rhythm mask repeats every bar: a step and the step
    16 positions later are active at the same densities. *)
Theorem density_mask_periodic m step d :
  0 <= step -> isStepActive m (step + BAR_LEN) d = isStepActive m step d.
Proof.
  intros Hs. unfold isStepActive.
  rewrite !Z.rem_mod_nonneg by (unfold BAR_LEN; lia).
  replace (step + BAR_LEN) with (step + 1 * BAR_LEN) by lia.
  rewrite Z.mod_add by (unfold BAR_LEN; lia). reflexivity.
Qed.

(** *** findNotePoolIndex *)

Lemma list_find_eq_lookup (l : list Z) : forall i d,
  NoDup l -> l !! i = Some d ->
  list_find (fun x => x = d) l = Some (i, d).
Proof.
  intros i d Hnd Hi. apply list_find_Some. split; [assumption|].
  split; [reflexivity|]. intros j y Hj Hlt ->.
  pose proof (NoDup_lookup l i j d Hnd Hi Hj). lia.
Qed.

Theorem findNotePoolIndex_inverse m i d :
  scalePriorityOrder m ≡ₚ [0; 1; 2; 3; 4; 5; 6] ->
  aget (scalePriorityOrder m) i = Some d ->
  findNotePoolIndex m d = i.
Proof.
  intros Hp Hd. pose proof (aget_in_bounds _ _ _ Hd) as Hi.
  unfold aget in Hd. destruct (Z.ltb_spec i 0); [lia|].
  unfold findNotePoolIndex.
  pose proof (Permutation_length Hp) as Hlen. cbn in Hlen.
  rewrite take_ge by (change (Z.to_nat SCALE_SIZE) with 7%nat; lia).
  rewrite (list_find_eq_lookup _ (Z.to_nat i) d); [lia| |assumption].
  rewrite Hp. repeat constructor; rewrite ?list_elem_of_In; cbn; lia.
Qed.

Lemma findNotePoolIndex_range m d :
  0 <= findNotePoolIndex m d < SCALE_SIZE.
Proof.
  unfold findNotePoolIndex.
  destruct (list_find _ _) as [[i x]|] eqn:E; [|unfold SCALE_SIZE; lia].
  apply list_find_Some in E as (Hi & _). apply lookup_lt_Some in Hi.
  rewrite length_take in Hi. unfold SCALE_SIZE in *. lia.
Qed.

Lemma findNotePoolIndex_absent m d :
  d ∉ take (Z.to_nat SCALE_SIZE) (scalePriorityOrder m) ->
  findNotePoolIndex m d = 0.
Proof.
  intros Hd. unfold findNotePoolIndex.
  destruct (list_find _ _) as [[i x]|] eqn:E; [|reflexivity].
  apply list_find_Some in E as (Hi & -> & _).
  apply list_elem_of_lookup_2 in Hi. contradiction.
Qed.

(** ** The playback engine *)

Lemma activeScan_total order barPos c fuel : forall i,
  length order = Z.to_nat BAR_LEN -> 0 <= i ->
  exists b, activeScan order barPos c fuel i = Some b.
Proof.
  induction fuel as [|fuel IH]; intros i Hlen Hi; cbn; [eauto|].
  destruct (i <? c); cbn; [|eauto].
  destruct (Z.ltb_spec i BAR_LEN); [|eauto].
  destruct (aget_Some order i) as [x ->]; [unfold BAR_LEN in *; lia|]. cbn.
  destruct (x =? barPos); [eauto|]. apply IH; [assumption|lia].
Qed.

Lemma isStepActive_total m step d :
  wf_pattern m -> percent_ok d -> exists b, isStepActive m step d = Some b.
Proof.
  intros (Hbar & _) (n & -> & Hn). unfold isStepActive.
  destruct (activeCountOf_range n Hn) as (c & -> & _). cbn.
  apply activeScan_total; [assumption|lia].
Qed.

Lemma getScaleDegree_total m step sp q :
  wf_pattern m -> 0 <= step < MAX_STEPS -> percent_ok sp ->
  exists deg, getScaleDegree m step sp q = Some deg.
Proof.
  intros (_ & Hsc & Hst & _ & Hpool) Hstep (n & -> & Hn). unfold getScaleDegree.
  destruct (aget_Some (steps m) step) as [ms Hms]; [unfold MAX_STEPS in *; lia|].
  rewrite Hms. cbn.
  destruct (spreadCountOf_range n Hn) as (c & -> & Hc). cbn.
  pose proof (aget_Forall _ _ _ _ Hpool Hms) as Hp. cbn in Hp.
  destruct (Z.ltb_spec (notePoolIndex ms) c).
  - apply aget_Some. unfold SCALE_SIZE in *. lia.
  - destruct q; [|eauto]. apply aget_Some. unfold SCALE_SIZE in *. lia.
Qed.

(** On a well-formed pattern, with density and spread inside their ranges,
    the query of a step inside the array reads inside every array. *)
Lemma getStep_total m step d sp a sl q :
  wf_pattern m -> 0 <= step < MAX_STEPS -> percent_ok d -> percent_ok sp ->
  exists st, getStep m step d sp a sl q = Some st.
Proof.
  intros Hwf Hstep Hd Hsp. unfold getStep.
  pose proof Hwf as (_ & _ & Hst & Hmu & _).
  destruct (aget_Some (muted m) step) as [mu ->]; [unfold MAX_STEPS in *; lia|].
  cbn [mbind option_bind]. destruct mu; [eauto|].
  destruct (isStepActive_total m step d Hwf Hd) as [b ->].
  cbn [mbind option_bind]. destruct b; cbn [negb]; [|eauto].
  destruct (getScaleDegree_total m step sp q Hwf Hstep Hsp) as [deg ->].
  cbn [mbind option_bind]. destruct (deg <? 0); [eauto|].
  destruct (aget_Some (steps m) step) as [ms ->]; [unfold MAX_STEPS in *; lia|].
  cbn [mbind option_bind]. eauto.
Qed.

(** A query that succeeds has read [muted] and [steps] inside their
    bounds. *)
Lemma getStep_in_bounds m step d sp a sl q st :
  getStep m step d sp a sl q = Some st ->
  0 <= step < Z.of_nat (length (muted m)).
Proof.
  unfold getStep. destruct (aget (muted m) step) as [mu|] eqn:E; [|discriminate].
  intros _. eapply aget_in_bounds; eauto.
Qed.

Lemma getNoteInScale_nonneg degree scale root oct :
  0 <= degree -> scale <> NUM_SCALES ->
  exists sd iv,
    aget SCALES (scale_index scale) = Some sd
    /\ aget (intervals sd) (degree mod scale_length sd) = Some iv
    /\ 0 <= iv <= 11
    /\ getNoteInScale degree scale root oct
       = Some (iv + root + 12 * (oct + degree / scale_length sd)).
Proof.
  intros Hd Hs. unfold getNoteInScale.
  replace (degree <? 0) with false by (symmetry; apply Z.ltb_ge; lia).
  destruct (SCALES_named scale Hs) as (sd & Hsd & Hlen & Hiv).
  rewrite Hsd. cbn [mbind option_bind].
  rewrite Z.rem_mod_nonneg, Z.quot_div_nonneg by lia.
  destruct (Hiv (degree mod scale_length sd)) as (iv & Hget & Hr).
  { apply Z.mod_pos_bound. lia. }
  rewrite Hget. cbn [mbind option_bind]. exists sd, iv. auto.
Qed.

Lemma nextStep_range cur len :
  -1 <= cur -> 1 <= len -> 0 <= nextStep cur len < len.
Proof.
  intros Hc Hl. unfold nextStep. destruct (Z.geb_spec (cur + 1) len); lia.
Qed.

Lemma Some_eq_inv {A : Type} (x y : A) : Some x = Some y -> x = y.
Proof. intros [= ->]. reflexivity. Qed.

(** [clockEdge], with its parts named. *)
Lemma clockEdge_eq p s :
  clockEdge p s =
    (let cur := nextStep (currentStep s) (patternLength p) in
     let period := measuredPeriod s in
     step ← resolve p (masterPattern s) cur;
     if negb (isRest step) then
       midi ← getNoteInScale (note step) (scale p) (rootNote p)
                (octave step + octaveOffset p);
       if patternLength p =? 0 then None
       else
         prev ← resolve p (masterPattern s)
                  (Z.rem (cur - 1 + patternLength p) (patternLength p));
         if negb (isRest prev) && slide prev
         then Some (afterSlideIn p s cur period step (div (of_Z midi) f_12))
         else Some (afterAttack s cur period step (div (of_Z midi) f_12))
     else Some (afterRest s cur period)).
Proof. reflexivity. Qed.

(** The three ways a clock edge can end: on a rest, on a note slid into,
    on a note attacked. *)
Lemma clockEdge_inv p s s' :
  clockEdge p s = Some s' ->
  let cur := nextStep (currentStep s) (patternLength p) in
  let period := measuredPeriod s in
  exists step,
    resolve p (masterPattern s) cur = Some step
    /\ ((isRest step = true /\ s' = afterRest s cur period)
        \/ (isRest step = false
            /\ exists midi prev,
                 getNoteInScale (note step) (scale p) (rootNote p)
                   (octave step + octaveOffset p) = Some midi
                 /\ patternLength p <> 0
                 /\ resolve p (masterPattern s)
                      (Z.rem (cur - 1 + patternLength p) (patternLength p))
                    = Some prev
                 /\ ((negb (isRest prev) && slide prev = true
                      /\ s' = afterSlideIn p s cur period step
                                (div (of_Z midi) f_12))
                     \/ (negb (isRest prev) && slide prev = false
                         /\ s' = afterAttack s cur period step
                                   (div (of_Z midi) f_12))))).
Proof.
  rewrite clockEdge_eq. intros H cur period. cbv zeta in H.
  fold cur in H. fold period in H.
  destruct (resolve p (masterPattern s) cur) as [step|] eqn:E1;
    [|discriminate H].
  exists step. split; [reflexivity|].
  cbv beta iota delta [mbind option_bind] in H.
  destruct (isRest step) eqn:Er;
    [change (negb true) with false in H | change (negb false) with true in H];
    cbv beta iota in H.
  - left. split; [reflexivity|]. apply Some_eq_inv in H. symmetry. exact H.
  - right. split; [reflexivity|].
    destruct (getNoteInScale (note step) (scale p) (rootNote p)
                (octave step + octaveOffset p)) as [midi|] eqn:E2;
      [|discriminate H].
    destruct (Z.eqb_spec (patternLength p) 0) as [|Hlen]; [discriminate H|].
    destruct (resolve p (masterPattern s)
                (Z.rem (cur - 1 + patternLength p) (patternLength p)))
      as [prev|] eqn:E3; [|discriminate H].
    exists midi, prev. split; [reflexivity|]. split; [assumption|].
    split; [reflexivity|].
    destruct (negb (isRest prev) && slide prev); apply Some_eq_inv in H;
      [left|right]; (split; [reflexivity|symmetry; exact H]).
Qed.

(** On a well-formed pattern and parameters inside their ranges a clock
    edge reads inside every array. *)
Lemma clockEdge_total p s :
  wf_pattern (masterPattern s) ->
  -1 <= currentStep s ->
  1 <= patternLength p <= MAX_STEPS ->
  percent_ok (density p) -> percent_ok (spread p) ->
  scale p <> NUM_SCALES ->
  exists s', clockEdge p s = Some s'.
Proof.
  intros Hwf Hcur Hlen Hd Hsp Hscale.
  pose proof (nextStep_range (currentStep s) (patternLength p) Hcur ltac:(lia)) as Hn.
  rewrite clockEdge_eq. cbv zeta. unfold resolve.
  destruct (getStep_total (masterPattern s) (nextStep (currentStep s) (patternLength p))
              (density p) (spread p) (accentDensity p) (slideDensity p) true)
    as [st ->]; [assumption|lia|assumption|assumption|].
  cbn [mbind option_bind].
  destruct (isRest st) eqn:Hrest; cbn [negb]; [eauto|].
  destruct (getNoteInScale_nonneg (note st) (scale p) (rootNote p)
              (octave st + octaveOffset p)) as (sd & iv & _ & _ & _ & ->);
    [unfold isRest in Hrest; apply Z.ltb_ge in Hrest; lia | assumption |].
  cbn [mbind option_bind].
  replace (patternLength p =? 0) with false by (symmetry; apply Z.eqb_neq; lia).
  destruct (getStep_total (masterPattern s)
              (Z.rem (nextStep (currentStep s) (patternLength p) - 1
                      + patternLength p) (patternLength p))
              (density p) (spread p) (accentDensity p) (slideDensity p) true)
    as [pv ->]; [assumption| |assumption|assumption|].
  { rewrite Z.rem_mod_nonneg by lia.
    pose proof (Z.mod_pos_bound (nextStep (currentStep s) (patternLength p) - 1
                      + patternLength p) (patternLength p) ltac:(lia)). lia. }
  cbn [mbind option_bind]. destruct (negb (isRest pv) && slide pv); eauto.
Qed.

(** What every clock edge does to the fields that do not depend on the
    resolved step. *)
Lemma clockEdge_frame p s s' :
  clockEdge p s = Some s' ->
  currentStep s' = nextStep (currentStep s) (patternLength p)
  /\ measuredClockPeriod s' = measuredPeriod s
  /\ timeSinceLastClock s' = f_0
  /\ masterPattern s' = masterPattern s
  /\ currentSeed s' = currentSeed s.
Proof.
  intros H. apply clockEdge_inv in H. cbv zeta in H.
  destruct H as (step & _ & [[_ ->]|(_ & midi & prev & _ & _ & _ & [[_ ->]|[_ ->]])]);
    repeat split; reflexivity.
Qed.


(** X12: the clock edge that follows a reset plays step 0,
    whatever the pattern length; the reset keeps pattern and pitch and
    clears the slide flag. *)
Theorem reset_then_clock_starts_at_zero p s s' :
  clockEdge p (resetEdge s) = Some s' ->
  currentStep s' = 0
  /\ masterPattern s' = masterPattern s
  /\ currentPitch (resetEdge s) = currentPitch s
  /\ currentSlideActive (resetEdge s) = false.
Proof.
  intros H. destruct (clockEdge_frame _ _ _ H) as (Hc & _ & _ & Hm & _).
  rewrite Hc, Hm. cbn [resetEdge currentStep masterPattern currentPitch
                       currentSlideActive].
  unfold nextStep. change (-1 + 1) with 0.
  destruct (0 >=? patternLength p); repeat split; reflexivity.
Qed.

(** *** The clock-period estimate *)

Lemma f_0_01_eq : f_0_01 = Fin (10737418 * 2 ^ 119).
Proof. vm_compute. reflexivity. Qed.

Lemma f_2_eq : f_2 = Fin (2 * one).
Proof. vm_compute. reflexivity. Qed.

Lemma f_0_5_eq : f_0_5 = Fin (2 ^ 148).
Proof. vm_compute. reflexivity. Qed.

(** A multiple of a power of two is a multiple of the lower ones. *)
Lemma mod_pow2_le n e1 e2 :
  0 <= e1 <= e2 -> n mod 2 ^ e2 = 0 -> n mod 2 ^ e1 = 0.
Proof.
  intros He Hn.
  apply Z.mod_divide in Hn; [|apply Z.pow_nonzero; lia].
  apply Z.mod_divide; [apply Z.pow_nonzero; lia|].
  destruct Hn as [q ->]. exists (q * 2 ^ (e2 - e1)).
  rewrite <- Z.mul_assoc, <- Z.pow_add_r by lia. f_equal. f_equal. lia.
Qed.

Lemma ulp_exp_f_0_01 : ulp_exp (10737418 * 2 ^ 119) = 119.
Proof. vm_compute. reflexivity. Qed.

(** For a binary32 number, exceeding the constant [0.01f] is the same as
    being at least 1/100: [0.01f] is the float just below 1/100. *)
Lemma gtb_f_0_01 n :
  representable n -> gtb (Fin n) f_0_01 = true <-> one <= 100 * n.
Proof.
  intros Hrep. rewrite f_0_01_eq. unfold gtb, ltb. rewrite Z.ltb_lt.
  split; [|unfold one; lia].
  intros Hn. unfold representable in Hrep.
  rewrite Z.abs_eq in Hrep by lia.
  assert (He : 119 <= ulp_exp n).
  { rewrite <- ulp_exp_f_0_01. apply ulp_exp_mono. lia. }
  apply (mod_pow2_le n 119) in Hrep; [|lia].
  apply Z.mod_divide in Hrep; [|lia]. destruct Hrep as [q ->].
  unfold one. lia.
Qed.

(** X13: a clock edge replaces the period estimate by the elapsed
    time exactly when that time t (a binary32 number) satisfies
    1/100 <= t < 2 seconds, and keeps the estimate otherwise (also for an
    infinite or NaN elapsed time); edges 0.5 s and then 3.0 s apart leave
    the estimate at 0.5 s. *)
Theorem clock_period_update :
  (forall p s s',
     clockEdge p s = Some s' ->
     match timeSinceLastClock s with
     | Fin n =>
         representable n ->
         (one <= 100 * n /\ n < 2 * one -> measuredClockPeriod s' = Fin n)
         /\ (~ (one <= 100 * n /\ n < 2 * one) ->
             measuredClockPeriod s' = measuredClockPeriod s)
     | _ => measuredClockPeriod s' = measuredClockPeriod s
     end)
  /\ (forall p1 p2 s1 s2 s3,
        timeSinceLastClock s1 = f_0_5 ->
        clockEdge p1 s1 = Some s2 ->
        clockEdge p2 (accumulateTime (of_Z 3) s2) = Some s3 ->
        measuredClockPeriod s2 = f_0_5 /\ measuredClockPeriod s3 = f_0_5).
Proof.
  split.
  - intros p s s' H. apply clockEdge_frame in H as (_ & H & _). rewrite H.
    unfold measuredPeriod.
    destruct (timeSinceLastClock s) as [n|b|]; [|destruct b; reflexivity|reflexivity].
    intros Hrep. pose proof (gtb_f_0_01 n Hrep) as Hlo.
    rewrite f_2_eq. change (ltb (Fin n) (Fin (2 * one))) with (n <? 2 * one).
    destruct (gtb (Fin n) f_0_01); destruct (Z.ltb_spec n (2 * one));
      cbn [andb]; split; intros Hc; try reflexivity.
    + exfalso. apply Hc. split; [apply Hlo; reflexivity|assumption].
    + lia.
    + destruct Hc as [Hc _]. apply Hlo in Hc. discriminate Hc.
    + lia.
  - intros p1 p2 s1 s2 s3 Ht H1 H2.
    apply clockEdge_frame in H1 as (_ & H1 & Hz & _).
    apply clockEdge_frame in H2 as (_ & H2 & _).
    unfold measuredPeriod in H1, H2.
    rewrite Ht in H1.
    replace (gtb f_0_5 f_0_01 && ltb f_0_5 f_2) with true in H1
      by (vm_compute; reflexivity).
    split; [assumption|]. rewrite H2.
    cbn [accumulateTime timeSinceLastClock measuredClockPeriod].
    rewrite Hz.
    replace (add f_0 (of_Z 3)) with (of_Z 3) by (vm_compute; reflexivity).
    replace (gtb (of_Z 3) f_0_01 && ltb (of_Z 3) f_2) with false
      by (vm_compute; reflexivity).
    assumption.
Qed.

(** *** The slide ramp *)

Lemma RN_exact_small m den :
  0 < den -> 0 <= m < 2 ^ 24 -> RN (m * den) den = m.
Proof.
  intros Hden Hm. rewrite RN_nonneg_eq by nia.
  rewrite Z.div_mul by lia.
  unfold ulp_exp. replace (m <? 2 ^ 24) with true by (symmetry; apply Z.ltb_lt; lia).
  rewrite Z.pow_0_r, !Z.mul_1_r. apply rhe_exact. assumption.
Qed.

Lemma RN_pos_ge_1 a den : 0 < den -> den <= a -> 1 <= RN a den.
Proof.
  intros Hden Ha. pose proof (RN_mono (1 * den) a den Hden ltac:(lia)) as H.
  rewrite (RN_exact_small 1 den Hden) in H by lia. exact H.
Qed.

Lemma sign_pack n : sign (pack n) = Z.sgn n.
Proof.
  unfold pack. destruct (Z.leb_spec huge (Z.abs n)) as [E|E]; cbn [sign];
    [|reflexivity].
  assert (0 < huge) by reflexivity.
  destruct (Z.ltb_spec n 0); lia.
Qed.

Lemma sign_round_ratio_weak num den :
  0 < den ->
  sign (round_ratio num den) = 0 \/ sign (round_ratio num den) = Z.sgn num.
Proof.
  intros Hden. unfold round_ratio. rewrite sign_pack.
  destruct (Z.lt_trichotomy num 0) as [Hn|[->|Hn]].
  - pose proof (RN_mono num 0 den Hden ltac:(lia)) as H. rewrite RN_0 in H. lia.
  - left. reflexivity.
  - pose proof (RN_mono 0 num den Hden ltac:(lia)) as H. rewrite RN_0 in H. lia.
Qed.

Lemma sign_round_ratio_strong num den :
  0 < den -> den <= Z.abs num -> sign (round_ratio num den) = Z.sgn num.
Proof.
  intros Hden Hn. unfold round_ratio. rewrite sign_pack.
  destruct (Z.le_gt_cases 0 num).
  - pose proof (RN_pos_ge_1 num den Hden ltac:(lia)). lia.
  - pose proof (RN_pos_ge_1 (- num) den Hden ltac:(lia)) as H1.
    rewrite RN_opp in H1. lia.
Qed.

(** The divisor of the slide rate, [0.05f * sampleRate], for a sample rate
    between 1 Hz and 2^24 Hz: a positive number below 2^23. *)
Lemma slide_divisor r :
  one <= r <= 2 ^ 24 * one ->
  exists D, mul f_0_05 (Fin r) = Fin D /\ 0 < D <= 2 ^ 23 * one.
Proof.
  intros Hr.
  replace f_0_05 with (Fin (13421773 * 2 ^ 121)) by (vm_compute; reflexivity).
  unfold mul.
  destruct (round_ratio_between one (13421773 * 2 ^ 121 * one) (13421773 * 2 ^ 121 * r)
              (13421773 * 2 ^ 121 * (2 ^ 24 * one))
              (13421773 * 2 ^ 121) (13421773 * 2 ^ 145))
    as (D & HD & Hb);
    [reflexivity | lia | vm_compute; reflexivity | vm_compute; reflexivity |].
  exists D. split; [assumption|]. unfold one. lia.
Qed.

Lemma RN_1_1 : RN 1 1 = 1.
Proof. vm_compute. reflexivity. Qed.

Lemma RN_2p23 : RN (2 ^ 23) 1 = 2 ^ 23.
Proof. vm_compute. reflexivity. Qed.

Lemma RN_den1_sign d :
  Z.sgn (RN d 1) = Z.sgn d
  /\ (2 ^ 23 <= Z.abs d -> 2 ^ 23 <= Z.abs (RN d 1)).
Proof.
  assert (Hpos : forall a, 0 < a ->
            1 <= RN a 1 /\ (2 ^ 23 <= a -> 2 ^ 23 <= RN a 1)).
  { intros a Ha. split.
    - pose proof (RN_mono 1 a 1 ltac:(lia) ltac:(lia)) as H.
      rewrite RN_1_1 in H. exact H.
    - intros Hb. pose proof (RN_mono (2 ^ 23) a 1 ltac:(lia) Hb) as H.
      rewrite RN_2p23 in H. exact H. }
  destruct (Z.lt_trichotomy d 0) as [Hn|[->|Hn]].
  - destruct (Hpos (- d) ltac:(lia)) as [H1 H2]. rewrite RN_opp in H1, H2.
    split; lia.
  - rewrite RN_0. cbn. lia.
  - destruct (Hpos d Hn) as [H1 H2]. split; lia.
Qed.

(** The difference of two finite pitches has the sign of the exact
    difference; it is at least as large as the smallest normal number
    when the exact difference is. *)
Lemma pitch_difference v c :
  (exists d, sub (Fin v) (Fin c) = Fin d /\ Z.sgn d = Z.sgn (v - c)
             /\ (2 ^ 23 <= Z.abs (v - c) -> 2 ^ 23 <= Z.abs d))
  \/ (sub (Fin v) (Fin c) = Inf (v - c <? 0) /\ v <> c).
Proof.
  unfold sub, opp, add, round_ratio, pack.
  replace (v + - c) with (v - c) by lia.
  destruct (RN_den1_sign (v - c)) as [Hs Hb].
  destruct (Z.leb_spec huge (Z.abs (RN (v - c) 1))) as [E|E].
  - right. assert (0 < huge) by reflexivity.
    replace (RN (v - c) 1 <? 0) with (v - c <? 0).
    + split; [reflexivity|]. intros ->. rewrite Z.sub_diag, RN_0 in E.
      cbn in E. lia.
    + destruct (Z.ltb_spec (v - c) 0); destruct (Z.ltb_spec (RN (v - c) 1) 0); lia.
  - left. eauto.
Qed.

Lemma slide_rate_sign v c r :
  one <= r <= 2 ^ 24 * one ->
  (v = c -> div (sub (Fin v) (Fin c)) (mul f_0_05 (Fin r)) = Fin 0)
  /\ (sign (div (sub (Fin v) (Fin c)) (mul f_0_05 (Fin r))) = 0
      \/ sign (div (sub (Fin v) (Fin c)) (mul f_0_05 (Fin r))) = Z.sgn (v - c))
  /\ (2 ^ 23 <= Z.abs (v - c) ->
      sign (div (sub (Fin v) (Fin c)) (mul f_0_05 (Fin r))) = Z.sgn (v - c)).
Proof.
  intros Hr.
  destruct (slide_divisor r Hr) as (D & -> & HD).
  assert (Hone : 0 < one) by reflexivity.
  destruct (pitch_difference v c) as [(d & -> & Hsgn & Hbig)|[-> Hne]].
  - unfold div. replace (D =? 0) with false by (symmetry; apply Z.eqb_neq; lia).
    rewrite Z.sgn_pos, Z.abs_eq, Z.mul_1_l by lia.
    assert (Hsd : Z.sgn (d * one) = Z.sgn (v - c)).
    { rewrite Z.sgn_mul, (Z.sgn_pos one) by lia. lia. }
    split; [|split].
    + intros ->. rewrite Z.sub_diag in Hsgn. cbn in Hsgn.
      assert (Hd : d = 0) by (destruct d; [reflexivity|discriminate..]).
      rewrite Hd. unfold round_ratio. rewrite Z.mul_0_l, RN_0. reflexivity.
    + rewrite <- Hsd. apply sign_round_ratio_weak. lia.
    + intros Hb. rewrite <- Hsd. apply sign_round_ratio_strong; [lia|].
      specialize (Hbig Hb). rewrite Z.abs_mul, (Z.abs_eq one) by lia. nia.
  - unfold div.
    replace (D <? 0) with false by (symmetry; apply Z.ltb_ge; lia).
    rewrite xorb_false_r. cbn [sign].
    assert (Hs : (if v - c <? 0 then -1 else 1) = Z.sgn (v - c)).
    { destruct (Z.ltb_spec (v - c) 0); lia. }
    split; [intros; contradiction|]. split; [right|intros _]; exact Hs.
Qed.

Lemma ltb_asym x y : ltb x y = true -> ltb y x = false.
Proof.
  destruct x as [a|[]|], y as [b|[]|]; cbn; try congruence.
  intros H. apply Z.ltb_lt in H. apply Z.ltb_ge. lia.
Qed.

Lemma ltb_irrefl x : ltb x x = false.
Proof. destruct x as [a|[]|]; cbn; [apply Z.ltb_irrefl|reflexivity..]. Qed.

(** A pulse that is triggered is never cut short. *)
Lemma pulse_trigger_keeps d g :
  gtb (remaining g) (remaining (pulse_trigger d g)) = false.
Proof.
  unfold pulse_trigger, gtb. destruct (ltb (remaining g) d) eqn:E; cbn [remaining].
  - destruct (ltb d (remaining g)) eqn:E2; [|reflexivity].
    apply ltb_asym in E2. congruence.
  - apply ltb_irrefl.
Qed.

Lemma f_12_eq : f_12 = Fin (12 * one).
Proof. vm_compute. reflexivity. Qed.

(** The pitch of a MIDI note that is an [int] is a finite number. *)
Lemma pitch_finite midi :
  in_int32 midi -> exists v, div (of_Z midi) f_12 = Fin v.
Proof.
  intros [Hlo Hhi]. rewrite f_12_eq. unfold of_Z.
  destruct (round_ratio_between 1 (- 2 ^ 31 * one) (midi * one) (2 ^ 31 * one)
              (- 2 ^ 31 * one) (2 ^ 31 * one))
    as (m & -> & Hm);
    [lia | unfold one; lia | vm_compute; reflexivity | vm_compute; reflexivity |].
  unfold div.
  replace (12 * one =? 0) with false by reflexivity.
  replace (Z.sgn (12 * one)) with 1 by reflexivity.
  replace (Z.abs (12 * one)) with (12 * one) by reflexivity.
  edestruct (round_ratio_between (12 * one) (1 * (- 2 ^ 31 * one) * one)
              (1 * m * one) (1 * (2 ^ 31 * one) * one))
    as (v & -> & _);
    [reflexivity | unfold one in *; lia | vm_compute; reflexivity
    | vm_compute; reflexivity |].
  eauto.
Qed.


(** *** The portamento ramp, sample by sample *)

Lemma representable_opp n : representable n -> representable (- n).
Proof.
  unfold representable. rewrite Z.abs_opp. intros H.
  apply Z.mod_opp_l_z; [|exact H].
  pose proof (ulp_exp_nonneg (Z.abs n)).
  apply Z.pow_nonzero; lia.
Qed.

(** Rounding leaves a binary32 number as it is. *)
Lemma RN_fix c : representable c -> RN c 1 = c.
Proof.
  assert (Hpos : forall a, 0 <= a -> representable a -> RN a 1 = a).
  { intros a Ha Hrep. unfold representable in Hrep.
    rewrite Z.abs_eq in Hrep by lia.
    rewrite RN_nonneg_eq by lia. rewrite Z.div_1_r, Z.mul_1_l.
    pose proof (ulp_exp_nonneg a) as Hk.
    assert (Hq : 0 < 2 ^ ulp_exp a) by (apply Z.pow_pos_nonneg; lia).
    rewrite (Z.div_mod a (2 ^ ulp_exp a)) at 1 by lia.
    rewrite Hrep, Z.add_0_r, (Z.mul_comm (2 ^ ulp_exp a)).
    rewrite rhe_exact by lia.
    pose proof (Z.div_mod a (2 ^ ulp_exp a) ltac:(lia)). lia. }
  intros Hrep. destruct (Z.le_gt_cases 0 c) as [H|H]; [auto|].
  rewrite <- (Z.opp_involutive c) at 1. rewrite RN_opp.
  rewrite Hpos; [lia|lia|]. apply representable_opp. exact Hrep.
Qed.

(** Rounding yields a binary32 number. *)
Lemma RN_representable num den : 0 < den -> representable (RN num den).
Proof.
  intros Hden.
  assert (Hpos : forall a, 0 <= a -> representable (RN a den)).
  { intros a Ha. rewrite RN_nonneg_eq by lia.
    set (k := ulp_exp (a / den)).
    set (m := rhe a (den * 2 ^ k)).
    pose proof (ulp_exp_nonneg (a / den)) as Hk. fold k in Hk.
    assert (Hq : 0 < 2 ^ k) by (apply Z.pow_pos_nonneg; lia).
    assert (Hm : 0 <= m <= 2 ^ 24).
    { pose proof (rhe_bounds a (den * 2 ^ k) ltac:(nia)) as Hb. fold m in Hb.
      pose proof (ulp_exp_upper (a / den) ltac:(apply Z.div_pos; lia)) as Hu.
      fold k in Hu. rewrite <- Z.div_div in Hb by lia.
      assert (a / den / 2 ^ k < 2 ^ 24).
      { apply Z.div_lt_upper_bound; [lia|].
        rewrite <- Z.pow_add_r by lia. rewrite Z.add_comm. exact Hu. }
      assert (0 <= a / den / 2 ^ k).
      { apply Z.div_pos; [apply Z.div_pos; lia|lia]. }
      lia. }
    unfold representable. rewrite Z.abs_eq by nia.
    apply Z.mod_divide.
    { pose proof (ulp_exp_nonneg (m * 2 ^ k)).
      apply Z.pow_nonzero; lia. }
    unfold ulp_exp at 1.
    destruct (Z.ltb_spec (m * 2 ^ k) (2 ^ 24)) as [Hs|Hs].
    { rewrite Z.pow_0_r. apply Z.divide_1_l. }
    assert (Hm0 : 0 < m) by nia.
    rewrite Z.log2_mul_pow2 by lia.
    destruct (Z.eq_dec m (2 ^ 24)) as [->|Hne].
    - rewrite Z.log2_pow2 by lia.
      replace (k + 24 - 23) with (k + 1) by lia.
      rewrite <- Z.pow_add_r by lia.
      exists (2 ^ 23). rewrite <- Z.pow_add_r by lia. f_equal. lia.
    - assert (Hl : Z.log2 m < 24) by (apply Z.log2_lt_pow2; lia).
      pose proof (Z.log2_nonneg m).
      apply Z.divide_mul_r.
      destruct (Z.le_gt_cases (k + Z.log2 m - 23) 0) as [Hj|Hj].
      + destruct (Z.eq_dec (k + Z.log2 m - 23) 0) as [->|Hj'].
        * rewrite Z.pow_0_r. apply Z.divide_1_l.
        * rewrite Z.pow_neg_r by lia.
          (* 0 divides only 0: excluded, since the exponent is
             nonnegative here *)
          exfalso. assert (2 ^ 24 <= m * 2 ^ k) by lia.
          assert (k = 0 \/ 0 < k) as [->|Hk0] by lia.
          -- rewrite Z.pow_0_r in *. lia.
          -- assert (Z.log2 m < 23 - k) by lia.
             assert (m < 2 ^ (23 - k)) by (apply Z.log2_lt_pow2; lia).
             assert (m * 2 ^ k < 2 ^ (23 - k) * 2 ^ k) by nia.
             rewrite <- Z.pow_add_r in * by lia.
             replace (23 - k + k) with 23 in * by lia. lia.
      + exists (2 ^ (k - (k + Z.log2 m - 23))).
        rewrite <- Z.pow_add_r by lia. f_equal. lia. }
  destruct (Z.le_gt_cases 0 num) as [H|H]; [auto|].
  rewrite <- (Z.opp_involutive num), RN_opp.
  apply representable_opp, Hpos. lia.
Qed.

Lemma slideTick_rest s : slideRate s = f_0 -> slideTick s = s.
Proof. intros H. unfold slideTick. rewrite H. reflexivity. Qed.

Lemma slideTick_target s : slideTargetPitch (slideTick s) = slideTargetPitch s.
Proof. unfold slideTick. destruct (neb (slideRate s) f_0); reflexivity. Qed.

Lemma slideTick_up v r s c :
  ramp v r s c -> representable v -> Z.abs v < huge -> 0 < r -> c <= v ->
  exists c', ramp v r (slideTick s) c' /\ c <= c' <= v.
Proof.
  intros (Hc & Hrep & Hfin & Hv & Hrate) Hrv Hfv Hr Hcv.
  destruct Hrate as [Hrate|[Hrate ->]].
  2:{ rewrite (slideTick_rest s Hrate). exists v.
      split; [|lia]. repeat split; auto. }
  unfold slideTick. rewrite Hrate, Hc, Hv.
  unfold neb, eqb, f_0, gtb, ltb.
  replace (r =? 0) with false by (symmetry; apply Z.eqb_neq; lia).
  replace (0 <? r) with true by (symmetry; apply Z.ltb_lt; lia).
  replace (r <? 0) with false by (symmetry; apply Z.ltb_ge; lia).
  cbn [negb andb orb].
  rewrite orb_false_r.
  pose proof (RN_mono c (c + r) 1 ltac:(lia) ltac:(lia)) as Hm.
  rewrite (RN_fix c Hrep) in Hm.
  pose proof (RN_representable (c + r) 1 ltac:(lia)) as Hr'.
  unfold add, round_ratio, pack.
  destruct (Z.leb_spec huge (Z.abs (RN (c + r) 1))) as [E|E].
  - replace (RN (c + r) 1 <? 0) with false by (symmetry; apply Z.ltb_ge; lia).
    cbn [geb leb negb]. exists v. split; [|lia].
    unfold ramp. cbn [currentPitch slideTargetPitch slideRate]. auto 10.
  - cbn [geb leb].
    destruct (Z.leb_spec v (RN (c + r) 1)) as [L|L].
    + exists v. split; [|lia].
      unfold ramp. cbn [currentPitch slideTargetPitch slideRate]. auto 10.
    + exists (RN (c + r) 1). split; [|lia].
      unfold ramp. cbn [currentPitch slideTargetPitch slideRate]. auto 10.
Qed.

Lemma slideTick_down v r s c :
  ramp v r s c -> representable v -> Z.abs v < huge -> r < 0 -> v <= c ->
  exists c', ramp v r (slideTick s) c' /\ v <= c' <= c.
Proof.
  intros (Hc & Hrep & Hfin & Hv & Hrate) Hrv Hfv Hr Hcv.
  destruct Hrate as [Hrate|[Hrate ->]].
  2:{ rewrite (slideTick_rest s Hrate). exists v.
      split; [|lia]. repeat split; auto. }
  unfold slideTick. rewrite Hrate, Hc, Hv.
  unfold neb, eqb, f_0, gtb, ltb.
  replace (r =? 0) with false by (symmetry; apply Z.eqb_neq; lia).
  replace (0 <? r) with false by (symmetry; apply Z.ltb_ge; lia).
  replace (r <? 0) with true by (symmetry; apply Z.ltb_lt; lia).
  cbn [negb andb orb].
  pose proof (RN_mono (c + r) c 1 ltac:(lia) ltac:(lia)) as Hm.
  rewrite (RN_fix c Hrep) in Hm.
  pose proof (RN_representable (c + r) 1 ltac:(lia)) as Hr'.
  unfold add, round_ratio, pack.
  destruct (Z.leb_spec huge (Z.abs (RN (c + r) 1))) as [E|E].
  - replace (RN (c + r) 1 <? 0) with true by (symmetry; apply Z.ltb_lt; lia).
    cbn [leb]. exists v. split; [|lia].
    unfold ramp. cbn [currentPitch slideTargetPitch slideRate]. auto 10.
  - cbn [leb].
    destruct (Z.leb_spec (RN (c + r) 1) v) as [L|L].
    + exists v. split; [|lia].
      unfold ramp. cbn [currentPitch slideTargetPitch slideRate]. auto 10.
    + exists (RN (c + r) 1). split; [|lia].
      unfold ramp. cbn [currentPitch slideTargetPitch slideRate]. auto 10.
Qed.

Lemma ticks_S n s : ticks (S n) s = slideTick (ticks n s).
Proof. reflexivity. Qed.

Lemma ticks_up v r s c n :
  ramp v r s c -> representable v -> Z.abs v < huge -> 0 < r -> c <= v ->
  exists cn, ramp v r (ticks n s) cn /\ c <= cn <= v.
Proof.
  intros H0 Hrv Hfv Hr Hcv. induction n as [|n (cn & Hn & Hb)].
  - exists c. split; [exact H0|lia].
  - rewrite ticks_S.
    destruct (slideTick_up v r _ cn Hn Hrv Hfv Hr ltac:(lia)) as (c' & H' & Hb').
    exists c'. split; [exact H'|lia].
Qed.

Lemma ticks_down v r s c n :
  ramp v r s c -> representable v -> Z.abs v < huge -> r < 0 -> v <= c ->
  exists cn, ramp v r (ticks n s) cn /\ v <= cn <= c.
Proof.
  intros H0 Hrv Hfv Hr Hcv. induction n as [|n (cn & Hn & Hb)].
  - exists c. split; [exact H0|lia].
  - rewrite ticks_S.
    destruct (slideTick_down v r _ cn Hn Hrv Hfv Hr ltac:(lia)) as (c' & H' & Hb').
    exists c'. split; [exact H'|lia].
Qed.

(** X15: sample after sample the portamento moves the pitch toward
    the target and never past it, for every number of samples; the rate
    is cleared only with the pitch on the target, and then nothing
    changes any more. *)
Theorem ramp_never_overshoots s c v r n :
  currentPitch s = Fin c -> slideTargetPitch s = Fin v ->
  slideRate s = Fin r ->
  representable c -> Z.abs c < huge ->
  representable v -> Z.abs v < huge ->
  (0 < r /\ c <= v) \/ (r < 0 /\ v <= c) ->
  exists cn cn',
    currentPitch (ticks n s) = Fin cn
    /\ currentPitch (ticks (S n) s) = Fin cn'
    /\ slideTargetPitch (ticks n s) = Fin v
    /\ (0 < r -> c <= cn /\ cn <= cn' /\ cn' <= v)
    /\ (r < 0 -> v <= cn' /\ cn' <= cn /\ cn <= c)
    /\ (slideRate (ticks n s) = Fin r
        \/ (slideRate (ticks n s) = f_0 /\ cn = v
            /\ ticks (S n) s = ticks n s)).
Proof.
  intros Hc Hv Hrate Hrc Hfc Hrv Hfv Hdir.
  assert (H0 : ramp v r s c) by (unfold ramp; auto 10).
  destruct Hdir as [[Hr Hcv]|[Hr Hcv]].
  - destruct (ticks_up v r s c n H0 Hrv Hfv Hr Hcv) as (cn & Hn & Hb).
    destruct (slideTick_up v r _ cn Hn Hrv Hfv Hr ltac:(lia)) as (c' & H' & Hb').
    exists cn, c'. rewrite ticks_S.
    destruct Hn as (Hn1 & _ & _ & Hn2 & Hn3).
    destruct H' as (H1 & _).
    repeat split; try assumption; try lia.
    destruct Hn3 as [Hn3|[Hn3 Hn4]]; [left; assumption|right].
    repeat split; try assumption. apply slideTick_rest. assumption.
  - destruct (ticks_down v r s c n H0 Hrv Hfv Hr Hcv) as (cn & Hn & Hb).
    destruct (slideTick_down v r _ cn Hn Hrv Hfv Hr ltac:(lia)) as (c' & H' & Hb').
    exists cn, c'. rewrite ticks_S.
    destruct Hn as (Hn1 & _ & _ & Hn2 & Hn3).
    destruct H' as (H1 & _).
    repeat split; try assumption; try lia.
    destruct Hn3 as [Hn3|[Hn3 Hn4]]; [left; assumption|right].
    repeat split; try assumption. apply slideTick_rest. assumption.
Qed.

(** *** One sample of [process] *)

Lemma process_eq p s :
  process p s =
    (s0 ← (if generateTriggered p then generateNewPattern (timeNow p) s
           else Some s);
     s1 ← (if clockRising p then clockEdge p (beforeClock p s0)
           else Some (beforeClock p s0));
     outputStage p (slideTick s1)).
Proof. reflexivity. Qed.

Lemma u32_range x : 0 <= u32 x < 2 ^ 32.
Proof. unfold u32. apply Z.mod_pos_bound. lia. Qed.

Lemma wf_init : wf_pattern MasterPattern_init.
Proof.
  unfold wf_pattern. repeat split; try reflexivity.
  cbn [steps MasterPattern_init]. apply List.Forall_forall.
  intros ms Hin. apply repeat_spec in Hin. subst ms. cbn. lia.
Qed.

(** A new pattern is always produced; it has arrays of the declared
    sizes, no mute, and leaves the playback position alone. *)
Lemma generateNewPattern_ok now s :
  exists s',
    generateNewPattern now s = Some s'
    /\ wf_pattern (masterPattern s')
    /\ muted (masterPattern s') = repeat false (Z.to_nat MAX_STEPS)
    /\ currentStep s' = currentStep s
    /\ currentSeed s'
       = Z.lxor (u32 now) (u32 (currentSeed s * 1664525 + 1013904223)).
Proof.
  unfold generateNewPattern. cbv zeta.
  destruct (generateMaster_inv
              (Z.lxor (u32 now) (u32 (currentSeed s * 1664525 + 1013904223)))
              (masterPattern s)) as (m & -> & Hsc & Hbar & Hlen & Hall & _).
  cbn [mbind option_bind]. eexists. split; [reflexivity|].
  cbn [masterPattern currentStep currentSeed].
  split; [|auto].
  unfold wf_pattern, clearMutes.
  cbn [barActivationOrder scalePriorityOrder steps muted].
  apply Permutation_length in Hsc, Hbar.
  split; [exact Hbar|]. split; [exact Hsc|]. split; [exact Hlen|].
  split; [apply repeat_length|].
  eapply Forall_impl; [exact Hall|]. intros ms (H & _). lia.
Qed.

Lemma outputStage_total p s :
  wf_pattern (masterPattern s) -> params_ok p ->
  exists s' out,
    outputStage p s = Some (s', out)
    /\ masterPattern s' = masterPattern s /\ currentStep s' = currentStep s.
Proof.
  intros Hwf (Hlen & Hd & Hsp & _). unfold outputStage.
  destruct (pulse_process (sampleTime p) (gatePulse s)) as [gh g].
  destruct (pulse_process (sampleTime p) (accentPulse s)) as [ah a].
  destruct ((0 <=? currentStep s) && (currentStep s <? patternLength p)) eqn:E.
  - apply andb_true_iff in E as [E1 E2].
    apply Z.leb_le in E1. apply Z.ltb_lt in E2.
    destruct (getStep_total (masterPattern s) (currentStep s) (density p)
                (spread p) (accentDensity p) (slideDensity p) true)
      as [st ->]; [assumption|lia|assumption|assumption|].
    cbn [mbind option_bind]. eauto.
  - cbn [mbind option_bind]. eauto.
Qed.

Lemma slideTick_frame s :
  masterPattern (slideTick s) = masterPattern s
  /\ currentStep (slideTick s) = currentStep s.
Proof. unfold slideTick. destruct (neb (slideRate s) f_0); auto. Qed.

Lemma beforeClock_frame p s :
  masterPattern (beforeClock p s) = masterPattern s
  /\ (currentStep (beforeClock p s)
      = if resetTriggered p then -1 else currentStep s).
Proof. unfold beforeClock. destruct (resetTriggered p); auto. Qed.

Lemma process_ok p s :
  engine_ok s -> params_ok p ->
  exists s' out, process p s = Some (s', out) /\ engine_ok s'.
Proof.
  intros [Hwf Hcur] Hp. pose proof Hp as (Hlen & Hd & Hsp & Hsc).
  rewrite process_eq.
  assert (H0 : exists s0,
            (if generateTriggered p then generateNewPattern (timeNow p) s
             else Some s) = Some s0 /\ engine_ok s0).
  { destruct (generateTriggered p).
    - destruct (generateNewPattern_ok (timeNow p) s) as (s0 & -> & Hw & _ & Hc & _).
      exists s0. split; [reflexivity|]. split; [assumption|]. rewrite Hc. assumption.
    - exists s. split; [reflexivity|]. split; assumption. }
  destruct H0 as (s0 & -> & Hwf0 & Hcur0). cbn [mbind option_bind].
  destruct (beforeClock_frame p s0) as [Hm1 Hc1].
  assert (Hcb : -1 <= currentStep (beforeClock p s0) < MAX_STEPS).
  { rewrite Hc1. destruct (resetTriggered p); [unfold MAX_STEPS; lia|assumption]. }
  assert (H1 : exists s1,
            (if clockRising p then clockEdge p (beforeClock p s0)
             else Some (beforeClock p s0)) = Some s1
            /\ wf_pattern (masterPattern s1)
            /\ -1 <= currentStep s1 < MAX_STEPS).
  { destruct (clockRising p).
    - destruct (clockEdge_total p (beforeClock p s0)) as [s1 H1];
        [rewrite Hm1; assumption|lia|assumption..|].
      exists s1. split; [assumption|].
      destruct (clockEdge_frame _ _ _ H1) as (Hn & _ & _ & Hm & _).
      rewrite Hm, Hm1, Hn. split; [assumption|].
      pose proof (nextStep_range (currentStep (beforeClock p s0))
                    (patternLength p) ltac:(lia) ltac:(lia)). lia.
    - exists (beforeClock p s0). rewrite Hm1. auto. }
  destruct H1 as (s1 & -> & Hwf1 & Hcur1). cbn [mbind option_bind].
  destruct (slideTick_frame s1) as [Hm2 Hc2].
  destruct (outputStage_total p (slideTick s1)) as (s' & out & -> & Hm & Hc);
    [rewrite Hm2; assumption|assumption|].
  exists s', out. split; [reflexivity|].
  split; [rewrite Hm, Hm2; assumption|rewrite Hc, Hc2; assumption].
Qed.


Lemma pair_eq_inv {A B : Type} (a c : A) (b d : B) :
  (a, b) = (c, d) -> a = c /\ b = d.
Proof. intros [= -> ->]. auto. Qed.

(** What the output stage writes, read off a successful call. *)
Lemma outputStage_inv p s s' out :
  outputStage p s = Some (s', out) ->
  OUTPUT_PITCH out = currentPitch s
  /\ OUTPUT_GATE out
     = (if gtb (retriggerGapRemaining s) f_0 then f_0
        else if gtb (remaining (gatePulse s)) f_0 then f_10 else f_0)
  /\ OUTPUT_ACCENT out
     = (if gtb (remaining (accentPulse s)) f_0 then f_10 else f_0)
  /\ remaining (gatePulse s')
     = (if gtb (remaining (gatePulse s)) f_0
        then sub (remaining (gatePulse s)) (sampleTime p)
        else remaining (gatePulse s))
  /\ retriggerGapRemaining s'
     = (if gtb (retriggerGapRemaining s) f_0
        then sub (retriggerGapRemaining s) (sampleTime p)
        else retriggerGapRemaining s)
  /\ slideRate s' = slideRate s
  /\ currentPitch s' = currentPitch s.
Proof.
  unfold outputStage, pulse_process. intros H.
  destruct (gtb (remaining (gatePulse s)) f_0);
  destruct (gtb (remaining (accentPulse s)) f_0);
  cbv beta iota in H;
  (destruct ((0 <=? currentStep s) && (currentStep s <? patternLength p));
   [destruct (getStep (masterPattern s) (currentStep s) (density p) (spread p)
                (accentDensity p) (slideDensity p) true) as [st|];
    [|discriminate H]|]);
  cbv beta iota delta [mbind option_bind] in H;
  apply Some_eq_inv, pair_eq_inv in H; destruct H as [<- <-];
  cbn [OUTPUT_PITCH OUTPUT_GATE OUTPUT_ACCENT gatePulse remaining
       retriggerGapRemaining slideRate currentPitch];
  destruct (gtb (retriggerGapRemaining s) f_0); auto 10.
Qed.

Lemma gap_positive : gtb RETRIGGER_GAP_TIME f_0 = true.
Proof. vm_compute. reflexivity. Qed.

Lemma f_0_02_eq : exists n, f_0_02 = Fin n /\ 0 < n.
Proof. eexists. split; [vm_compute; reflexivity|reflexivity]. Qed.

(** X16: a sample whose clock edge attacks a note (no slide from
    the previous step) outputs the new pitch at once with a slide rate of
    zero; if the gate pulse was still running, the gate output of this
    sample is 0 V and the retrigger gap is started; if it had run out and
    no gap is pending, the gate output is 10 V and a pulse of 20 ms is
    running. *)
Theorem attack_gate_and_gap p s s' out step prev midi :
  generateTriggered p = false -> clockRising p = true ->
  process p s = Some (s', out) ->
  resolve p (masterPattern s)
    (nextStep (currentStep (beforeClock p s)) (patternLength p)) = Some step ->
  isRest step = false ->
  getNoteInScale (note step) (scale p) (rootNote p)
    (octave step + octaveOffset p) = Some midi ->
  resolve p (masterPattern s)
    (Z.rem (nextStep (currentStep (beforeClock p s)) (patternLength p) - 1
            + patternLength p) (patternLength p)) = Some prev ->
  negb (isRest prev) && slide prev = false ->
  OUTPUT_PITCH out = div (of_Z midi) f_12
  /\ currentPitch s' = div (of_Z midi) f_12
  /\ slideRate s' = f_0
  /\ (gtb (remaining (gatePulse s)) f_0 = true ->
        OUTPUT_GATE out = f_0
        /\ retriggerGapRemaining s' = sub RETRIGGER_GAP_TIME (sampleTime p))
  /\ (forall g, remaining (gatePulse s) = Fin g -> g <= 0 ->
        slide step = false ->
        gtb (retriggerGapRemaining (beforeClock p s)) f_0 = false ->
        OUTPUT_GATE out = f_10
        /\ remaining (gatePulse s') = sub f_0_02 (sampleTime p)).
Proof.
  intros Hgen Hclk H Hstep Hrest Hmidi Hprev Hslide.
  rewrite process_eq, Hgen, Hclk in H.
  cbv beta iota delta [mbind option_bind] in H.
  destruct (clockEdge p (beforeClock p s)) as [s1|] eqn:E; [|discriminate H].
  apply clockEdge_inv in E. cbv zeta in E.
  destruct (beforeClock_frame p s) as [Hm _]. rewrite Hm in E.
  destruct E as (step' & Hstep' & E). rewrite Hstep in Hstep'.
  apply Some_eq_inv in Hstep'. subst step'.
  destruct E as [[Hr' _]|(_ & midi' & prev' & Hmidi' & _ & Hprev' & E)];
    [congruence|].
  rewrite Hmidi in Hmidi'. apply Some_eq_inv in Hmidi'. subst midi'.
  rewrite Hprev in Hprev'. apply Some_eq_inv in Hprev'. subst prev'.
  rewrite Hslide in E. destruct E as [[E _]|[_ ->]]; [discriminate E|].
  rewrite slideTick_rest in H by reflexivity.
  apply outputStage_inv in H.
  destruct H as (Hpitch & Hgate & _ & Hrem & Hgap & Hrate & Hcur).
  unfold afterAttack in *.
  cbn [currentPitch slideRate gatePulse retriggerGapRemaining] in *.
  assert (Hg0 : gatePulse (beforeClock p s) = gatePulse s).
  { unfold beforeClock. destruct (resetTriggered p); reflexivity. }
  rewrite Hg0 in *.
  split; [exact Hpitch|]. split; [exact Hcur|]. split; [exact Hrate|].
  split.
  - intros Hhigh. rewrite Hhigh in *. rewrite gap_positive in *. auto.
  - intros g Hg Hle Hsl Hnogap. rewrite Hsl in *.
    destruct f_0_02_eq as (n & Hn & Hpos).
    assert (Hlow : gtb (remaining (gatePulse s)) f_0 = false).
    { rewrite Hg. unfold gtb, ltb, f_0. apply Z.ltb_ge. lia. }
    rewrite Hlow, Hnogap in *.
    assert (Htrig : pulse_trigger f_0_02 (gatePulse s) = mkPulse f_0_02).
    { unfold pulse_trigger. rewrite Hg, Hn. unfold gtb, ltb.
      replace (g <? n) with true by (symmetry; apply Z.ltb_lt; lia).
      reflexivity. }
    rewrite Htrig in *. cbn [remaining] in *.
    assert (Hon : gtb f_0_02 f_0 = true).
    { rewrite Hn. unfold gtb, ltb, f_0. apply Z.ltb_lt. lia. }
    rewrite Hon in *. auto.
Qed.

(** ** Persistence *)

(** *** Objects *)

Lemma find_fields_set_same k v l :
  List.find (fun kv : string * json => String.eqb (fst kv) k) (fields_set k v l)
  = Some (k, v).
Proof.
  induction l as [|[k' w] l IH]; cbn.
  - rewrite String.eqb_refl. reflexivity.
  - destruct (String.eqb k' k) eqn:E; cbn; rewrite E; [|exact IH].
    apply String.eqb_eq in E. subst k'. reflexivity.
Qed.

Lemma find_fields_set_other k k' v l :
  k <> k' ->
  List.find (fun kv : string * json => String.eqb (fst kv) k') (fields_set k v l)
  = List.find (fun kv : string * json => String.eqb (fst kv) k') l.
Proof.
  intros Hne. apply String.eqb_neq in Hne.
  induction l as [|[k0 w] l IH]; cbn.
  - rewrite Hne. reflexivity.
  - destruct (String.eqb k0 k) eqn:E; cbn.
    + apply String.eqb_eq in E. subst k0. rewrite Hne. reflexivity.
    + destruct (String.eqb k0 k'); [reflexivity|exact IH].
Qed.

Lemma is_obj_set o k v : is_obj o -> is_obj (json_object_set_new o k v).
Proof. destruct o, v; cbn; auto. Qed.

Lemma get_set_same o k v :
  is_obj o -> json_object_get (Some (json_object_set_new o k (Some v))) k = Some v.
Proof.
  destruct o; cbn; try contradiction. intros _.
  rewrite find_fields_set_same. reflexivity.
Qed.

Lemma get_set_other o k k' v :
  k <> k' ->
  json_object_get (Some (json_object_set_new o k v)) k'
  = json_object_get (Some o) k'.
Proof.
  intros Hne. destruct o, v; cbn; try reflexivity.
  rewrite find_fields_set_other by assumption. reflexivity.
Qed.

Lemma set_none o k : json_object_set_new o k None = o.
Proof. destruct o; reflexivity. Qed.

Lemma get_empty k : json_object_get (Some (JObject [])) k = None.
Proof. reflexivity. Qed.

(** *** Arrays of integers *)

Lemma orderToJson_eq n : forall i a l,
  (i + n <= length a)%nat ->
  orderToJson n i a (JArray l)
  = Some (JArray (l ++ map JInteger (take n (drop i a)))).
Proof.
  induction n as [|n IH]; intros i a l Hlen.
  - cbn. rewrite app_nil_r. reflexivity.
  - cbn [orderToJson].
    destruct (lookup_lt_is_Some_2 a i ltac:(lia)) as [x Hx].
    rewrite Hx. cbn [mbind option_bind json_integer json_array_append_new].
    rewrite IH by lia. rewrite <- app_assoc. cbn [app].
    rewrite (drop_S a x i Hx). reflexivity.
Qed.

Lemma to_int32_id z : in_int32 z -> to_int32 z = z.
Proof.
  unfold in_int32, to_int32. intros H.
  rewrite Z.mod_small by lia. lia.
Qed.

Lemma loadOrder_eq n : forall i xs a,
  (i + n)%nat = length xs -> length a = length xs -> Forall in_int32 xs ->
  loadOrder n i (Some (JArray (map JInteger xs))) a = take i a ++ drop i xs.
Proof.
  induction n as [|n IH]; intros i xs a Hn Hlen Hall.
  - cbn. rewrite drop_ge by lia. rewrite take_ge by lia.
    rewrite app_nil_r. reflexivity.
  - cbn [loadOrder json_array_size json_array_get].
    rewrite length_map.
    replace (Z.of_nat i <? Z.of_nat (length xs)) with true
      by (symmetry; apply Z.ltb_lt; lia).
    destruct (lookup_lt_is_Some_2 xs i ltac:(lia)) as [x Hx].
    rewrite list_lookup_fmap, Hx. cbn [fmap option_fmap option_map json_integer_value].
    rewrite to_int32_id
      by (eapply Forall_lookup_1 in Hall; [exact Hall|exact Hx]).
    rewrite IH; [|lia|rewrite length_insert; lia|assumption].
    rewrite (drop_S xs x i Hx).
    rewrite take_S_r with (x := x)
      by (apply list_lookup_insert_eq; lia).
    rewrite take_insert_ge by lia. rewrite <- app_assoc. reflexivity.
Qed.

(** *** Steps *)

Lemma loadStep_stepToJson ms mu old :
  storable_step ms -> loadStep (Some (stepToJson ms mu)) old = ms.
Proof.
  intros (Hp & Ho & [a Ha] & [b Hb]).
  destruct ms as [p o ap sp]. cbn in *. subst ap sp.
  unfold loadStep, stepToJson. cbn.
  rewrite !to_int32_id by assumption. reflexivity.
Qed.

Lemma mute_stepToJson ms mu :
  storable_step ms ->
  json_object_get (Some (stepToJson ms mu)) "m" = Some (JBool mu).
Proof.
  intros (Hp & Ho & [a Ha] & [b Hb]).
  destruct ms as [p o ap sp]. cbn in *. subst ap sp. reflexivity.
Qed.

Lemma stepsToJson_eq n : forall i m l,
  (i + n <= length (steps m))%nat -> (i + n <= length (muted m))%nat ->
  stepsToJson n i m (JArray l)
  = Some (JArray (l ++ zip_with stepToJson (take n (drop i (steps m)))
                                           (take n (drop i (muted m))))).
Proof.
  induction n as [|n IH]; intros i m l H1 H2.
  - cbn. rewrite app_nil_r. reflexivity.
  - cbn [stepsToJson].
    destruct (lookup_lt_is_Some_2 (steps m) i ltac:(lia)) as [x Hx].
    destruct (lookup_lt_is_Some_2 (muted m) i ltac:(lia)) as [y Hy].
    rewrite Hx, Hy. cbn [mbind option_bind json_array_append_new].
    rewrite IH by lia. rewrite <- app_assoc. cbn [app].
    rewrite (drop_S _ x i Hx), (drop_S _ y i Hy). reflexivity.
Qed.

Lemma loadSteps_eq n : forall i xs ys st mu,
  (i + n)%nat = length xs -> length ys = length xs ->
  length st = length xs -> length mu = length xs ->
  Forall storable_step xs ->
  loadSteps n i (Some (JArray (zip_with stepToJson xs ys))) st mu
  = (take i st ++ drop i xs, take i mu ++ drop i ys).
Proof.
  induction n as [|n IH]; intros i xs ys st mu Hn Hys Hst Hmu Hall.
  - cbn. rewrite !drop_ge by lia. rewrite !take_ge by lia.
    rewrite !app_nil_r. reflexivity.
  - cbn [loadSteps json_array_size json_array_get].
    rewrite length_zip_with.
    replace (Z.of_nat i <? Z.of_nat (length xs `min` length ys)) with true
      by (symmetry; apply Z.ltb_lt; lia).
    destruct (lookup_lt_is_Some_2 xs i ltac:(lia)) as [x Hx].
    destruct (lookup_lt_is_Some_2 ys i ltac:(lia)) as [y Hy].
    destruct (lookup_lt_is_Some_2 st i ltac:(lia)) as [old Hold].
    assert (Hz : zip_with stepToJson xs ys !! i = Some (stepToJson x y)).
    { rewrite lookup_zip_with, Hx. cbn. rewrite Hy. reflexivity. }
    rewrite Hz, Hold.
    assert (Hsx : storable_step x)
      by (eapply Forall_lookup_1 in Hall; [exact Hall|exact Hx]).
    rewrite (mute_stepToJson x y Hsx), (loadStep_stepToJson x y old Hsx).
    cbn [json_boolean_value].
    rewrite IH; [|lia|assumption|rewrite length_insert; lia
                 |rewrite length_insert; lia|assumption].
    rewrite (drop_S xs x i Hx), (drop_S ys y i Hy).
    rewrite take_S_r with (x := x) by (apply list_lookup_insert_eq; lia).
    rewrite take_S_r with (x := y) by (apply list_lookup_insert_eq; lia).
    rewrite !take_insert_ge by lia. rewrite <- !app_assoc. reflexivity.
Qed.

Lemma dataToJson_eq s :
  sized_pattern (masterPattern s) -> dataToJson s = Some (rootDoc s).
Proof.
  intros (Hbar & Hsc & Hst & Hmu). unfold dataToJson. cbv zeta.
  rewrite orderToJson_eq by lia.
  cbn [mbind option_bind].
  rewrite orderToJson_eq by lia.
  cbn [mbind option_bind].
  rewrite stepsToJson_eq by lia.
  cbn [mbind option_bind app].
  rewrite !drop_0, <- Hbar, <- Hsc, <- Hst, !firstn_all.
  rewrite Hst, <- Hmu, firstn_all.
  reflexivity.
Qed.

Lemma storable_sized m : storable_pattern m -> sized_pattern m.
Proof. intros (H1 & H2 & H3 & H4 & _). repeat split; assumption. Qed.

Lemma is_obj_masterDoc m : is_obj (masterDoc m).
Proof. exact I. Qed.

Lemma loadMaster_masterDoc m old :
  storable_pattern m -> sized_pattern old ->
  loadMaster (Some (masterDoc m)) old = m.
Proof.
  intros (Hbar & Hsc & Hst & Hmu & Hib & His & Hss) (Obar & Osc & Ost & Omu).
  assert (Hb : json_object_get (Some (masterDoc m)) "barActivationOrder"
               = Some (JArray (map JInteger (barActivationOrder m)))).
  { unfold masterDoc. repeat (rewrite get_set_other by discriminate).
    apply get_set_same. exact I. }
  assert (Hc : json_object_get (Some (masterDoc m)) "scalePriorityOrder"
               = Some (JArray (map JInteger (scalePriorityOrder m)))).
  { unfold masterDoc. repeat (rewrite get_set_other by discriminate).
    apply get_set_same. exact I. }
  assert (Hj : json_object_get (Some (masterDoc m)) "steps"
               = Some (JArray (zip_with stepToJson (steps m) (muted m)))).
  { unfold masterDoc. apply get_set_same. exact I. }
  unfold loadMaster. cbv zeta. rewrite Hb, Hc, Hj.
  rewrite loadOrder_eq; [|rewrite Hbar; reflexivity|lia|assumption].
  rewrite loadOrder_eq; [|rewrite Hsc; reflexivity|lia|assumption].
  rewrite loadSteps_eq; [|rewrite Hst; reflexivity|lia|lia|lia|assumption].
  cbn [take app]. rewrite !drop_0. destruct m; reflexivity.
Qed.

Lemma real_value_json_real x old :
  (if json_real x is Some _ then json_real_value (json_real x) else old)
  = match x with Fin _ => x | _ => old end.
Proof. destruct x; reflexivity. Qed.

Lemma get_set_real o k x :
  is_obj o -> json_object_get (Some o) k = None ->
  json_object_get (Some (json_object_set_new o k (json_real x))) k = json_real x.
Proof.
  intros Ho Hk. destruct x as [n| |]; cbn [json_real].
  - apply get_set_same. assumption.
  - rewrite set_none. assumption.
  - rewrite set_none. assumption.
Qed.

Lemma u32_id z : 0 <= z < 2 ^ 32 -> u32 z = z.
Proof. intros H. unfold u32. apply Z.mod_small. lia. Qed.

(** X18: [dataFromJson] after [dataToJson] restores the master pattern
    (orders, steps and mutes, hence every result of [getStep]), the seed,
    the step index and the slide flag; a pitch, target or rate is
    restored when it is finite, and left as the loading module has it when
    it is an infinity or a NaN, which the document cannot hold; pulses
    and clock measurements are those of the loading module. *)
Theorem json_round_trip s t :
  storable_pattern (masterPattern s) -> sized_pattern (masterPattern t) ->
  in_int32 (currentStep s) -> 0 <= currentSeed s < 2 ^ 32 ->
  exists j t',
    dataToJson s = Some j /\ dataFromJson j t = Some t'
    /\ masterPattern t' = masterPattern s
    /\ (forall step d sp a sl q,
          getStep (masterPattern t') step d sp a sl q
          = getStep (masterPattern s) step d sp a sl q)
    /\ currentSeed t' = currentSeed s
    /\ currentStep t' = currentStep s
    /\ currentSlideActive t' = currentSlideActive s
    /\ currentPitch t'
       = match currentPitch s with Fin _ => currentPitch s | _ => currentPitch t end
    /\ slideTargetPitch t'
       = match slideTargetPitch s with
         | Fin _ => slideTargetPitch s | _ => slideTargetPitch t end
    /\ slideRate t'
       = match slideRate s with Fin _ => slideRate s | _ => slideRate t end
    /\ gatePulse t' = gatePulse t /\ accentPulse t' = accentPulse t
    /\ timeSinceLastClock t' = timeSinceLastClock t
    /\ measuredClockPeriod t' = measuredClockPeriod t
    /\ retriggerGapRemaining t' = retriggerGapRemaining t.
Proof.
  intros Hs Ht Hcur Hseed.
  exists (rootDoc s).
  rewrite (dataToJson_eq s (storable_sized _ Hs)).
  unfold dataFromJson. cbv zeta.
  set (o4 := json_object_set_new
               (json_object_set_new
                  (json_object_set_new
                     (json_object_set_new (JObject []) "version"
                        (Some (JInteger JSON_VERSION)))
                     "seed" (Some (JInteger (currentSeed s))))
                  "currentStep" (Some (JInteger (currentStep s))))
               "masterPattern" (Some (masterDoc (masterPattern s)))).
  set (o5 := json_object_set_new o4 "currentSlideActive"
               (Some (JBool (currentSlideActive s)))).
  assert (Hv : json_object_get (Some (rootDoc s)) "version"
               = Some (JInteger JSON_VERSION)).
  { unfold rootDoc. repeat (rewrite get_set_other by discriminate).
    apply get_set_same. exact I. }
  assert (Hsd : json_object_get (Some (rootDoc s)) "seed"
                = Some (JInteger (currentSeed s))).
  { unfold rootDoc. repeat (rewrite get_set_other by discriminate).
    apply get_set_same. exact I. }
  assert (Hst : json_object_get (Some (rootDoc s)) "currentStep"
                = Some (JInteger (currentStep s))).
  { unfold rootDoc. repeat (rewrite get_set_other by discriminate).
    apply get_set_same. exact I. }
  assert (Hm : json_object_get (Some (rootDoc s)) "masterPattern"
               = Some (masterDoc (masterPattern s))).
  { unfold rootDoc. repeat (rewrite get_set_other by discriminate).
    apply get_set_same. exact I. }
  assert (Hsa : json_object_get (Some (rootDoc s)) "currentSlideActive"
                = Some (JBool (currentSlideActive s))).
  { unfold rootDoc. repeat (rewrite get_set_other by discriminate).
    apply get_set_same. exact I. }
  assert (Ho5 : is_obj o5) by exact I.
  assert (Hcp : json_object_get (Some (rootDoc s)) "currentPitch"
                = json_real (currentPitch s)).
  { unfold rootDoc. repeat (rewrite get_set_other by discriminate).
    fold o4. fold o5. apply get_set_real; [exact Ho5|].
    unfold o5, o4. repeat (rewrite get_set_other by discriminate). reflexivity. }
  assert (Htp : json_object_get (Some (rootDoc s)) "slideTargetPitch"
                = json_real (slideTargetPitch s)).
  { unfold rootDoc. repeat (rewrite get_set_other by discriminate).
    fold o4. fold o5. apply get_set_real.
    - apply is_obj_set. exact Ho5.
    - unfold o5, o4. repeat (rewrite get_set_other by discriminate). reflexivity. }
  assert (Hsr : json_object_get (Some (rootDoc s)) "slideRate"
                = json_real (slideRate s)).
  { unfold rootDoc. fold o4. fold o5. apply get_set_real.
    - apply is_obj_set, is_obj_set. exact Ho5.
    - unfold o5, o4. repeat (rewrite get_set_other by discriminate). reflexivity. }
  clearbody o4 o5.
  rewrite Hv, Hsd, Hst, Hm, Hsa, Hcp, Htp, Hsr.
  cbn [json_integer_value json_boolean_value].
  replace (bool_decide (is_Some (Some (masterDoc (masterPattern s))))
           && (to_int32 JSON_VERSION >=? 2)) with true by reflexivity.
  rewrite (loadMaster_masterDoc _ _ Hs Ht).
  cbn [mbind option_bind].
  eexists. split; [reflexivity|]. split; [reflexivity|].
  cbn [masterPattern currentSeed currentStep currentSlideActive currentPitch
       slideTargetPitch slideRate gatePulse accentPulse timeSinceLastClock
       measuredClockPeriod retriggerGapRemaining].
  rewrite !real_value_json_real.
  rewrite (u32_id _ Hseed), (to_int32_id _ Hcur).
  repeat split; reflexivity.
Qed.

(** *** Loading any document *)

Lemma dataFromJson_eq rootJ s :
  dataFromJson rootJ s =
    (m ← (if bool_decide (is_Some (json_object_get (Some rootJ) "masterPattern"))
             && (storedVersion rootJ >=? 2)
          then Some (loadMaster (json_object_get (Some rootJ) "masterPattern")
                       (masterPattern s))
          else generateMaster (storedSeed rootJ s) (masterPattern s));
     Some (mkAcidSeq (gatePulse s) (accentPulse s) m
       (let stepJ := json_object_get (Some rootJ) "currentStep" in
        if stepJ is Some _ then to_int32 (json_integer_value stepJ)
        else currentStep s)
       (let j := json_object_get (Some rootJ) "currentSlideActive" in
        if j is Some _ then json_boolean_value j else currentSlideActive s)
       (let j := json_object_get (Some rootJ) "slideTargetPitch" in
        if j is Some _ then json_real_value j else slideTargetPitch s)
       (let j := json_object_get (Some rootJ) "currentPitch" in
        if j is Some _ then json_real_value j else currentPitch s)
       (let j := json_object_get (Some rootJ) "slideRate" in
        if j is Some _ then json_real_value j else slideRate s)
       (timeSinceLastClock s) (measuredClockPeriod s)
       (retriggerGapRemaining s) (storedSeed rootJ s))).
Proof. reflexivity. Qed.

(** X19: [dataFromJson] succeeds on every document; without a
    stored pattern, or with a version below 2, the pattern is generated
    again from the stored seed (the current one if none is stored), and
    the mutes of the module stay as they are. *)
Theorem dataFromJson_fallback rootJ s :
  exists s',
    dataFromJson rootJ s = Some s'
    /\ currentSeed s' = storedSeed rootJ s
    /\ gatePulse s' = gatePulse s
    /\ measuredClockPeriod s' = measuredClockPeriod s
    /\ (json_object_get (Some rootJ) "masterPattern" = None
        \/ storedVersion rootJ < 2 ->
        generateMaster (storedSeed rootJ s) (masterPattern s)
          = Some (masterPattern s')
        /\ muted (masterPattern s') = muted (masterPattern s)).
Proof.
  rewrite dataFromJson_eq.
  destruct (generateMaster_inv (storedSeed rootJ s) (masterPattern s))
    as (m & Hm & _ & _ & _ & _ & Hmu).
  destruct (bool_decide (is_Some (json_object_get (Some rootJ) "masterPattern"))
            && (storedVersion rootJ >=? 2)) eqn:E.
  - cbn [mbind option_bind]. eexists. split; [reflexivity|].
    cbn [currentSeed gatePulse measuredClockPeriod masterPattern].
    split; [reflexivity|]. split; [reflexivity|]. split; [reflexivity|].
    apply andb_true_iff in E as [E1 E2]. apply bool_decide_eq_true in E1.
    intros [H|H].
    + rewrite H in E1. destruct E1 as [x Hx]. discriminate Hx.
    + apply Z.geb_le in E2. lia.
  - rewrite Hm. cbn [mbind option_bind]. eexists. split; [reflexivity|].
    cbn [currentSeed gatePulse measuredClockPeriod masterPattern]. auto.
Qed.

(** X20: [dataFromJson] takes the stored step index as it is:
    after loading an index n below -1, the next clock edge asks for step
    n + 1, a negative index into [muted]. *)
Theorem stored_step_not_validated rootJ s s' n p :
  dataFromJson rootJ s = Some s' ->
  json_object_get (Some rootJ) "currentStep" = Some (JInteger n) ->
  in_int32 n -> n < -1 -> 0 <= patternLength p ->
  currentStep s' = n
  /\ nextStep (currentStep s') (patternLength p) = n + 1
  /\ aget (muted (masterPattern s')) (n + 1) = None
  /\ clockEdge p s' = None.
Proof.
  intros H Hget Hn Hneg Hlen. rewrite dataFromJson_eq in H.
  destruct (if bool_decide (is_Some (json_object_get (Some rootJ) "masterPattern"))
               && (storedVersion rootJ >=? 2)
            then Some (loadMaster (json_object_get (Some rootJ) "masterPattern")
                         (masterPattern s))
            else generateMaster (storedSeed rootJ s) (masterPattern s))
    as [m|]; [|discriminate H].
  cbv beta iota delta [mbind option_bind] in H. apply Some_eq_inv in H.
  subst s'. cbn [currentStep masterPattern]. rewrite Hget.
  cbn [json_integer_value]. rewrite (to_int32_id n Hn).
  assert (Hnext : nextStep n (patternLength p) = n + 1).
  { unfold nextStep. destruct (Z.geb_spec (n + 1) (patternLength p)); lia. }
  assert (Hread : aget (muted m) (n + 1) = None).
  { unfold aget. replace (n + 1 <? 0) with true by (symmetry; apply Z.ltb_lt; lia).
    reflexivity. }
  split; [reflexivity|]. split; [exact Hnext|]. split; [exact Hread|].
  rewrite clockEdge_eq. cbv zeta. cbn [currentStep masterPattern].
  rewrite Hnext. unfold resolve, getStep. rewrite Hread. reflexivity.
Qed.

(** ** Notes and voltages *)

Lemma increasing_lookup (l : list Z) :
  StronglySorted Z.lt l ->
  forall i j x y, (i < j)%nat -> l !! i = Some x -> l !! j = Some y -> x < y.
Proof.
  induction 1 as [|a l Hs IH Hall]; intros i j x y Hij Hx Hy;
    [discriminate Hx|].
  destruct j as [|j]; [lia|]. cbn in Hy.
  destruct i as [|i].
  - cbn in Hx. apply Some_eq_inv in Hx. subst x.
    rewrite List.Forall_forall in Hall. apply Hall.
    apply list_elem_of_In. eapply list_elem_of_lookup_2. exact Hy.
  - cbn in Hx. eapply IH; [|exact Hx|exact Hy]. lia.
Qed.

Lemma SCALES_sorted scale :
  scale <> NUM_SCALES ->
  exists sd, aget SCALES (scale_index scale) = Some sd
             /\ 0 < scale_length sd
             /\ StronglySorted Z.lt
                  (take (Z.to_nat (scale_length sd)) (intervals sd)).
Proof.
  intros Hs.
  destruct scale; try congruence;
    (eexists; split; [reflexivity|]; split; [reflexivity|];
     cbn; repeat constructor).
Qed.


Lemma representable_int z : Z.abs z < 2 ^ 24 -> representable (z * one).
Proof.
  intros Hz. unfold representable.
  destruct (Z.eq_dec z 0) as [->|Hnz]; [reflexivity|].
  rewrite Z.abs_mul, (Z.abs_eq one) by (unfold one; lia).
  unfold ulp_exp.
  destruct (Z.ltb_spec (Z.abs z * one) (2 ^ 24)) as [H|H].
  - rewrite Z.pow_0_r. apply Z.mod_1_r.
  - replace (Z.log2 (Z.abs z * one)) with (149 + Z.log2 (Z.abs z))
      by (unfold one; rewrite Z.log2_mul_pow2 by lia; reflexivity).
    assert (Z.log2 (Z.abs z) < 24) by (apply Z.log2_lt_pow2; lia).
    pose proof (Z.log2_nonneg (Z.abs z)).
    apply Z.mod_divide; [apply Z.pow_nonzero; lia|].
    apply Z.divide_mul_r. unfold one.
    exists (2 ^ (149 - (149 + Z.log2 (Z.abs z) - 23))).
    rewrite <- Z.pow_add_r by lia. f_equal. lia.
Qed.

(** Rounding the quotient of a binary32 number times [den] by [den]
    gives the number back. *)
Lemma RN_exact m den : 0 < den -> representable m -> RN (m * den) den = m.
Proof.
  intros Hden.
  assert (Hpos : forall a, 0 <= a -> representable a -> RN (a * den) den = a).
  { intros a Ha Hrep. unfold representable in Hrep.
    rewrite Z.abs_eq in Hrep by lia.
    rewrite RN_nonneg_eq by nia. rewrite Z.div_mul by lia.
    pose proof (ulp_exp_nonneg a) as Hk.
    assert (Hq : 0 < 2 ^ ulp_exp a) by (apply Z.pow_pos_nonneg; lia).
    pose proof (Z.div_mod a (2 ^ ulp_exp a) ltac:(lia)) as Hdm.
    rewrite Hrep, Z.add_0_r in Hdm.
    replace (a * den) with (a / 2 ^ ulp_exp a * (den * 2 ^ ulp_exp a)) by nia.
    rewrite rhe_exact by nia. lia. }
  intros Hrep. destruct (Z.le_gt_cases 0 m) as [H|H]; [auto|].
  replace (m * den) with (- (- m * den)) by lia. rewrite RN_opp.
  rewrite Hpos; [lia|lia|]. apply representable_opp. exact Hrep.
Qed.

Lemma of_Z_exact z : Z.abs z < 2 ^ 24 -> of_Z z = Fin (z * one).
Proof.
  intros Hz. unfold of_Z, round_ratio.
  rewrite RN_fix by (apply representable_int; exact Hz).
  apply pack_Fin. split; [reflexivity|].
  rewrite Z.abs_mul. unfold one, huge. rewrite (Z.abs_eq (2 ^ 149)) by lia.
  assert (Z.abs z * 2 ^ 149 < 2 ^ 24 * 2 ^ 149) by nia.
  assert (2 ^ 24 * 2 ^ 149 < 2 ^ 277) by reflexivity. lia.
Qed.

Lemma div_12_mono a b :
  a <= b -> forall x y, div (Fin a) f_12 = Fin x -> div (Fin b) f_12 = Fin y ->
  x <= y.
Proof.
  intros Hab x y. rewrite f_12_eq. unfold div.
  replace (12 * one =? 0) with false by reflexivity.
  replace (Z.sgn (12 * one)) with 1 by reflexivity.
  replace (Z.abs (12 * one)) with (12 * one) by reflexivity.
  unfold round_ratio. intros Hx Hy.
  apply pack_Fin in Hx as [<- _]. apply pack_Fin in Hy as [<- _].
  apply RN_mono; [reflexivity|]. unfold one. lia.
Qed.

(** X22: [stepToVoltage] is 0 V for a rest and exactly k
    volts for the note 60 + 12 k; a higher note is never a lower
    voltage. *)
Theorem stepToVoltage_volt_per_octave step scale root base :
  (isRest step = true -> stepToVoltage step scale root base = Some f_0)
  /\ (forall k, isRest step = false ->
        getNoteInScale (note step) scale root (octave step + base)
          = Some (60 + 12 * k) ->
        Z.abs k < 2 ^ 20 ->
        stepToVoltage step scale root base = Some (Fin (k * one)))
  /\ (forall step' m m' v v', isRest step = false -> isRest step' = false ->
        getNoteInScale (note step) scale root (octave step + base) = Some m ->
        getNoteInScale (note step') scale root (octave step' + base) = Some m' ->
        m <= m' -> Z.abs (m - 60) < 2 ^ 24 -> Z.abs (m' - 60) < 2 ^ 24 ->
        stepToVoltage step scale root base = Some (Fin v) ->
        stepToVoltage step' scale root base = Some (Fin v') ->
        v <= v').
Proof.
  split; [|split].
  - intros Hr. unfold stepToVoltage. rewrite Hr. reflexivity.
  - intros k Hr Hm Hk. unfold stepToVoltage. rewrite Hr, Hm.
    cbn [mbind option_bind]. f_equal.
    replace (60 + 12 * k - 60) with (12 * k) by lia.
    rewrite of_Z_exact by lia. rewrite f_12_eq. unfold div.
    replace (12 * one =? 0) with false by reflexivity.
    replace (Z.sgn (12 * one)) with 1 by reflexivity.
    replace (Z.abs (12 * one)) with (12 * one) by reflexivity.
    replace (1 * (12 * k * one) * one) with (k * one * (12 * one)) by lia.
    unfold round_ratio.
    rewrite RN_exact; [|reflexivity|apply representable_int; lia].
    apply pack_Fin. split; [reflexivity|].
    rewrite Z.abs_mul. unfold one, huge. rewrite (Z.abs_eq (2 ^ 149)) by lia.
    assert (Z.abs k * 2 ^ 149 < 2 ^ 20 * 2 ^ 149) by nia.
    assert (2 ^ 20 * 2 ^ 149 < 2 ^ 277) by reflexivity. lia.
  - intros step' m m' v v' Hr Hr' Hm Hm' Hle Hb Hb'.
    unfold stepToVoltage. rewrite Hr, Hr', Hm, Hm'.
    cbn [mbind option_bind]. intros Hv Hv'.
    apply Some_eq_inv in Hv, Hv'.
    rewrite of_Z_exact in Hv, Hv' by assumption.
    eapply div_12_mono; [|exact Hv|exact Hv']. unfold one. lia.
Qed.

(** ** Summary theorems on the generator *)

Lemma lookup_repeat {A : Type} (x : A) n : forall k,
  (k < n)%nat -> repeat x n !! k = Some x.
Proof.
  induction n as [|n IH]; intros k Hk; [lia|].
  destruct k as [|k]; [reflexivity|]. cbn. apply IH. lia.
Qed.


Lemma listed_in_permutation (l l' : list Z) d :
  l ≡ₚ l' -> d ∈ l' ->
  exists i, 0 <= i < Z.of_nat (length l') /\ aget l i = Some d.
Proof.
  intros Hp Hin. rewrite <- Hp in Hin.
  apply list_elem_of_lookup in Hin as [k Hk].
  pose proof (lookup_lt_Some _ _ _ Hk) as Hlt.
  apply Permutation_length in Hp.
  exists (Z.of_nat k). split; [lia|]. rewrite aget_nat. exact Hk.
Qed.

(** X2: for every seed [generateMaster] returns a pattern;
    [scalePriorityOrder] is a permutation of 0..6 and [barActivationOrder]
    a permutation of 0..15, each of the 64 steps holds a pool index in
    [0, 7], an octave in [-1, 2] and two thresholds in [0, 1], and the
    mutes are left as they were. *)
Theorem generateMaster_invariants seed output :
  exists m,
    generateMaster seed output = Some m
    /\ scalePriorityOrder m ≡ₚ [0; 1; 2; 3; 4; 5; 6]
    /\ barActivationOrder m
       ≡ₚ [0; 1; 2; 3; 4; 5; 6; 7; 8; 9; 10; 11; 12; 13; 14; 15]
    /\ (forall d, 0 <= d < SCALE_SIZE ->
          exists i, 0 <= i < SCALE_SIZE
                    /\ aget (scalePriorityOrder m) i = Some d)
    /\ (forall b, 0 <= b < BAR_LEN ->
          exists i, 0 <= i < BAR_LEN
                    /\ aget (barActivationOrder m) i = Some b)
    /\ length (steps m) = 64%nat
    /\ Forall generated_step (steps m)
    /\ muted m = muted output
    /\ (length (muted output) = Z.to_nat MAX_STEPS -> wf_pattern m).
Proof.
  destruct (generateMaster_inv seed output)
    as (m & Hgen & Hsc & Hbar & Hlen & Hall & Hmut).
  exists m. split; [exact Hgen|]. split; [exact Hsc|]. split; [exact Hbar|].
  split; [|split; [|split; [exact Hlen|split; [exact Hall|split; [exact Hmut|]]]]].
  - intros d Hd. unfold SCALE_SIZE in *.
    destruct (listed_in_permutation _ _ d Hsc) as (i & Hi & Hget);
      [apply list_elem_of_In; cbn; lia|].
    exists i. split; [cbn in Hi; lia|exact Hget].
  - intros b Hb. unfold BAR_LEN in *.
    destruct (listed_in_permutation _ _ b Hbar) as (i & Hi & Hget);
      [apply list_elem_of_In; cbn; lia|].
    exists i. split; [cbn in Hi; lia|exact Hget].
  - intros Hmu. unfold wf_pattern.
    apply Permutation_length in Hsc, Hbar. cbn in Hsc, Hbar.
    rewrite Hsc, Hbar, Hlen, Hmut, Hmu. repeat split; try reflexivity.
    eapply Forall_impl; [exact Hall|]. intros ms (H & _). lia.
Qed.

(** X6: [generateNewPattern] always succeeds, leaves the
    playback position alone and clears every mute: at full density each
    of the 64 steps then sounds a degree 0..6, whatever was muted
    before. *)
Theorem generateNewPattern_unmutes now s step sp a sl :
  0 <= step < MAX_STEPS -> percent_ok sp ->
  exists s' st,
    generateNewPattern now s = Some s'
    /\ muted (masterPattern s') = repeat false (Z.to_nat MAX_STEPS)
    /\ currentStep s' = currentStep s
    /\ getStep (masterPattern s') step (of_Z 100) sp a sl true = Some st
    /\ isRest st = false /\ 0 <= note st <= 6.
Proof.
  intros Hstep Hsp. unfold generateNewPattern. cbv zeta.
  destruct (generateMaster_inv
              (Z.lxor (u32 now) (u32 (currentSeed s * 1664525 + 1013904223)))
              (masterPattern s)) as (m & -> & Hsc & Hbar & Hlen & Hall & _).
  cbn [mbind option_bind].
  destruct (full_density_note (clearMutes m) step sp a sl Hsc Hbar Hlen Hall Hstep)
    as (st & Hst & Hnote); [|assumption|].
  { unfold clearMutes. cbn [muted]. unfold aget.
    replace (step <? 0) with false by (symmetry; apply Z.ltb_ge; lia).
    apply lookup_repeat. unfold MAX_STEPS in *. lia. }
  eexists. exists st. split; [reflexivity|].
  cbn [masterPattern currentStep].
  split; [reflexivity|]. split; [reflexivity|]. split; [exact Hst|].
  split; [|exact Hnote]. unfold isRest. apply Z.ltb_ge. lia.
Qed.

(** X10: [findNotePoolIndex] inverts the priority order: the
    index that holds a degree is found again; the result is an index of
    the order, and 0 for a degree that is not listed. *)
Theorem findNotePoolIndex_spec m d :
  0 <= findNotePoolIndex m d < SCALE_SIZE
  /\ (forall i, scalePriorityOrder m ≡ₚ [0; 1; 2; 3; 4; 5; 6] ->
        aget (scalePriorityOrder m) i = Some d -> findNotePoolIndex m d = i)
  /\ (d ∉ take (Z.to_nat SCALE_SIZE) (scalePriorityOrder m) ->
      findNotePoolIndex m d = 0).
Proof.
  split; [apply findNotePoolIndex_range|]. split.
  - intros i Hp Hi. apply findNotePoolIndex_inverse; assumption.
  - apply findNotePoolIndex_absent.
Qed.

(** ** Counting the active steps *)

Lemma activeScan_true order barPos c : forall fuel i,
  0 <= i ->
  activeScan order barPos c fuel i = Some true ->
  exists k, (Z.to_nat i <= k)%nat /\ Z.of_nat k < c /\ Z.of_nat k < BAR_LEN
            /\ order !! k = Some barPos.
Proof.
  induction fuel as [|fuel IH]; intros i Hi H; [discriminate H|].
  cbn [activeScan] in H.
  destruct (Z.ltb_spec i c) as [Hc|]; [|discriminate H].
  destruct (Z.ltb_spec i BAR_LEN) as [Hb|]; [|discriminate H].
  cbn [andb] in H.
  destruct (aget order i) as [x|] eqn:E; [|discriminate H].
  cbn [mbind option_bind] in H.
  destruct (Z.eqb_spec x barPos) as [->|Hne].
  - exists (Z.to_nat i). unfold aget in E.
    replace (i <? 0) with false in E by (symmetry; apply Z.ltb_ge; lia).
    repeat split; try lia. exact E.
  - destruct (IH (i + 1) ltac:(lia) H) as (k & Hk & Hkc & Hkb & Hfound).
    exists k. repeat split; try lia. exact Hfound.
Qed.

Lemma NoDup_bar_positions :
  NoDup [0; 1; 2; 3; 4; 5; 6; 7; 8; 9; 10; 11; 12; 13; 14; 15].
Proof.
  apply (NoDup_fmap_2 Z.of_nat (seq 0 16)). apply NoDup_seq.
Qed.

(** A step is active exactly when its bar position is among the first
    [activeCount] entries of the activation order. *)
Lemma isStepActive_iff m step d c :
  barActivationOrder m
    ≡ₚ [0; 1; 2; 3; 4; 5; 6; 7; 8; 9; 10; 11; 12; 13; 14; 15] ->
  activeCountOf d = Some c -> 0 <= c <= 16 ->
  isStepActive m step d = Some true
  <-> Z.rem step BAR_LEN ∈ take (Z.to_nat c) (barActivationOrder m).
Proof.
  intros Hp Hc Hcr. unfold isStepActive. rewrite Hc. cbn [mbind option_bind].
  pose proof (Permutation_length Hp) as Hlen. cbn in Hlen.
  split.
  - intros H. apply activeScan_true in H; [|lia].
    destruct H as (k & _ & Hkc & _ & Hk).
    apply (list_elem_of_lookup_2 _ k). rewrite lookup_take_lt by lia. exact Hk.
  - intros H. apply list_elem_of_lookup in H as [k Hk].
    pose proof (lookup_lt_Some _ _ _ Hk) as Hlt. rewrite length_take in Hlt.
    rewrite lookup_take_lt in Hk by lia.
    apply (activeScan_found _ _ c (Z.to_nat BAR_LEN) 0 k);
      try (unfold BAR_LEN; lia); [|exact Hk].
    intros j Hj. apply lookup_lt_is_Some_2. lia.
Qed.

Lemma rem_in_bar k i :
  (16 * k <= i < 16 * k + 16)%nat ->
  Z.rem (Z.of_nat i) BAR_LEN = Z.of_nat (i - 16 * k).
Proof.
  intros Hi. unfold BAR_LEN. rewrite Z.rem_mod_nonneg by lia.
  symmetry. apply (Z.mod_unique_pos _ _ (Z.of_nat k)); lia.
Qed.

Lemma activeInBar_length m d c k :
  barActivationOrder m
    ≡ₚ [0; 1; 2; 3; 4; 5; 6; 7; 8; 9; 10; 11; 12; 13; 14; 15] ->
  activeCountOf d = Some c -> 0 <= c <= 16 ->
  length (activeInBar m d k) = Z.to_nat c.
Proof.
  intros Hp Hc Hcr.
  pose proof (Permutation_length Hp) as Hlen. cbn in Hlen.
  assert (Hnd : NoDup (barActivationOrder m)).
  { rewrite Hp. apply NoDup_bar_positions. }
  assert (Hperm : (fun i => Z.rem (Z.of_nat i) BAR_LEN) <$> activeInBar m d k
                  ≡ₚ take (Z.to_nat c) (barActivationOrder m)).
  { apply NoDup_Permutation.
    - apply NoDup_fmap_2_strong.
      + intros i j Hi Hj Heq. unfold activeInBar in Hi, Hj.
        apply list_elem_of_filter in Hi as [_ Hi], Hj as [_ Hj].
        apply elem_of_seq in Hi, Hj.
        rewrite (rem_in_bar k i), (rem_in_bar k j) in Heq by lia. lia.
      + unfold activeInBar. apply NoDup_filter, NoDup_seq.
    - apply (sublist_NoDup _ _ Hnd (sublist_take _ _)).
    - intros b. rewrite list_elem_of_fmap. split.
      + intros (i & -> & Hi). unfold activeInBar in Hi.
        apply list_elem_of_filter in Hi as [Hact _].
        apply (isStepActive_iff m _ d c Hp Hc Hcr). exact Hact.
      + intros Hb.
        assert (Hb16 : 0 <= b < 16).
        { assert (Hin : b ∈ barActivationOrder m).
          { pose proof Hb as Hb'. apply elem_of_take in Hb' as (i & Hi & _).
            eapply list_elem_of_lookup_2. exact Hi. }
          rewrite Hp in Hin. apply list_elem_of_In in Hin. cbn in Hin. lia. }
        exists (16 * k + Z.to_nat b)%nat.
        assert (Hrem : Z.rem (Z.of_nat (16 * k + Z.to_nat b)) BAR_LEN = b).
        { rewrite (rem_in_bar k) by lia. lia. }
        split; [symmetry; exact Hrem|].
        unfold activeInBar. apply list_elem_of_filter. split.
        * apply (isStepActive_iff m _ d c Hp Hc Hcr). rewrite Hrem. exact Hb.
        * apply elem_of_seq. lia. }
  apply Permutation_length in Hperm.
  rewrite length_fmap, length_take in Hperm. lia.
Qed.

(** X23: when the activation order is a permutation of 0..15, the
    number of active steps in every bar is the count that the density
    gives, round(16 * density / 100) within [0, 16]: none at density 0,
    8 at density 50, all 16 at density 100. *)
Theorem active_steps_per_bar m d k :
  barActivationOrder m
    ≡ₚ [0; 1; 2; 3; 4; 5; 6; 7; 8; 9; 10; 11; 12; 13; 14; 15] ->
  percent_ok d ->
  exists c,
    activeCountOf d = Some c /\ 0 <= c <= 16
    /\ Z.of_nat (length (activeInBar m d k)) = c
    /\ (d = of_Z 0 -> c = 0) /\ (d = of_Z 50 -> c = 8)
    /\ (d = of_Z 100 -> c = 16).
Proof.
  intros Hp (n & -> & Hn).
  destruct (activeCountOf_range n Hn) as (c & Hc & Hcr).
  exists c. split; [exact Hc|]. split; [exact Hcr|].
  split; [rewrite (activeInBar_length m _ c k Hp Hc Hcr); lia|].
  assert (H0 : activeCountOf (of_Z 0) = Some 0) by (vm_compute; reflexivity).
  assert (H50 : activeCountOf (of_Z 50) = Some 8) by (vm_compute; reflexivity).
  assert (H100 : activeCountOf (of_Z 100) = Some 16) by (vm_compute; reflexivity).
  repeat split; intros E; rewrite E in Hc;
    [rewrite H0 in Hc | rewrite H50 in Hc | rewrite H100 in Hc];
    apply Some_eq_inv in Hc; lia.
Qed.

(** ** The range of a resolved step *)

(** X24: on a generated pattern every step resolves, for a density
    and a spread in range, to a rest or to a degree 0..6 in an octave
    -1..2, also when a draw of 1.0 left a pool index of 7 or an octave
    of 2 in the pattern. *)
Theorem resolved_step_range seed output step d sp a sl :
  length (muted output) = Z.to_nat MAX_STEPS ->
  0 <= step < MAX_STEPS -> percent_ok d -> percent_ok sp ->
  exists m st,
    generateMaster seed output = Some m
    /\ getStep m step d sp a sl true = Some st
    /\ (st = rest_step
        \/ (0 <= note st <= 6 /\ -1 <= octave st <= 2)).
Proof.
  intros Hmu Hstep (n & -> & Hn) (k & -> & Hk).
  destruct (generateMaster_inv seed output)
    as (m & Hgen & Hsc & Hbar & Hlen & Hall & Hmut).
  exists m. rewrite Hgen.
  pose proof (Permutation_length Hsc) as Hlsc. cbn in Hlsc.
  pose proof (Permutation_length Hbar) as Hlbar. cbn in Hlbar.
  unfold getStep.
  destruct (aget_Some (muted m) step) as [mu ->];
    [rewrite Hmut, Hmu; lia|].
  cbn [mbind option_bind]. destruct mu; [eauto|].
  destruct (isStepActive_total m step (Fin n)) as [b ->];
    [|exists n; auto|].
  { unfold wf_pattern. rewrite Hlbar, Hlsc, Hlen, Hmut, Hmu.
    repeat split; try reflexivity.
    eapply Forall_impl; [exact Hall|]. intros ms (H & _). lia. }
  cbn [mbind option_bind]. destruct b; cbn [negb]; [|eauto].
  unfold getScaleDegree.
  destruct (aget_Some (steps m) step) as [ms Hms];
    [rewrite Hlen; unfold MAX_STEPS in *; lia|].
  rewrite Hms. cbn [mbind option_bind].
  destruct (spreadCountOf_range k Hk) as (c & -> & Hc).
  cbn [mbind option_bind].
  pose proof (aget_Forall _ _ _ _ Hall Hms) as (Hnpi & Hoct & _).
  assert (Hdeg : exists deg,
            (if notePoolIndex ms <? c
             then aget (scalePriorityOrder m) (notePoolIndex ms)
             else aget (scalePriorityOrder m) 0) = Some deg
            /\ 0 <= deg <= 6).
  { destruct (Z.ltb_spec (notePoolIndex ms) c).
    - destruct (aget_Some (scalePriorityOrder m) (notePoolIndex ms))
        as [deg Hd]; [lia|].
      exists deg. split; [exact Hd|]. eapply scale_degree_listed; eauto.
    - destruct (aget_Some (scalePriorityOrder m) 0) as [deg Hd]; [lia|].
      exists deg. split; [exact Hd|]. eapply scale_degree_listed; eauto. }
  destruct Hdeg as (deg & -> & Hdeg). cbn [mbind option_bind].
  replace (deg <? 0) with false by (symmetry; apply Z.ltb_ge; lia).
  cbn [mbind option_bind].
  eexists. split; [reflexivity|]. split; [reflexivity|].
  right. cbn [note octave]. lia.
Qed.

(** ** The legacy generator *)

(** *** Scaling by a power of two commutes with rounding *)

Lemma rhe_scale s p q : 0 < s -> 0 < q -> rhe (s * p) (s * q) = rhe p q.
Proof.
  intros Hs Hq. unfold rhe. cbv zeta.
  rewrite Z.div_mul_cancel_l by lia.
  rewrite Z.mul_mod_distr_l by lia.
  replace (2 * (s * (p mod q))) with (s * (2 * (p mod q))) by lia.
  destruct (Z.compare_spec (s * (2 * (p mod q))) (s * q));
    destruct (Z.compare_spec (2 * (p mod q)) q); try reflexivity; nia.
Qed.

Lemma log2_scale16 q q' :
  0 < q -> 16 * q <= q' < 16 * (q + 1) -> Z.log2 q' = Z.log2 q + 4.
Proof.
  intros Hq Hq'. pose proof (Z.log2_spec q Hq) as [Hlo Hhi].
  pose proof (Z.log2_nonneg q) as Hl.
  apply Z.log2_unique; [lia|].
  rewrite Z.pow_add_r by lia.
  replace (Z.succ (Z.log2 q + 4)) with (Z.succ (Z.log2 q) + 4) by lia.
  rewrite (Z.pow_add_r 2 (Z.succ (Z.log2 q))) by lia.
  change (2 ^ 4) with 16. lia.
Qed.

(** In the normal range, 16 times a number rounds to 16 times its
    rounding. *)
Lemma RN_scale16 a den :
  0 < den -> 0 <= a -> 2 ^ 24 <= a / den ->
  RN (16 * a) den = 16 * RN a den.
Proof.
  intros Hden Ha Hq.
  rewrite !RN_nonneg_eq by lia.
  assert (Hq' : 16 * (a / den) <= 16 * a / den < 16 * (a / den + 1)).
  { pose proof (Z.div_mod a den ltac:(lia)) as Hdm.
    pose proof (Z.mod_pos_bound a den Hden) as Hm.
    split.
    - apply Z.div_le_lower_bound; [lia|]. nia.
    - apply Z.div_lt_upper_bound; [lia|]. nia. }
  assert (Hk : ulp_exp (16 * a / den) = ulp_exp (a / den) + 4).
  { unfold ulp_exp.
    replace (a / den <? 2 ^ 24) with false by (symmetry; apply Z.ltb_ge; lia).
    replace (16 * a / den <? 2 ^ 24) with false
      by (symmetry; apply Z.ltb_ge; lia).
    rewrite (log2_scale16 (a / den) (16 * a / den)) by lia. lia. }
  rewrite Hk. pose proof (ulp_exp_nonneg (a / den)) as Hk0.
  rewrite Z.pow_add_r by lia. change (2 ^ 4) with 16.
  replace (den * (2 ^ ulp_exp (a / den) * 16))
    with (16 * (den * 2 ^ ulp_exp (a / den))) by lia.
  rewrite rhe_scale; [lia|lia|].
  assert (0 < 2 ^ ulp_exp (a / den)) by (apply Z.pow_pos_nonneg; lia). nia.
Qed.

Lemma representable_16 x : representable x -> representable (16 * x).
Proof.
  assert (Hpos : forall a, 0 <= a -> representable a -> representable (16 * a)).
  { intros a Ha. unfold representable. rewrite !Z.abs_eq by lia.
    unfold ulp_exp.
    destruct (Z.ltb_spec a (2 ^ 24)) as [Hs|Hs].
    - intros _. destruct (Z.ltb_spec (16 * a) (2 ^ 24)) as [Hs'|Hs'].
      + rewrite Z.pow_0_r. apply Z.mod_1_r.
      + assert (Hl : Z.log2 (16 * a) < 28).
        { apply Z.log2_lt_pow2; [lia|]. change (2 ^ 28) with (16 * 2 ^ 24). lia. }
        assert (Hl' : 24 <= Z.log2 (16 * a)).
        { apply Z.log2_le_pow2; lia. }
        apply Z.mod_divide; [apply Z.pow_nonzero; lia|].
        apply Z.divide_mul_l.
        exists (2 ^ (4 - (Z.log2 (16 * a) - 23))).
        rewrite <- Z.pow_add_r by lia.
        replace (4 - (Z.log2 (16 * a) - 23) + (Z.log2 (16 * a) - 23)) with 4
          by lia.
        reflexivity.
    - replace (16 * a <? 2 ^ 24) with false by (symmetry; apply Z.ltb_ge; lia).
      rewrite (log2_scale16 a (16 * a)) by lia.
      assert (Hl : 24 <= Z.log2 a) by (apply Z.log2_le_pow2; lia).
      intros Hrep.
      replace (Z.log2 a + 4 - 23) with (Z.log2 a - 23 + 4) by lia.
      rewrite Z.pow_add_r by lia. change (2 ^ 4) with 16.
      rewrite (Z.mul_comm (2 ^ (Z.log2 a - 23)) 16).
      rewrite Z.mul_mod_distr_l;
        [rewrite Hrep; reflexivity
        | first [lia | apply Z.pow_nonzero; lia]..]. }
  intros Hrep. destruct (Z.le_gt_cases 0 x) as [H|H]; [auto|].
  replace (16 * x) with (- (16 * - x)) by lia.
  apply representable_opp, Hpos; [lia|]. apply representable_opp. exact Hrep.
Qed.

Lemma roundZ_small y : 0 <= y <= 2 ^ 28 -> roundZ y = 0.
Proof.
  intros Hy. unfold roundZ. rewrite Z.abs_eq by lia.
  rewrite Z.div_small; [lia|].
  unfold one. split; [|].
  - assert (0 <= 2 ^ 149 / 2) by (vm_compute; discriminate). lia.
  - replace (2 ^ 149 / 2) with (2 ^ 148) by reflexivity. lia.
Qed.

(** The count of the legacy expression [16 * (d / 100)] is the count of
    [16 * d / 100]. *)
Lemma stepsPerBar_percentCount n :
  representable n -> 0 <= n <= 100 * one ->
  stepsPerBar (Fin n) = percentCount BAR_LEN (Fin n).
Proof.
  intros Hrep Hn. unfold stepsPerBar, percentCount.
  replace (of_Z BAR_LEN) with (Fin (16 * one)) by (vm_compute; reflexivity).
  rewrite f_100_eq.
  pose proof one_pos as Hone.
  (* the master expression *)
  assert (Hm : mul (Fin (16 * one)) (Fin n) = Fin (16 * n)).
  { unfold mul, round_ratio.
    replace (16 * one * n) with (16 * n * one) by lia.
    rewrite RN_exact; [|lia|apply representable_16; exact Hrep].
    apply pack_Fin. split; [reflexivity|].
    rewrite Z.abs_eq by lia. unfold one, huge in *. lia. }
  rewrite Hm.
  unfold div.
  replace (100 * one =? 0) with false by (vm_compute; reflexivity).
  replace (Z.sgn (100 * one)) with 1 by (vm_compute; reflexivity).
  replace (Z.abs (100 * one)) with (100 * one) by (vm_compute; reflexivity).
  rewrite !Z.mul_1_l.
  (* the quotient d / 100 *)
  assert (Hx : exists x, round_ratio (n * one) (100 * one) = Fin x
                         /\ x = RN (n * one) (100 * one) /\ 0 <= x <= one).
  { destruct (round_ratio_between (100 * one) (0 * one) (n * one)
                (100 * one * one) 0 one) as (x & Hx & Hb);
      [lia | nia | reflexivity | vm_compute; reflexivity |].
    exists x. split; [exact Hx|]. split; [|lia].
    unfold round_ratio in Hx. apply pack_Fin in Hx as [Hx _]. lia. }
  destruct Hx as (x & Hx & Hxeq & Hxb). rewrite Hx.
  assert (Hl : mul (Fin (16 * one)) (Fin x) = Fin (16 * x)).
  { unfold mul, round_ratio.
    replace (16 * one * x) with (16 * x * one) by lia.
    rewrite RN_exact; [|lia|].
    - apply pack_Fin. split; [reflexivity|].
      rewrite Z.abs_eq by lia. unfold one, huge in *. lia.
    - apply representable_16. rewrite Hxeq. apply RN_representable. lia. }
  rewrite Hl.
  assert (Hquot : exists M, round_ratio (16 * n * one) (100 * one) = Fin M
                            /\ M = RN (16 * n * one) (100 * one)).
  { destruct (round_ratio_between (100 * one) (0 * one) (16 * n * one)
                (16 * (100 * one) * one) 0 (16 * one)) as (M & HM & Hb);
      [lia | nia | reflexivity | vm_compute; reflexivity |].
    exists M. split; [exact HM|].
    unfold round_ratio in HM. apply pack_Fin in HM as [HM _]. lia. }
  destruct Hquot as (M & HM & HMeq). rewrite HM.
  rewrite !round_Fin. f_equal. f_equal. f_equal.
  destruct (Z.le_gt_cases (2 ^ 24) (n * one / (100 * one))) as [Hnorm|Hsub].
  - f_equal. rewrite HMeq, Hxeq.
    replace (16 * n * one) with (16 * (n * one)) by lia.
    symmetry. apply RN_scale16; [lia|nia|exact Hnorm].
  - assert (Hx28 : 0 <= 16 * x <= 2 ^ 28).
    { split; [lia|]. rewrite Hxeq.
      rewrite RN_nonneg_eq by nia.
      unfold ulp_exp.
      replace (n * one / (100 * one) <? 2 ^ 24) with true
        by (symmetry; apply Z.ltb_lt; lia).
      rewrite Z.pow_0_r, !Z.mul_1_r.
      pose proof (rhe_bounds (n * one) (100 * one) ltac:(lia)).
      change (2 ^ 28) with (16 * 2 ^ 24). lia. }
    assert (HM28 : 0 <= M <= 2 ^ 28).
    { rewrite HMeq. split.
      - apply RN_nonneg; [lia|nia].
      - assert (Hle : 16 * n * one <= 2 ^ 28 * (100 * one)).
        { assert (n * one < 2 ^ 24 * (100 * one)).
          { pose proof (Z.div_mod (n * one) (100 * one) ltac:(lia)) as Hdm.
            pose proof (Z.mod_pos_bound (n * one) (100 * one) ltac:(lia)) as Hmb.
            assert ((100 * one) * ((n * one) / (100 * one) + 1)
                    <= (100 * one) * 2 ^ 24)
              by (apply Z.mul_le_mono_nonneg_l; lia).
            lia. }
          change (2 ^ 28) with (16 * 2 ^ 24). lia. }
        pose proof (RN_mono _ _ (100 * one) ltac:(lia) Hle) as Hmono.
        rewrite (RN_exact (2 ^ 28) (100 * one)) in Hmono;
          [exact Hmono | lia | vm_compute; reflexivity]. }
    rewrite (roundZ_small _ Hx28), (roundZ_small _ HM28). reflexivity.
Qed.

(** *** The phases of both generators *)

Lemma generateMaster_phases seed output :
  exists ws r1 wb r2 l,
    weighScale (Z.to_nat SCALE_SIZE) 0 (SFC32_seed seed) = (ws, r1)
    /\ weighBar (Z.to_nat BAR_LEN) 0 r1 = (wb, r2)
    /\ genSteps (Z.to_nat MAX_STEPS) 0 r2 = Some l
    /\ generateMaster seed output
       = Some {| barActivationOrder :=
                   map ws_step (bubbleSort ws_weight (Z.to_nat BAR_LEN) wb);
                 scalePriorityOrder :=
                   map wn_index (bubbleSort wn_weight (Z.to_nat SCALE_SIZE) ws);
                 steps := l;
                 muted := muted output |}.
Proof.
  unfold generateMaster.
  destruct (weighScale (Z.to_nat SCALE_SIZE) 0 (SFC32_seed seed))
    as [ws r1] eqn:Es.
  destruct (weighBar (Z.to_nat BAR_LEN) 0 r1) as [wb r2] eqn:Eb.
  destruct (genSteps_total (Z.to_nat MAX_STEPS) 0 r2) as (l & Hl & _).
  exists ws, r1, wb, r2, l. rewrite Hl. cbn [mbind option_bind].
  repeat split; try reflexivity; assumption.
Qed.

Lemma generate_phases params pat :
  generate params = Some pat ->
  exists ws r1 wb r2 c sel sdl numSteps act,
    weighScale (Z.to_nat SCALE_SIZE) 0 (SFC32_seed (gp_seed params)) = (ws, r1)
    /\ weighBar (Z.to_nat BAR_LEN) 0 r1 = (wb, r2)
    /\ legacySpreadCount (gp_spread params) = Some c
    /\ selectNotes c
         (map wn_index (bubbleSort wn_weight (Z.to_nat SCALE_SIZE) ws))
       = Some sel
    /\ genStepData c (Z.to_nat MAX_STEPS) 0 r2 = Some sdl
    /\ stepsPerBar (gp_density params) = Some numSteps
    /\ markActive (Z.to_nat BAR_LEN) 0 numSteps
         (map ws_step (bubbleSort ws_weight (Z.to_nat BAR_LEN) wb))
         (repeat false (Z.to_nat BAR_LEN)) = Some act
    /\ fillSteps (Z.to_nat MAX_STEPS) 0 act sdl sel params
       = Some (pat_steps pat)
    /\ pat_length pat = MAX_STEPS.
Proof.
  unfold generate.
  destruct (weighScale (Z.to_nat SCALE_SIZE) 0 (SFC32_seed (gp_seed params)))
    as [ws r1] eqn:Es.
  destruct (legacySpreadCount (gp_spread params)) as [c|] eqn:Ec;
    [|discriminate].
  cbn [mbind option_bind].
  destruct (selectNotes c _) as [sel|] eqn:Esel; [|discriminate].
  cbn [mbind option_bind].
  destruct (weighBar (Z.to_nat BAR_LEN) 0 r1) as [wb r2] eqn:Eb.
  destruct (genStepData c (Z.to_nat MAX_STEPS) 0 r2) as [sdl|] eqn:Esd;
    [|discriminate].
  cbn [mbind option_bind].
  destruct (stepsPerBar (gp_density params)) as [numSteps|] eqn:En;
    [|discriminate].
  cbn [mbind option_bind].
  destruct (markActive _ _ _ _ _) as [act|] eqn:Eact; [|discriminate].
  cbn [mbind option_bind].
  destruct (fillSteps _ _ _ _ _ _) as [newSteps|] eqn:Efill; [|discriminate].
  cbn [mbind option_bind]. intros H. apply Some_eq_inv in H. subst pat.
  cbn [pat_steps pat_length].
  exists ws, r1, wb, r2, c, sel, sdl, numSteps, act.
  repeat split; try reflexivity; assumption.
Qed.

(** *** The two step loops draw the same values *)

Lemma randomInt_rng lo hi r k r' :
  randomInt lo hi r = Some (k, r') -> r' = snd (next r).
Proof.
  unfold randomInt. destruct (next r) as [x r1].
  destruct (to_int _) as [n|]; [|discriminate].
  cbn [mbind option_bind snd]. intros H. apply Some_eq_inv in H.
  apply pair_eq_inv in H as [_ <-]. reflexivity.
Qed.

Lemma genStepData_S c n i rng :
  genStepData c (S n) i rng =
    '(noteIndex, rng) ←
      (if Z.rem i 4 =? 0 then
         let '(x, rng) := next rng in
         if gtb x f_0_3 then Some (0, rng)
         else randomInt 0 (c - 1) rng
       else randomInt 0 (c - 1) rng);
    '(oct, rng) ← randomInt (-1) 1 rng;
    let '(accentProb, rng) := next rng in
    let '(slideProb, rng) := next rng in
    rest ← genStepData c n (i + 1) rng;
    Some (mkStepData noteIndex oct accentProb slideProb :: rest).
Proof. reflexivity. Qed.

Lemma pool_draw_rng hi hi' i r k r1 k' r1' :
  (if Z.rem i 4 =? 0 then
     let '(x, rng) := next r in
     if gtb x f_0_3 then Some (0, rng) else randomInt 0 hi rng
   else randomInt 0 hi r) = Some (k, r1) ->
  (if Z.rem i 4 =? 0 then
     let '(x, rng) := next r in
     if gtb x f_0_3 then Some (0, rng) else randomInt 0 hi' rng
   else randomInt 0 hi' r) = Some (k', r1') ->
  r1 = r1'.
Proof.
  destruct (Z.rem i 4 =? 0).
  - destruct (next r) as [x r0]. destruct (gtb x f_0_3).
    + intros H H'. apply Some_eq_inv, pair_eq_inv in H as [_ <-].
      apply Some_eq_inv, pair_eq_inv in H' as [_ <-]. reflexivity.
    + intros H H'. apply randomInt_rng in H, H'. congruence.
  - intros H H'. apply randomInt_rng in H, H'. congruence.
Qed.

Lemma genSteps_genStepData c n : forall i r l l',
  genSteps n i r = Some l -> genStepData c n i r = Some l' ->
  Forall2 same_draws l l'.
Proof.
  induction n as [|n IH]; intros i r l l' H H'.
  - cbn in H, H'. apply Some_eq_inv in H, H'. subst. constructor.
  - rewrite genSteps_S in H. rewrite genStepData_S in H'.
    destruct (if Z.rem i 4 =? 0
              then let '(x, rng) := next r in
                   if gtb x f_0_3 then Some (0, rng)
                   else randomInt 0 (SCALE_SIZE - 1) rng
              else randomInt 0 (SCALE_SIZE - 1) r) as [[k r1]|] eqn:E;
      [|discriminate H].
    destruct (if Z.rem i 4 =? 0
              then let '(x, rng) := next r in
                   if gtb x f_0_3 then Some (0, rng)
                   else randomInt 0 (c - 1) rng
              else randomInt 0 (c - 1) r) as [[k' r1']|] eqn:E';
      [|discriminate H'].
    pose proof (pool_draw_rng _ _ _ _ _ _ _ _ E E') as <-.
    cbn [mbind option_bind] in H, H'.
    destruct (randomInt (-1) 1 r1) as [[o r2]|]; [|discriminate H].
    cbn [mbind option_bind] in H, H'.
    destruct (next r2) as [ap r3]. destruct (next r3) as [sp r4].
    destruct (genSteps n (i + 1) r4) as [rest|] eqn:Er; [|discriminate H].
    destruct (genStepData c n (i + 1) r4) as [rest'|] eqn:Er';
      [|discriminate H'].
    cbn [mbind option_bind] in H, H'. apply Some_eq_inv in H, H'. subst l l'.
    constructor; [repeat split|]. eapply IH; eassumption.
Qed.

(** *** The rhythm mask of the legacy generator *)

Lemma markActive_spec order numSteps : forall fuel i active active',
  0 <= i -> (16 <= Z.to_nat i + fuel)%nat ->
  markActive fuel i numSteps order active = Some active' ->
  length active' = length active
  /\ forall b : nat,
       active' !! b = Some true
       <-> (active !! b = Some true
            \/ ((b < length active)%nat
                /\ exists k, (Z.to_nat i <= k)%nat /\ Z.of_nat k < numSteps
                             /\ (k < 16)%nat
                             /\ order !! k = Some (Z.of_nat b))).
Proof.
  induction fuel as [|fuel IH]; intros i active active' Hi Hfuel H.
  - cbn in H. apply Some_eq_inv in H. subst active'. split; [reflexivity|].
    intros b. split; [auto|]. intros [Hb|(_ & k & Hk & _ & Hk16 & _)];
      [exact Hb|lia].
  - cbn [markActive] in H.
    destruct ((i <? numSteps) && (i <? BAR_LEN)) eqn:Econd.
    + apply andb_true_iff in Econd as [E1 E2].
      apply Z.ltb_lt in E1, E2. unfold BAR_LEN in E2.
      destruct (aget order i) as [b0|] eqn:Eb; [|discriminate H].
      cbn [mbind option_bind] in H.
      destruct ((0 <=? b0) && (b0 <? Z.of_nat (length active))) eqn:Erange;
        [|discriminate H].
      apply andb_true_iff in Erange as [R1 R2].
      apply Z.leb_le in R1. apply Z.ltb_lt in R2.
      apply IH in H; [|lia|lia].
      destruct H as [Hlen Hiff]. rewrite length_insert in Hlen.
      split; [exact Hlen|]. intros b. rewrite Hiff, length_insert.
      unfold aget in Eb.
      replace (i <? 0) with false in Eb by (symmetry; apply Z.ltb_ge; lia).
      split.
      * intros [Hb|(Hbl & k & Hk & Hkn & Hk16 & Hord)].
        -- destruct (Nat.eq_dec b (Z.to_nat b0)) as [->|Hne].
           ++ right. split; [lia|]. exists (Z.to_nat i).
              repeat split; try lia. rewrite Eb. f_equal. lia.
           ++ left. rewrite list_lookup_insert_ne in Hb by congruence.
              exact Hb.
        -- right. split; [exact Hbl|]. exists k. repeat split; try lia.
           exact Hord.
      * intros [Hb|(Hbl & k & Hk & Hkn & Hk16 & Hord)].
        -- left. destruct (Nat.eq_dec b (Z.to_nat b0)) as [->|Hne].
           ++ apply list_lookup_insert_eq. lia.
           ++ rewrite list_lookup_insert_ne by congruence. exact Hb.
        -- destruct (Nat.eq_dec k (Z.to_nat i)) as [->|Hne].
           ++ left. rewrite Eb in Hord. apply Some_eq_inv in Hord. subst b0.
              rewrite Nat2Z.id. apply list_lookup_insert_eq. lia.
           ++ right. split; [exact Hbl|]. exists k. repeat split; try lia.
              exact Hord.
    + apply Some_eq_inv in H. subst active'. split; [reflexivity|].
      intros b. split; [auto|].
      intros [Hb|(_ & k & Hk & Hkn & Hk16 & _)]; [exact Hb|].
      apply andb_false_iff in Econd as [E|E]; apply Z.ltb_ge in E;
        unfold BAR_LEN in *; lia.
Qed.

Lemma lookup_repeat_false n b : repeat false n !! b = Some true -> False.
Proof.
  revert b. induction n as [|n IH]; intros b; [discriminate|].
  destruct b as [|b]; [discriminate|]. cbn. apply IH.
Qed.

(** A bar position is marked exactly when it is among the first
    [numSteps] entries of the activation order. *)
Lemma markActive_iff order numSteps act b :
  length order = 16%nat -> 0 <= b < 16 ->
  markActive (Z.to_nat BAR_LEN) 0 numSteps order
    (repeat false (Z.to_nat BAR_LEN)) = Some act ->
  exists a, aget act b = Some a
            /\ (a = true <-> b ∈ take (Z.to_nat (Z.max 0 numSteps)) order).
Proof.
  intros Hlen Hb H.
  apply markActive_spec in H; [|first [lia | unfold BAR_LEN; cbn; lia]..].
  destruct H as [Hl Hiff]. rewrite repeat_length in Hl.
  change (Z.to_nat BAR_LEN) with 16%nat in *.
  destruct (aget_Some act b) as [a Ha]; [lia|].
  exists a. split; [exact Ha|].
  unfold aget in Ha.
  replace (b <? 0) with false in Ha by (symmetry; apply Z.ltb_ge; lia).
  split.
  - intros ->. apply Hiff in Ha as [Ha|(_ & k & _ & Hkn & Hk16 & Hord)].
    + exfalso. eapply lookup_repeat_false. exact Ha.
    + rewrite Z2Nat.id in Hord by lia.
      apply (list_elem_of_lookup_2 _ k). rewrite lookup_take_lt by lia.
      exact Hord.
  - intros Hin. apply list_elem_of_lookup in Hin as [k Hk].
    pose proof (lookup_lt_Some _ _ _ Hk) as Hlt. rewrite length_take in Hlt.
    rewrite lookup_take_lt in Hk by lia.
    assert (Ht : act !! Z.to_nat b = Some true).
    { apply Hiff. right. rewrite repeat_length. split; [lia|].
      exists k. repeat split; try lia. rewrite Z2Nat.id by lia. exact Hk. }
    rewrite Ht in Ha. apply Some_eq_inv in Ha. auto.
Qed.

(** What the output loop writes at step [j]. *)
Lemma fillSteps_lookup act sdl sel params n : forall i l,
  0 <= i ->
  fillSteps n i act sdl sel params = Some l ->
  length l = n
  /\ forall j, (j < n)%nat ->
       exists a st,
         aget act (Z.rem (i + Z.of_nat j) BAR_LEN) = Some a
         /\ l !! j = Some st
         /\ (a = false -> st = rest_step)
         /\ (a = true ->
             exists data v,
               aget sdl (i + Z.of_nat j) = Some data
               /\ aget sel (sd_noteIndex data) = Some (Some v)
               /\ st = mkStep v (sd_octave data)
                         (ltb (sd_accentProb data)
                            (div (gp_accentsDensity params) f_100))
                         (ltb (sd_slideProb data)
                            (div (gp_slidesDensity params) f_100))).
Proof.
  induction n as [|n IH]; intros i l Hi H.
  - cbn in H. apply Some_eq_inv in H. subst l. split; [reflexivity|]. lia.
  - cbn [fillSteps] in H.
    destruct (aget act (Z.rem i BAR_LEN)) as [a|] eqn:Ea; [|discriminate H].
    cbn [mbind option_bind] in H.
    assert (Hst : exists st rest,
              (if negb a then Some rest_step
               else
                 data ← aget sdl i;
                 entry ← aget sel (sd_noteIndex data);
                 noteValue ← (entry : option Z);
                 Some {| note := noteValue;
                         octave := sd_octave data;
                         accent :=
                           ltb (sd_accentProb data)
                             (div (gp_accentsDensity params) f_100);
                         slide :=
                           ltb (sd_slideProb data)
                             (div (gp_slidesDensity params) f_100) |})
              = Some st
              /\ fillSteps n (i + 1) act sdl sel params = Some rest
              /\ l = st :: rest).
    { destruct (if negb a then Some rest_step else _) as [st|];
        [|discriminate H].
      cbn [mbind option_bind] in H.
      destruct (fillSteps n (i + 1) act sdl sel params) as [rest|];
        [|discriminate H].
      cbn [mbind option_bind] in H. apply Some_eq_inv in H.
      exists st, rest. auto. }
    destruct Hst as (st & rest & Est & Er & ->). clear H.
    destruct (IH (i + 1) rest ltac:(lia) Er) as [Hlen Hrest].
    split; [cbn; lia|].
    intros [|j] Hj.
    + exists a, st. rewrite Z.add_0_r. split; [exact Ea|].
      split; [reflexivity|].
      destruct a; cbn [negb] in Est.
      * split; [discriminate|]. intros _.
        destruct (aget sdl i) as [data|] eqn:Ed; [|discriminate Est].
        cbn [mbind option_bind] in Est.
        destruct (aget sel (sd_noteIndex data)) as [[v|]|] eqn:Es;
          [|discriminate Est..].
        cbn [mbind option_bind] in Est. apply Some_eq_inv in Est.
        exists data, v. split; [reflexivity|]. split; [exact Es|].
        symmetry. exact Est.
      * split; [|discriminate]. intros _. apply Some_eq_inv in Est.
        symmetry. exact Est.
    + destruct (Hrest j ltac:(lia)) as (a' & st' & Ha' & Hl' & H1 & H2).
      replace (i + Z.of_nat (S j)) with (i + 1 + Z.of_nat j) by lia.
      exists a', st'. auto.
Qed.

Lemma selectNotes_entry c order sel k v :
  selectNotes c order = Some sel -> aget sel k = Some (Some v) -> v ∈ order.
Proof.
  unfold selectNotes. destruct (c <=? SCALE_SIZE); [|discriminate].
  intros H Hk. apply Some_eq_inv in H. subst sel.
  unfold aget in Hk. destruct (k <? 0); [discriminate|].
  apply list_elem_of_lookup_2 in Hk. apply elem_of_app in Hk as [Hk|Hk].
  - apply list_elem_of_fmap in Hk as (x & Hx & Hin).
    apply Some_eq_inv in Hx. subst x.
    apply elem_of_take in Hin as (i & Hi & _).
    eapply list_elem_of_lookup_2. exact Hi.
  - apply list_elem_of_In, repeat_spec in Hk. discriminate Hk.
Qed.

(** *** The legacy generator against the master pattern *)

(** What [getStep] returns for a step that is not muted. *)
Lemma getStep_unmuted m i d sp a sl (b : bool) :
  scalePriorityOrder m ≡ₚ [0; 1; 2; 3; 4; 5; 6] ->
  length (steps m) = 64%nat -> Forall generated_step (steps m) ->
  aget (muted m) i = Some false ->
  isStepActive m i d = Some b ->
  percent_ok sp -> 0 <= i < MAX_STEPS ->
  exists ms deg,
    aget (steps m) i = Some ms /\ 0 <= deg <= 6
    /\ getStep m i d sp a sl true
       = Some (if b
               then mkStep deg (ms_octave ms)
                      (ltb (accentProb ms) (div a f_100))
                      (ltb (slideProb ms) (div sl f_100))
               else rest_step).
Proof.
  intros Hsc Hlen Hall Hmu Hact (k & -> & Hk) Hi.
  pose proof (Permutation_length Hsc) as Hlsc. cbn in Hlsc.
  destruct (aget_Some (steps m) i) as [ms Hms];
    [rewrite Hlen; unfold MAX_STEPS in *; lia|].
  pose proof (aget_Forall _ _ _ _ Hall Hms) as (Hnpi & _).
  destruct (spreadCountOf_range k Hk) as (c & Hc & Hcr).
  assert (Hdeg : exists deg,
            (if notePoolIndex ms <? c
             then aget (scalePriorityOrder m) (notePoolIndex ms)
             else aget (scalePriorityOrder m) 0) = Some deg
            /\ 0 <= deg <= 6).
  { destruct (Z.ltb_spec (notePoolIndex ms) c).
    - destruct (aget_Some (scalePriorityOrder m) (notePoolIndex ms))
        as [deg Hd]; [lia|].
      exists deg. split; [exact Hd|]. eapply scale_degree_listed; eauto.
    - destruct (aget_Some (scalePriorityOrder m) 0) as [deg Hd]; [lia|].
      exists deg. split; [exact Hd|]. eapply scale_degree_listed; eauto. }
  destruct Hdeg as (deg & Hdeg & Hdr).
  exists ms, deg. split; [exact Hms|]. split; [exact Hdr|].
  unfold getStep. rewrite Hmu. cbn [mbind option_bind]. rewrite Hact.
  cbn [mbind option_bind]. destruct b; cbn [negb]; [|reflexivity].
  unfold getScaleDegree. rewrite Hms. cbn [mbind option_bind]. rewrite Hc.
  cbn [mbind option_bind]. rewrite Hdeg. cbn [mbind option_bind].
  replace (deg <? 0) with false by (symmetry; apply Z.ltb_ge; lia).
  reflexivity.
Qed.

Lemma Forall2_aget {A B} (R : A -> B -> Prop) l l' i x y :
  Forall2 R l l' -> aget l i = Some x -> aget l' i = Some y -> R x y.
Proof.
  unfold aget. destruct (i <? 0); [discriminate|]. intros H Hx Hy.
  eapply Forall2_lookup_lr; eassumption.
Qed.

(** X25: whenever the legacy [generate] returns, its pattern has
    64 steps that agree with the master pattern of the same seed resolved
    by [getStep] under the same parameters: the same steps are rests, and
    a sounding step has the same octave, accent and slide; both notes are
    degrees 0..6 (the notes themselves may differ). *)
Theorem generate_agrees_with_master params pat n :
  gp_density params = Fin n -> representable n -> 0 <= n <= 100 * one ->
  percent_ok (gp_spread params) ->
  generate params = Some pat ->
  pat_length pat = MAX_STEPS
  /\ length (pat_steps pat) = Z.to_nat MAX_STEPS
  /\ exists m,
       generateMaster (gp_seed params) MasterPattern_init = Some m
       /\ forall i, 0 <= i < MAX_STEPS ->
            exists ls st,
              aget (pat_steps pat) i = Some ls
              /\ getStep m i (gp_density params) (gp_spread params)
                   (gp_accentsDensity params) (gp_slidesDensity params) true
                 = Some st
              /\ isRest ls = isRest st
              /\ (isRest st = false ->
                  octave ls = octave st /\ accent ls = accent st
                  /\ slide ls = slide st
                  /\ 0 <= note ls <= 6 /\ 0 <= note st <= 6).
Proof.
  intros Hd Hrep Hn Hsp H.
  apply generate_phases in H.
  destruct H as (ws & r1 & wb & r2 & c & sel & sdl & numSteps & act
                 & Es & Eb & Ec & Esel & Esd & En & Eact & Efill & Hplen).
  destruct (generateMaster_phases (gp_seed params) MasterPattern_init)
    as (ws' & r1' & wb' & r2' & l & Es' & Eb' & El & Hgen).
  rewrite Es in Es'. apply pair_eq_inv in Es' as [<- <-].
  rewrite Eb in Eb'. apply pair_eq_inv in Eb' as [<- <-].
  destruct (generateMaster_inv (gp_seed params) MasterPattern_init)
    as (m & Hgen' & Hsc & Hbar & Hlen & Hall & Hmut).
  rewrite Hgen in Hgen'. apply Some_eq_inv in Hgen'.
  assert (Hmb : barActivationOrder m
                = map ws_step (bubbleSort ws_weight (Z.to_nat BAR_LEN) wb))
    by (rewrite <- Hgen'; reflexivity).
  assert (Hms : scalePriorityOrder m
                = map wn_index (bubbleSort wn_weight (Z.to_nat SCALE_SIZE) ws))
    by (rewrite <- Hgen'; reflexivity).
  assert (Hml : steps m = l) by (rewrite <- Hgen'; reflexivity).
  rewrite <- Hmb in Eact. rewrite <- Hms in Esel.
  rewrite Hgen, Hgen'. clear Hgen Hgen'.
  pose proof (Permutation_length Hbar) as Hlbar. cbn in Hlbar.
  pose proof (genSteps_genStepData c _ _ _ _ _ El Esd) as Hsame.
  rewrite <- Hml in Hsame.
  destruct (fillSteps_lookup act sdl sel params (Z.to_nat MAX_STEPS) 0
              (pat_steps pat) ltac:(lia) Efill) as [Hflen Hfill].
  split; [exact Hplen|]. split; [exact Hflen|].
  exists m. split; [reflexivity|]. intros i Hi.
  destruct (Hfill (Z.to_nat i) ltac:(unfold MAX_STEPS in *; lia))
    as (a & ls & Ha & Hls & Hrest & Hnote).
  rewrite Z.add_0_l, Z2Nat.id in Ha, Hnote by lia.
  assert (Hb16 : 0 <= Z.rem i BAR_LEN < 16).
  { unfold BAR_LEN. rewrite Z.rem_mod_nonneg by lia.
    apply Z.mod_pos_bound. lia. }
  destruct (markActive_iff _ _ _ _ Hlbar Hb16 Eact) as (a' & Ha' & Hiff).
  rewrite Ha in Ha'. apply Some_eq_inv in Ha'. subst a'.
  (* the count of the master pattern *)
  assert (Hcm : activeCountOf (gp_density params) = Some (Z.max 0 numSteps)).
  { rewrite activeCountOf_eq, Hd.
    rewrite <- (stepsPerBar_percentCount n Hrep Hn).
    rewrite Hd in En. rewrite En. reflexivity. }
  assert (Hcr : 0 <= Z.max 0 numSteps <= 16).
  { destruct (activeCountOf_range n Hn) as (c0 & Hc0 & Hr0).
    rewrite Hd, Hc0 in Hcm. apply Some_eq_inv in Hcm. lia. }
  pose proof (isStepActive_iff m i _ _ Hbar Hcm Hcr) as Hact.
  assert (Hwf : wf_pattern m).
  { unfold wf_pattern. pose proof (Permutation_length Hsc) as Hlsc.
    cbn in Hlsc. rewrite Hlbar, Hlsc, Hlen, Hmut.
    repeat split; try reflexivity.
    eapply Forall_impl; [exact Hall|]. intros ms (Hx & _). lia. }
  destruct (isStepActive_total m i (gp_density params) Hwf) as [b Hb];
    [exists n; auto|].
  assert (Hab : b = a).
  { destruct b, a; try reflexivity.
    - apply Hact, Hiff in Hb. discriminate Hb.
    - assert (Ht : isStepActive m i (gp_density params) = Some true)
        by (apply Hact, Hiff; reflexivity).
      rewrite Hb in Ht. discriminate Ht. }
  subst b.
  assert (Hmuted : aget (muted m) i = Some false).
  { rewrite Hmut. unfold aget.
    replace (i <? 0) with false by (symmetry; apply Z.ltb_ge; lia).
    apply lookup_repeat. unfold MAX_STEPS in *. lia. }
  destruct (getStep_unmuted m i (gp_density params) (gp_spread params)
              (gp_accentsDensity params) (gp_slidesDensity params) a
              Hsc Hlen Hall Hmuted Hb Hsp Hi)
    as (ms & deg & Hmsi & Hdeg & Hget).
  exists ls. eexists. split.
  { unfold aget. replace (i <? 0) with false by (symmetry; apply Z.ltb_ge; lia).
    exact Hls. }
  split; [exact Hget|].
  destruct a.
  - destruct (Hnote eq_refl) as (data & v & Hdata & Hv & ->).
    pose proof (selectNotes_entry _ _ _ _ _ Esel Hv) as Hin.
    rewrite Hsc in Hin. apply list_elem_of_In in Hin. cbn in Hin.
    pose proof (Forall2_aget _ _ _ _ _ _ Hsame Hmsi Hdata) as (Ho & Hap & Hsl).
    cbn [isRest note octave accent slide].
    assert (Hv0 : (v <? 0) = false) by (apply Z.ltb_ge; lia).
    assert (Hd0 : (deg <? 0) = false) by (apply Z.ltb_ge; lia).
    unfold isRest. cbn [note]. rewrite Hv0, Hd0.
    split; [reflexivity|]. intros _.
    rewrite Ho, Hap, Hsl. repeat split; lia.
  - rewrite (Hrest eq_refl). split; [reflexivity|].
    intros Hr. discriminate Hr.
Qed.

(** X26: a draw of exactly 1.0 makes the legacy [generate] index
    [selectedNotes] at [spreadCount].  With seed 1576659 the note index
    of step 9 is 7 at full spread, one past the array, and 4 at a spread
    of 50, an entry that was never written; at full density the step is
    active and the entry is read. *)
Theorem generate_reads_unwritten_note :
  legacySpreadCount (of_Z 100) = Some 7
  /\ legacySpreadCount (of_Z 50) = Some 4
  /\ (let r2 := snd (weighBar (Z.to_nat BAR_LEN) 0
                       (snd (weighScale (Z.to_nat SCALE_SIZE) 0
                               (SFC32_seed 1576659)))) in
      (sdl ← genStepData 7 (Z.to_nat MAX_STEPS) 0 r2;
       sd_noteIndex <$> sdl !! 9%nat) = Some 7
      /\ (sdl ← genStepData 4 (Z.to_nat MAX_STEPS) 0 r2;
          sd_noteIndex <$> sdl !! 9%nat) = Some 4)
  /\ generate (demo_params 1576659 100 100) = None
  /\ generate (demo_params 1576659 100 50) = None.
Proof. vm_compute. repeat split; reflexivity. Qed.

(** ** The display cache *)

Lemma Fin_inj a b : Fin a = Fin b -> a = b.
Proof. intros [= ->]. reflexivity. Qed.

Lemma eqb_eq x y : eqb x y = true -> x = y.
Proof.
  destruct x as [a|s|], y as [b|t|]; cbn; try discriminate.
  - intros H. apply Z.eqb_eq in H. congruence.
  - intros H. apply Bool.eqb_prop in H. congruence.
Qed.

Lemma refreshSteps_spec m d sp a sl n : forall i disp,
  wf_pattern m -> percent_ok d -> percent_ok sp ->
  0 <= i -> i + Z.of_nat n <= MAX_STEPS ->
  length disp = Z.to_nat MAX_STEPS ->
  exists disp',
    refreshSteps n i m d sp a sl disp = Some disp'
    /\ length disp' = length disp
    /\ (forall j, i <= j < i + Z.of_nat n ->
          exists st, aget disp' j = Some st
                     /\ getStep m j d sp a sl true = Some st)
    /\ (forall j, 0 <= j < i -> aget disp' j = aget disp j).
Proof.
  induction n as [|n IH]; intros i disp Hwf Hd Hsp Hi Hn Hlen.
  - exists disp. split; [reflexivity|]. split; [reflexivity|].
    split; [intros j Hj; lia|reflexivity].
  - cbn [refreshSteps].
    destruct (getStep_total m i d sp a sl true Hwf ltac:(lia) Hd Hsp) as [st Hst].
    rewrite Hst. cbn [mbind option_bind].
    replace ((0 <=? i) && (i <? Z.of_nat (length disp))) with true.
    2:{ symmetry. apply andb_true_iff. split; [apply Z.leb_le; lia|].
        apply Z.ltb_lt. rewrite Hlen. unfold MAX_STEPS in *. lia. }
    destruct (IH (i + 1) (<[Z.to_nat i := st]> disp) Hwf Hd Hsp
                ltac:(lia) ltac:(lia))
      as (disp' & Hr & Hl' & Hnew & Hold);
      [rewrite length_insert; exact Hlen|].
    exists disp'. split; [exact Hr|].
    rewrite length_insert in Hl'. split; [exact Hl'|]. split.
    + intros j Hj. destruct (Z.eq_dec j i) as [->|Hne].
      * exists st. split; [|exact Hst].
        rewrite Hold by lia. unfold aget.
        replace (i <? 0) with false by (symmetry; apply Z.ltb_ge; lia).
        apply list_lookup_insert_eq. rewrite Hlen. unfold MAX_STEPS in *. lia.
      * apply Hnew. lia.
    + intros j Hj. rewrite Hold by lia. unfold aget.
      replace (j <? 0) with false by (symmetry; apply Z.ltb_ge; lia).
      apply list_lookup_insert_ne. lia.
Qed.


(** ** The panel *)

Lemma rem_12_negative x : -12 < x <= 0 -> Z.rem x 12 = x.
Proof.
  intros Hx. rewrite <- (Z.opp_involutive x) at 1.
  rewrite Z.rem_opp_l by lia. rewrite Z.rem_small by lia. lia.
Qed.


Lemma add_int k j :
  Z.abs (k + j) < 2 ^ 24 ->
  add (Fin (k * one)) (Fin (j * one)) = Fin ((k + j) * one).
Proof.
  intros H. unfold add, round_ratio.
  replace (k * one + j * one) with ((k + j) * one) by lia.
  rewrite RN_fix by (apply representable_int; exact H).
  apply pack_Fin. split; [reflexivity|].
  rewrite Z.abs_mul. unfold one, huge. rewrite (Z.abs_eq (2 ^ 149)) by lia.
  assert (Z.abs (k + j) * 2 ^ 149 < 2 ^ 24 * 2 ^ 149) by nia.
  assert (2 ^ 24 * 2 ^ 149 < 2 ^ 277) by reflexivity. lia.
Qed.

(** X29: the octave buttons keep a whole octave in -2..2 inside
    that range: each button moves it by one and stops at its limit, and
    the index of the octave light stays in 0..4. *)
Theorem octave_buttons_in_range up down k :
  -2 <= k <= 2 ->
  exists k',
    octaveButtons up down (of_Z k) = of_Z k'
    /\ -2 <= k' <= 2
    /\ k' = (let k1 := if up && (k <? 2) then k + 1 else k in
             if down && (-2 <? k1) then k1 - 1 else k1)
    /\ octaveIndex (of_Z k') = Some (k' + 2)
    /\ 0 <= k' + 2 <= 4.
Proof.
  intros Hk. pose proof one_pos as Hone.
  set (k1 := if up && (k <? 2) then k + 1 else k).
  set (k2 := if down && (-2 <? k1) then k1 - 1 else k1).
  assert (Hk1 : -2 <= k1 <= 2).
  { unfold k1. destruct up; cbn [andb]; [|lia].
    destruct (Z.ltb_spec k 2); lia. }
  assert (Hk2 : -2 <= k2 <= 2).
  { unfold k2. destruct down; cbn [andb]; [|lia].
    destruct (Z.ltb_spec (-2) k1); lia. }
  exists k2.
  assert (Hlt1 : (k * one <? 2 * one) = (k <? 2)).
  { destruct (Z.ltb_spec k 2); destruct (Z.ltb_spec (k * one) (2 * one));
      try reflexivity; nia. }
  assert (Hlt2 : (-2 * one <? k1 * one) = (-2 <? k1)).
  { destruct (Z.ltb_spec (-2) k1);
      destruct (Z.ltb_spec (-2 * one) (k1 * one)); try reflexivity; nia. }
  assert (Hstep1 : (if up && ltb (of_Z k) f_2
                    then add (of_Z k) (of_Z 1) else of_Z k) = of_Z k1).
  { rewrite f_2_eq, (of_Z_exact k), (of_Z_exact 1), (of_Z_exact k1) by lia.
    unfold ltb. rewrite Hlt1. unfold k1.
    destruct (up && (k <? 2)) eqn:E; [|reflexivity].
    apply andb_true_iff in E as [_ E]. apply Z.ltb_lt in E.
    apply add_int; lia. }
  assert (Hstep2 : octaveButtons up down (of_Z k) = of_Z k2).
  { unfold octaveButtons. rewrite Hstep1.
    rewrite (of_Z_exact k1), (of_Z_exact (-2)), (of_Z_exact 1),
      (of_Z_exact k2) by lia.
    unfold gtb, ltb. rewrite Hlt2. unfold k2.
    destruct (down && (-2 <? k1)) eqn:E; [|reflexivity].
    apply andb_true_iff in E as [_ E]. apply Z.ltb_lt in E.
    unfold sub, opp. replace (- (1 * one)) with (-1 * one) by lia.
    rewrite add_int by lia. f_equal; lia. }
  split; [exact Hstep2|]. split; [exact Hk2|]. split; [reflexivity|].
  split; [|lia].
  unfold octaveIndex. rewrite of_Z_exact by lia.
  assert (Hto : to_int (Fin (k2 * one)) = Some k2)
    by (apply to_int_Fin_mul; split; [reflexivity|lia]).
  rewrite Hto. reflexivity.
Qed.


Lemma octave_buttons_in_range_witness :
  exists k',
    octaveButtons true false (of_Z 2) = of_Z k'
    /\ -2 <= k' <= 2
    /\ k' = (let k1 := if true && (2 <? 2) then 2 + 1 else 2 in
             if false && (-2 <? k1) then k1 - 1 else k1)
    /\ octaveIndex (of_Z k') = Some (k' + 2)
    /\ 0 <= k' + 2 <= 4.
Proof. apply (octave_buttons_in_range true false 2). lia. Defined.

(** ** Instances *)

Ltac percent n :=
  exists (n * one); split; [vm_compute; reflexivity | unfold one; lia].

Lemma storable_init : storable_pattern MasterPattern_init.
Proof.
  unfold storable_pattern.
  split; [reflexivity|]. split; [reflexivity|]. split; [reflexivity|].
  split; [reflexivity|].
  split; [|split].
  - apply List.Forall_forall. intros x Hx. cbn in Hx. unfold in_int32.
    repeat (destruct Hx as [<-|Hx]; [lia|]). contradiction.
  - apply List.Forall_forall. intros x Hx. cbn in Hx. unfold in_int32.
    repeat (destruct Hx as [<-|Hx]; [lia|]). contradiction.
  - apply List.Forall_forall. intros ms Hin.
    cbn [steps MasterPattern_init] in Hin. apply repeat_spec in Hin. subst ms.
    unfold storable_step, in_int32. cbn [notePoolIndex ms_octave accentProb slideProb].
    split; [lia|]. split; [lia|].
    split; eexists; vm_compute; reflexivity.
Qed.


Lemma root_first_witness :
  exists m, generateMaster 12345 MasterPattern_init = Some m
            /\ aget (scalePriorityOrder m) 0 = Some 0.
Proof. apply (root_first 12345 MasterPattern_init). lia. Defined.

Lemma density_monotone_witness :
  isStepActive MasterPattern_init 7 (of_Z 75) = Some true.
Proof.
  apply (density_monotone MasterPattern_init 7 (of_Z 50) (of_Z 75));
    vm_compute; reflexivity.
Defined.

Lemma zero_density_all_rests_witness :
  getStep MasterPattern_init 5 (Fin 0) (of_Z 50) (of_Z 50) (of_Z 50) true
    = Some (mkStep (-1) 0 false false)
  /\ mkStep (-1) 0 false false = mkStep (-1) 0 false false.
Proof.
  split; [vm_compute; reflexivity|].
  apply (zero_density_all_rests MasterPattern_init 5 0 (of_Z 50) (of_Z 50)
           (of_Z 50) true); [lia | vm_compute; reflexivity].
Defined.

Lemma generateNewPattern_unmutes_witness :
  exists s' st,
    generateNewPattern 0 (demo_at 3 f_0 f_0) = Some s'
    /\ muted (masterPattern s') = repeat false (Z.to_nat MAX_STEPS)
    /\ currentStep s' = currentStep (demo_at 3 f_0 f_0)
    /\ getStep (masterPattern s') 17 (of_Z 100) (of_Z 50) (of_Z 25) (of_Z 25)
         true = Some st
    /\ isRest st = false /\ 0 <= note st <= 6.
Proof.
  apply (generateNewPattern_unmutes 0 (demo_at 3 f_0 f_0) 17 (of_Z 50)
           (of_Z 25) (of_Z 25)); [unfold MAX_STEPS; lia | percent 50].
Defined.

Lemma spread_monotone_witness :
  getScaleDegree MasterPattern_init 3 (of_Z 80) true
    = aget (scalePriorityOrder MasterPattern_init)
        (notePoolIndex (mkMasterStep 0 0 f_0_5 f_0_5))
  /\ getScaleDegree MasterPattern_init 3 (of_Z 30) true
     = aget (scalePriorityOrder MasterPattern_init)
         (notePoolIndex (mkMasterStep 0 0 f_0_5 f_0_5)).
Proof.
  apply (spread_monotone MasterPattern_init 3 (of_Z 30) (of_Z 80) true
           (mkMasterStep 0 0 f_0_5 f_0_5) 2);
    [reflexivity | vm_compute; reflexivity | cbn; lia
    | vm_compute; reflexivity | vm_compute; reflexivity].
Defined.

Lemma accent_slide_monotone_witness :
  exists st2,
    getStep MasterPattern_init 0 (of_Z 100) (of_Z 50) (Fin (90 * one))
      (Fin (20 * one)) true = Some st2
    /\ note st2 = note (mkStep 0 0 true false)
    /\ octave st2 = octave (mkStep 0 0 true false)
    /\ (accent (mkStep 0 0 true false) = true -> accent st2 = true)
    /\ (slide (mkStep 0 0 true false) = true -> slide st2 = true).
Proof.
  apply (accent_slide_monotone MasterPattern_init 0 (of_Z 100) (of_Z 50)
           (60 * one) (90 * one) (10 * one) (20 * one) true
           (mkStep 0 0 true false));
    [vm_compute; reflexivity | unfold one; lia | unfold one; lia].
Defined.

Lemma density_mask_periodic_witness :
  isStepActive MasterPattern_init (3 + BAR_LEN) (of_Z 50)
  = isStepActive MasterPattern_init 3 (of_Z 50).
Proof. apply (density_mask_periodic MasterPattern_init 3 (of_Z 50)). lia. Defined.

Lemma findNotePoolIndex_spec_witness :
  findNotePoolIndex MasterPattern_init 4 = 4
  /\ findNotePoolIndex MasterPattern_init 9 = 0.
Proof.
  split.
  - apply (proj1 (proj2 (findNotePoolIndex_spec MasterPattern_init 4)) 4);
      [vm_compute; apply Permutation_refl | reflexivity].
  - apply (proj2 (proj2 (findNotePoolIndex_spec MasterPattern_init 9))).
    vm_compute. intros H.
    repeat (apply elem_of_cons in H as [H|H]; [discriminate H|]).
    apply elem_of_nil in H. exact H.
Defined.


Lemma reset_then_clock_starts_at_zero_witness :
  exists s',
    clockEdge (demo_in 0 (of_Z 100)) (resetEdge (demo_at 40 f_0 f_0)) = Some s'
    /\ currentStep s' = 0
    /\ masterPattern s' = masterPattern (demo_at 40 f_0 f_0)
    /\ currentPitch (resetEdge (demo_at 40 f_0 f_0))
       = currentPitch (demo_at 40 f_0 f_0)
    /\ currentSlideActive (resetEdge (demo_at 40 f_0 f_0)) = false.
Proof.
  eexists. split; [vm_compute; reflexivity|].
  apply (reset_then_clock_starts_at_zero (demo_in 0 (of_Z 100))
           (demo_at 40 f_0 f_0)).
  vm_compute. reflexivity.
Defined.

Lemma clock_period_update_witness :
  exists s2 s3,
    clockEdge (demo_in 0 (of_Z 100))
      (accumulateTime f_0_5 (demo_at 3 f_0 f_0)) = Some s2
    /\ clockEdge (demo_in 0 (of_Z 100)) (accumulateTime (of_Z 3) s2) = Some s3
    /\ measuredClockPeriod s2 = f_0_5 /\ measuredClockPeriod s3 = f_0_5.
Proof.
  eexists. eexists.
  split; [vm_compute; reflexivity|]. split; [vm_compute; reflexivity|].
  apply (proj2 clock_period_update (demo_in 0 (of_Z 100))
           (demo_in 0 (of_Z 100))
           (accumulateTime f_0_5 (demo_at 3 f_0 f_0)));
    vm_compute; reflexivity.
Defined.


Lemma ramp_never_overshoots_witness :
  exists cn cn',
    currentPitch (ticks 600 demo_ramp) = Fin cn
    /\ currentPitch (ticks 601 demo_ramp) = Fin cn'
    /\ slideTargetPitch (ticks 600 demo_ramp) = Fin one
    /\ (0 < 2 ^ 140 -> 0 <= cn /\ cn <= cn' /\ cn' <= one)
    /\ (2 ^ 140 < 0 -> one <= cn' /\ cn' <= cn /\ cn <= 0)
    /\ (slideRate (ticks 600 demo_ramp) = Fin (2 ^ 140)
        \/ (slideRate (ticks 600 demo_ramp) = f_0 /\ cn = one
            /\ ticks 601 demo_ramp = ticks 600 demo_ramp)).
Proof.
  apply (ramp_never_overshoots demo_ramp 0 one (2 ^ 140) 600);
    [reflexivity | reflexivity | reflexivity
    | vm_compute; reflexivity | vm_compute; reflexivity
    | vm_compute; reflexivity | vm_compute; reflexivity
    | left; unfold one; lia].
Defined.

Lemma attack_gate_and_gap_witness :
  exists s' out,
    process (demo_in 1 (of_Z 0)) (demo_at 3 f_0_02 f_0) = Some (s', out)
    /\ OUTPUT_PITCH out = div (of_Z 12) f_12
    /\ currentPitch s' = div (of_Z 12) f_12
    /\ slideRate s' = f_0
    /\ (gtb (remaining (gatePulse (demo_at 3 f_0_02 f_0))) f_0 = true ->
        OUTPUT_GATE out = f_0
        /\ retriggerGapRemaining s'
           = sub RETRIGGER_GAP_TIME (sampleTime (demo_in 1 (of_Z 0))))
    /\ (forall g,
          remaining (gatePulse (demo_at 3 f_0_02 f_0)) = Fin g -> g <= 0 ->
          slide (mkStep 0 0 false false) = false ->
          gtb (retriggerGapRemaining
                 (beforeClock (demo_in 1 (of_Z 0)) (demo_at 3 f_0_02 f_0)))
            f_0 = false ->
          OUTPUT_GATE out = f_10
          /\ remaining (gatePulse s')
             = sub f_0_02 (sampleTime (demo_in 1 (of_Z 0)))).
Proof.
  eexists. eexists. split; [vm_compute; reflexivity|].
  apply (attack_gate_and_gap (demo_in 1 (of_Z 0)) (demo_at 3 f_0_02 f_0)
           _ _ (mkStep 0 0 false false) (mkStep 0 0 false false) 12);
    [reflexivity | reflexivity | vm_compute; reflexivity
    | vm_compute; reflexivity
    | reflexivity | vm_compute; reflexivity | vm_compute; reflexivity
    | reflexivity].
Defined.


Lemma json_round_trip_witness :
  exists j t',
    dataToJson (demo_at 5 f_0_02 (Fin one)) = Some j
    /\ dataFromJson j demo_module = Some t'
    /\ masterPattern t' = masterPattern (demo_at 5 f_0_02 (Fin one))
    /\ (forall step d sp a sl q,
          getStep (masterPattern t') step d sp a sl q
          = getStep (masterPattern (demo_at 5 f_0_02 (Fin one))) step d sp a sl q)
    /\ currentSeed t' = currentSeed (demo_at 5 f_0_02 (Fin one))
    /\ currentStep t' = currentStep (demo_at 5 f_0_02 (Fin one))
    /\ currentSlideActive t' = currentSlideActive (demo_at 5 f_0_02 (Fin one))
    /\ currentPitch t'
       = match currentPitch (demo_at 5 f_0_02 (Fin one)) with
         | Fin _ => currentPitch (demo_at 5 f_0_02 (Fin one))
         | _ => currentPitch demo_module
         end
    /\ slideTargetPitch t'
       = match slideTargetPitch (demo_at 5 f_0_02 (Fin one)) with
         | Fin _ => slideTargetPitch (demo_at 5 f_0_02 (Fin one))
         | _ => slideTargetPitch demo_module
         end
    /\ slideRate t'
       = match slideRate (demo_at 5 f_0_02 (Fin one)) with
         | Fin _ => slideRate (demo_at 5 f_0_02 (Fin one))
         | _ => slideRate demo_module
         end
    /\ gatePulse t' = gatePulse demo_module
    /\ accentPulse t' = accentPulse demo_module
    /\ timeSinceLastClock t' = timeSinceLastClock demo_module
    /\ measuredClockPeriod t' = measuredClockPeriod demo_module
    /\ retriggerGapRemaining t' = retriggerGapRemaining demo_module.
Proof.
  apply (json_round_trip (demo_at 5 f_0_02 (Fin one)) demo_module);
    [apply storable_init | apply storable_sized, storable_init
    | unfold in_int32; cbn; lia | cbn; lia].
Defined.

Lemma dataFromJson_fallback_witness :
  exists s',
    dataFromJson doc_v1 demo_module = Some s'
    /\ currentSeed s' = 42
    /\ generateMaster 42 (masterPattern demo_module) = Some (masterPattern s')
    /\ muted (masterPattern s') = muted (masterPattern demo_module).
Proof.
  destruct (dataFromJson_fallback
              doc_v1
              demo_module) as (s' & H & Hseed & _ & _ & Hgen).
  exists s'. split; [exact H|]. split; [exact Hseed|].
  apply Hgen. right. vm_compute. reflexivity.
Defined.

Lemma stored_step_not_validated_witness :
  exists s',
    dataFromJson doc_step_m5 demo_module = Some s'
    /\ currentStep s' = -5
    /\ nextStep (currentStep s') (patternLength (demo_in 0 (of_Z 100))) = -5 + 1
    /\ aget (muted (masterPattern s')) (-5 + 1) = None
    /\ clockEdge (demo_in 0 (of_Z 100)) s' = None.
Proof.
  eexists. split; [vm_compute; reflexivity|].
  apply (stored_step_not_validated doc_step_m5 demo_module _ (-5)
           (demo_in 0 (of_Z 100)));
    [vm_compute; reflexivity | reflexivity | unfold in_int32; lia | lia
    | cbn; lia].
Defined.


Lemma stepToVoltage_volt_per_octave_witness :
  stepToVoltage rest_step MAJOR 0 6 = Some f_0
  /\ stepToVoltage (mkStep 0 0 false false) MAJOR 0 6 = Some (Fin (1 * one)).
Proof.
  split.
  - apply (proj1 (stepToVoltage_volt_per_octave rest_step MAJOR 0 6)).
    reflexivity.
  - apply (proj1 (proj2 (stepToVoltage_volt_per_octave
                           (mkStep 0 0 false false) MAJOR 0 6)) 1);
      [reflexivity | vm_compute; reflexivity | vm_compute; reflexivity].
Defined.

Lemma active_steps_per_bar_witness :
  exists c,
    activeCountOf (of_Z 50) = Some c /\ 0 <= c <= 16
    /\ Z.of_nat (length (activeInBar MasterPattern_init (of_Z 50) 2)) = c
    /\ (of_Z 50 = of_Z 0 -> c = 0) /\ (of_Z 50 = of_Z 50 -> c = 8)
    /\ (of_Z 50 = of_Z 100 -> c = 16).
Proof.
  apply (active_steps_per_bar MasterPattern_init (of_Z 50) 2);
    [vm_compute; apply Permutation_refl | percent 50].
Defined.

Lemma resolved_step_range_witness :
  exists m st,
    generateMaster 12345 MasterPattern_init = Some m
    /\ getStep m 9 (of_Z 50) (of_Z 50) (of_Z 25) (of_Z 25) true = Some st
    /\ (st = rest_step \/ (0 <= note st <= 6 /\ -1 <= octave st <= 2)).
Proof.
  apply (resolved_step_range 12345 MasterPattern_init 9 (of_Z 50) (of_Z 50)
           (of_Z 25) (of_Z 25));
    [reflexivity | unfold MAX_STEPS; lia | percent 50 | percent 50].
Defined.

Lemma generate_agrees_with_master_witness :
  exists pat,
    generate (demo_params 12345 50 50) = Some pat
    /\ pat_length pat = MAX_STEPS
    /\ length (pat_steps pat) = Z.to_nat MAX_STEPS
    /\ exists m,
         generateMaster (gp_seed (demo_params 12345 50 50)) MasterPattern_init
           = Some m
         /\ forall i, 0 <= i < MAX_STEPS ->
              exists ls st,
                aget (pat_steps pat) i = Some ls
                /\ getStep m i (gp_density (demo_params 12345 50 50))
                     (gp_spread (demo_params 12345 50 50))
                     (gp_accentsDensity (demo_params 12345 50 50))
                     (gp_slidesDensity (demo_params 12345 50 50)) true
                   = Some st
                /\ isRest ls = isRest st
                /\ (isRest st = false ->
                    octave ls = octave st /\ accent ls = accent st
                    /\ slide ls = slide st
                    /\ 0 <= note ls <= 6 /\ 0 <= note st <= 6).
Proof.
  eexists. split; [vm_compute; reflexivity|].
  apply (generate_agrees_with_master (demo_params 12345 50 50) _ (50 * one));
    [vm_compute; reflexivity | vm_compute; reflexivity | unfold one; lia
    | percent 50 | vm_compute; reflexivity].
Defined.


